(** * Fitting-room synchronisation (process_sync.py)

    A shallow embedding of the blue/green fitting-room program: the
    semaphores and locks of Python's [threading] module, the [Lightswitch]
    class, the shared variables, and the two thread target functions as an
    interleaving transition system with one step per source statement. *)

From Stdlib Require Import String ZArith Lia Bool.
From Stdlib Require PrimFloat Uint63.
From stdpp Require Import base list.

Local Open Scope Z_scope.

(** ** Colours of the threads (constants BLUE and GREEN) *)

Inductive Color := Blue | Green.

Definition color_eqb (a b : Color) : bool :=
  match a, b with
  | Blue, Blue | Green, Green => true
  | _, _ => false
  end.

(** ** threading.Semaphore and threading.Lock

    A semaphore is its integer value.  [acquire] blocks while the value is
    zero, which is rendered as [None] (the caller cannot take the step);
    [release] increments without bound (a plain [Semaphore], not a
    [BoundedSemaphore]).  A [Lock] is a boolean, [true] when locked;
    releasing an unlocked [Lock] raises [RuntimeError], rendered as [None]
    of [lock_release]. *)

Definition sem_acquire (v : Z) : option Z :=
  if 0 <? v then Some (v - 1) else None.

Definition sem_release (v : Z) : Z := v + 1.

Definition lock_acquire (locked : bool) : option bool :=
  if locked then None else Some true.

Definition lock_release (locked : bool) : option bool :=
  if locked then Some false else None.

(** ** Input validation (lines 77-90) *)

Inductive Exception := Raise (msg : string).

Record Config := mkConfig {
  num_slots : Z;
  num_blue : Z;
  num_green : Z
}.

Definition configure (slots blue green : Z) : Exception + Config :=
  if slots <=? 0 then
    inl (Raise "The number of slots should be positive."%string)
  else if blue <? 0 then
    inl (Raise "The number of blue threads should be nonnegative."%string)
  else if green <? 0 then
    inl (Raise "The number of green threads should be nonnegative."%string)
  else if (blue =? 0) && (green =? 0) then
    inl (Raise "No threads to synchronize!"%string)
  else
    inr (mkConfig slots blue green).

(** ** The Lightswitch class (lines 105-147) *)

Record Lightswitch := mkLightswitch {
  counter : Z;
  color : Color;
  mutex : Z
}.

Definition Lightswitch_init (c : Color) : Lightswitch :=
  mkLightswitch 0 c 1.

Definition set_counter (v : Z) (l : Lightswitch) : Lightswitch :=
  mkLightswitch v (color l) (mutex l).

Definition set_mutex (v : Z) (l : Lightswitch) : Lightswitch :=
  mkLightswitch (counter l) (color l) v.

(** The two methods as sequential programs: a state monad over the
    lightswitch, the semaphore passed as argument, and a log of the
    semaphore operations performed.  [None] means the caller blocks. *)

Module Method.

Inductive SemOp := AcquireMutex | ReleaseMutex | AcquireBG | ReleaseBG.

Definition SemOp_eqb (a b : SemOp) : bool :=
  match a, b with
  | AcquireMutex, AcquireMutex | ReleaseMutex, ReleaseMutex
  | AcquireBG, AcquireBG | ReleaseBG, ReleaseBG => true
  | _, _ => false
  end.

Record World := mkWorld {
  self : Lightswitch;
  blue_green_mutex : Z;
  ops : list SemOp
}.

Definition M (A : Type) : Type := World -> option (A * World).

Definition ret {A} (a : A) : M A := fun w => Some (a, w).

Definition bind {A B} (m : M A) (k : A -> M B) : M B :=
  fun w => match m w with
           | Some (a, w') => k a w'
           | None => None
           end.

Notation "x <- m ;; k" := (bind m (fun x => k))
  (at level 100, m at next level, right associativity).
Notation "m ;; k" := (bind m (fun _ => k))
  (at level 100, right associativity).

Definition self_mutex_acquire : M unit := fun w =>
  match sem_acquire (mutex (self w)) with
  | Some v => Some (tt, mkWorld (set_mutex v (self w)) (blue_green_mutex w)
                                (ops w ++ [AcquireMutex]))
  | None => None
  end.

Definition self_mutex_release : M unit := fun w =>
  Some (tt, mkWorld (set_mutex (sem_release (mutex (self w))) (self w))
                    (blue_green_mutex w) (ops w ++ [ReleaseMutex])).

Definition blue_green_acquire : M unit := fun w =>
  match sem_acquire (blue_green_mutex w) with
  | Some v => Some (tt, mkWorld (self w) v (ops w ++ [AcquireBG]))
  | None => None
  end.

Definition blue_green_release : M unit := fun w =>
  Some (tt, mkWorld (self w) (sem_release (blue_green_mutex w))
                    (ops w ++ [ReleaseBG])).

Definition get_counter : M Z := fun w => Some (counter (self w), w).

Definition put_counter (v : Z) : M unit := fun w =>
  Some (tt, mkWorld (set_counter v (self w)) (blue_green_mutex w) (ops w)).

(** Lightswitch.lock (lines 117-130) *)
Definition lock : M unit :=
  self_mutex_acquire ;;
  c <- get_counter ;; put_counter (c + 1) ;;
  c <- get_counter ;;
  (if c =? 1 then blue_green_acquire else ret tt) ;;
  self_mutex_release.

(** Lightswitch.unlock (lines 134-147) *)
Definition unlock : M unit :=
  self_mutex_acquire ;;
  c <- get_counter ;; put_counter (c - 1) ;;
  c <- get_counter ;;
  (if c =? 0 then blue_green_release else ret tt) ;;
  self_mutex_release.

Definition call (m : M unit) (l : Lightswitch) (bg : Z) : option World :=
  match m (mkWorld l bg []) with
  | Some (_, w) => Some w
  | None => None
  end.

Definition touches_bg (w : World) : bool :=
  existsb (fun o => SemOp_eqb o AcquireBG || SemOp_eqb o ReleaseBG) (ops w).

End Method.

(** ** Shared variables and synchronisation objects (lines 58, 155-186) *)

(** What [safe_print] writes to standard output. *)
Inductive Message :=
| MsgOnly (c : Color)                 (* "----- {color} Only -----"          *)
| MsgEnter (id : option Z) (c : Color)(* "Thread ID: {id}\nColor: {color}"   *)
| MsgExit (id : option Z)             (* "Thread {id} exits the fitting room." *)
| MsgEmpty.                           (* ">> Empty Fitting Room"             *)

Record Shared := mkShared {
  print_lock : bool;          (* lock = threading.Lock(), used by safe_print *)
  turnstile : Z;              (* threading.Semaphore(1) *)
  blue_green_mutex : Z;       (* threading.Semaphore(1) *)
  blue_in_room : Lightswitch;
  green_in_room : Lightswitch;
  num_allowed_blue : Z;       (* threading.Semaphore(num_slots) *)
  num_allowed_green : Z;      (* threading.Semaphore(num_slots) *)
  thread_id : Z;
  room_ctr : Z;
  room_mutex : bool;          (* threading.Lock() *)
  stdout : list Message
}.

Definition init_shared (slots : Z) : Shared :=
  mkShared false 1 1 (Lightswitch_init Blue) (Lightswitch_init Green)
           slots slots 0 0 false [].

Definition set_print_lock (v : bool) (s : Shared) : Shared :=
  mkShared v (turnstile s) (blue_green_mutex s) (blue_in_room s)
           (green_in_room s) (num_allowed_blue s) (num_allowed_green s)
           (thread_id s) (room_ctr s) (room_mutex s) (stdout s).

Definition set_turnstile (v : Z) (s : Shared) : Shared :=
  mkShared (print_lock s) v (blue_green_mutex s) (blue_in_room s)
           (green_in_room s) (num_allowed_blue s) (num_allowed_green s)
           (thread_id s) (room_ctr s) (room_mutex s) (stdout s).

Definition set_blue_green_mutex (v : Z) (s : Shared) : Shared :=
  mkShared (print_lock s) (turnstile s) v (blue_in_room s)
           (green_in_room s) (num_allowed_blue s) (num_allowed_green s)
           (thread_id s) (room_ctr s) (room_mutex s) (stdout s).

Definition set_thread_id (v : Z) (s : Shared) : Shared :=
  mkShared (print_lock s) (turnstile s) (blue_green_mutex s) (blue_in_room s)
           (green_in_room s) (num_allowed_blue s) (num_allowed_green s)
           v (room_ctr s) (room_mutex s) (stdout s).

Definition set_room_ctr (v : Z) (s : Shared) : Shared :=
  mkShared (print_lock s) (turnstile s) (blue_green_mutex s) (blue_in_room s)
           (green_in_room s) (num_allowed_blue s) (num_allowed_green s)
           (thread_id s) v (room_mutex s) (stdout s).

Definition set_room_mutex (v : bool) (s : Shared) : Shared :=
  mkShared (print_lock s) (turnstile s) (blue_green_mutex s) (blue_in_room s)
           (green_in_room s) (num_allowed_blue s) (num_allowed_green s)
           (thread_id s) (room_ctr s) v (stdout s).

Definition set_stdout (v : list Message) (s : Shared) : Shared :=
  mkShared (print_lock s) (turnstile s) (blue_green_mutex s) (blue_in_room s)
           (green_in_room s) (num_allowed_blue s) (num_allowed_green s)
           (thread_id s) (room_ctr s) (room_mutex s) v.

(** The lightswitch and the multiplexer a thread of colour [c] uses:
    [blue_in_room] and [num_allowed_blue] in [blue_thread_func],
    [green_in_room] and [num_allowed_green] in [green_thread_func]. *)

Definition in_room_of (c : Color) (s : Shared) : Lightswitch :=
  match c with Blue => blue_in_room s | Green => green_in_room s end.

Definition set_in_room_of (c : Color) (l : Lightswitch) (s : Shared) : Shared :=
  match c with
  | Blue =>
      mkShared (print_lock s) (turnstile s) (blue_green_mutex s) l
               (green_in_room s) (num_allowed_blue s) (num_allowed_green s)
               (thread_id s) (room_ctr s) (room_mutex s) (stdout s)
  | Green =>
      mkShared (print_lock s) (turnstile s) (blue_green_mutex s)
               (blue_in_room s) l (num_allowed_blue s) (num_allowed_green s)
               (thread_id s) (room_ctr s) (room_mutex s) (stdout s)
  end.

Definition num_allowed_of (c : Color) (s : Shared) : Z :=
  match c with Blue => num_allowed_blue s | Green => num_allowed_green s end.

Definition set_num_allowed_of (c : Color) (v : Z) (s : Shared) : Shared :=
  match c with
  | Blue =>
      mkShared (print_lock s) (turnstile s) (blue_green_mutex s)
               (blue_in_room s) (green_in_room s) v (num_allowed_green s)
               (thread_id s) (room_ctr s) (room_mutex s) (stdout s)
  | Green =>
      mkShared (print_lock s) (turnstile s) (blue_green_mutex s)
               (blue_in_room s) (green_in_room s) (num_allowed_blue s) v
               (thread_id s) (room_ctr s) (room_mutex s) (stdout s)
  end.

(** ** Program points of a thread target function

    One point per statement of [blue_thread_func] / [green_thread_func],
    with the bodies of [Lightswitch.lock], [Lightswitch.unlock] and
    [safe_print] inlined at their call sites.  A point names the statement
    the thread executes next. *)

Inductive PrintSite :=
| SiteOnly      (* line 240 / 327 *)
| SiteEnter     (* line 245 / 332 *)
| SiteExit      (* line 268 / 355 *)
| SiteEmpty.    (* line 272 / 359 *)

Inductive PrintPhase :=
| AcquireLock   (* with lock:  (entry) *)
| DoPrint       (*     print(...)      *)
| ReleaseLock.  (* with lock:  (exit)  *)

Inductive PC :=
| TurnstileAcquire      (* 208: turnstile.acquire()                *)
| LockMutexAcquire      (* 119: self.mutex.acquire()               *)
| LockIncr              (* 122: self.counter += 1                  *)
| LockTest              (* 126: if self.counter == 1               *)
| LockBgAcquire         (* 127: blue_green_mutex.acquire()         *)
| LockMutexRelease      (* 130: self.mutex.release()               *)
| TurnstileRelease      (* 210: turnstile.release()                *)
| AllowedAcquire        (* 220: num_allowed_blue.acquire()         *)
| InitCurrentId         (* 223: current_thread_id = None           *)
| EnterRoomAcquire      (* 234: with room_mutex:  (entry)          *)
| EnterIdIncr           (* 235: thread_id += 1                     *)
| EnterCtrIncr          (* 236: room_ctr += 1                      *)
| EnterTest             (* 239: if room_ctr == 1                   *)
| EnterAssign           (* 242: current_thread_id = thread_id      *)
| EnterRoomRelease      (* 234: with room_mutex:  (exit)           *)
| FitClothes            (* 248: fit_clothes()                      *)
| ExitRoomAcquire       (* 262: with room_mutex:  (entry)          *)
| ExitAllowedRelease    (* 263: num_allowed_blue.release()         *)
| ExitCtrDecr           (* 264: room_ctr -= 1                      *)
| ExitTest              (* 271: if room_ctr == 0                   *)
| ExitRoomRelease       (* 262: with room_mutex:  (exit)           *)
| UnlockMutexAcquire    (* 136: self.mutex.acquire()               *)
| UnlockDecr            (* 139: self.counter -= 1                  *)
| UnlockTest            (* 143: if self.counter == 0               *)
| UnlockBgRelease       (* 144: blue_green_mutex.release()         *)
| UnlockMutexRelease    (* 147: self.mutex.release()               *)
| Print (site : PrintSite) (phase : PrintPhase)  (* safe_print(...) *)
| Done                  (* the function has returned               *)
| Crashed.              (* died of RuntimeError (release of an unlocked Lock) *)

(** The locks and permits that one thread both acquires and releases: the
    lock of [safe_print], the turnstile, the mutex of a lightswitch, a
    permit of a multiplexer and [room_mutex].

    [blue_green_mutex] is not among them, and [held] below says nothing
    about it.  It is acquired by the first thread of a colour to enter and
    released by the last one to leave, in general another thread, so a
    thread that has acquired it goes on, and returns, without releasing it.
    Which colour has it is given by the region [owns_bg]. *)
Inductive Res :=
| RPrintLock
| RTurnstile
| RMutex (c : Color)       (* the mutex of the lightswitch of colour c *)
| RAllowed (c : Color)     (* a permit of num_allowed_{c} *)
| RRoomMutex.

Definition Res_eqb (a b : Res) : bool :=
  match a, b with
  | RPrintLock, RPrintLock | RTurnstile, RTurnstile
  | RRoomMutex, RRoomMutex => true
  | RMutex c, RMutex d | RAllowed c, RAllowed d => color_eqb c d
  | _, _ => false
  end.

Record Thread := mkThread {
  tcolor : Color;                    (* which target function it runs *)
  pc : PC;
  current_thread_id : option Z;      (* the local variable; None is Python's None *)
  held : list Res                    (* ghost: the [Res] acquired and not yet released *)
}.

Definition goto (p : PC) (t : Thread) : Thread :=
  mkThread (tcolor t) p (current_thread_id t) (held t).

Definition set_current_thread_id (v : option Z) (t : Thread) : Thread :=
  mkThread (tcolor t) (pc t) v (held t).

Definition take_res (r : Res) (t : Thread) : Thread :=
  mkThread (tcolor t) (pc t) (current_thread_id t) (r :: held t).

Definition drop_res (r : Res) (t : Thread) : Thread :=
  mkThread (tcolor t) (pc t) (current_thread_id t)
           (List.filter (fun x => negb (Res_eqb x r)) (held t)).

(** ** One statement of a thread (lines 194-275 and 279-362)

    [thread_step s t] executes the statement at [pc t] of the target
    function of colour [tcolor t] in the shared state [s].  [None]: the
    thread cannot move, because it waits in an [acquire] or has ended. *)

Definition after_print (site : PrintSite) : PC :=
  match site with
  | SiteOnly => EnterAssign
  | SiteEnter => EnterRoomRelease
  | SiteExit => ExitTest
  | SiteEmpty => ExitRoomRelease
  end.

Definition message (site : PrintSite) (t : Thread) : Message :=
  match site with
  | SiteOnly => MsgOnly (tcolor t)
  | SiteEnter => MsgEnter (current_thread_id t) (tcolor t)
  | SiteExit => MsgExit (current_thread_id t)
  | SiteEmpty => MsgEmpty
  end.

Definition safe_print_step (site : PrintSite) (phase : PrintPhase)
    (s : Shared) (t : Thread) : option (Shared * Thread) :=
  match phase with
  | AcquireLock =>
      match lock_acquire (print_lock s) with
      | Some b => Some (set_print_lock b s,
                        take_res RPrintLock (goto (Print site DoPrint) t))
      | None => None
      end
  | DoPrint =>
      Some (set_stdout (stdout s ++ [message site t]) s,
            goto (Print site ReleaseLock) t)
  | ReleaseLock =>
      match lock_release (print_lock s) with
      | Some b => Some (set_print_lock b s,
                        drop_res RPrintLock (goto (after_print site) t))
      | None => Some (s, goto Crashed t)
      end
  end.

Definition thread_step (s : Shared) (t : Thread) : option (Shared * Thread) :=
  let c := tcolor t in
  let ls := in_room_of c s in
  match pc t with
  | TurnstileAcquire =>
      match sem_acquire (turnstile s) with
      | Some v => Some (set_turnstile v s,
                        take_res RTurnstile (goto LockMutexAcquire t))
      | None => None
      end
  | LockMutexAcquire =>
      match sem_acquire (mutex ls) with
      | Some v => Some (set_in_room_of c (set_mutex v ls) s,
                        take_res (RMutex c) (goto LockIncr t))
      | None => None
      end
  | LockIncr =>
      Some (set_in_room_of c (set_counter (counter ls + 1) ls) s,
            goto LockTest t)
  | LockTest =>
      Some (s, goto (if counter ls =? 1 then LockBgAcquire
                     else LockMutexRelease) t)
  | LockBgAcquire =>
      match sem_acquire (blue_green_mutex s) with
      | Some v => Some (set_blue_green_mutex v s, goto LockMutexRelease t)
      | None => None
      end
  | LockMutexRelease =>
      Some (set_in_room_of c (set_mutex (sem_release (mutex ls)) ls) s,
            drop_res (RMutex c) (goto TurnstileRelease t))
  | TurnstileRelease =>
      Some (set_turnstile (sem_release (turnstile s)) s,
            drop_res RTurnstile (goto AllowedAcquire t))
  | AllowedAcquire =>
      match sem_acquire (num_allowed_of c s) with
      | Some v => Some (set_num_allowed_of c v s,
                        take_res (RAllowed c) (goto InitCurrentId t))
      | None => None
      end
  | InitCurrentId =>
      Some (s, set_current_thread_id None (goto EnterRoomAcquire t))
  | EnterRoomAcquire =>
      match lock_acquire (room_mutex s) with
      | Some b => Some (set_room_mutex b s,
                        take_res RRoomMutex (goto EnterIdIncr t))
      | None => None
      end
  | EnterIdIncr =>
      Some (set_thread_id (thread_id s + 1) s, goto EnterCtrIncr t)
  | EnterCtrIncr =>
      Some (set_room_ctr (room_ctr s + 1) s, goto EnterTest t)
  | EnterTest =>
      Some (s, goto (if room_ctr s =? 1 then Print SiteOnly AcquireLock
                     else EnterAssign) t)
  | EnterAssign =>
      Some (s, set_current_thread_id (Some (thread_id s))
                 (goto (Print SiteEnter AcquireLock) t))
  | EnterRoomRelease =>
      match lock_release (room_mutex s) with
      | Some b => Some (set_room_mutex b s,
                        drop_res RRoomMutex (goto FitClothes t))
      | None => Some (s, goto Crashed t)
      end
  | FitClothes =>
      Some (s, goto ExitRoomAcquire t)
  | ExitRoomAcquire =>
      match lock_acquire (room_mutex s) with
      | Some b => Some (set_room_mutex b s,
                        take_res RRoomMutex (goto ExitAllowedRelease t))
      | None => None
      end
  | ExitAllowedRelease =>
      Some (set_num_allowed_of c (sem_release (num_allowed_of c s)) s,
            drop_res (RAllowed c) (goto ExitCtrDecr t))
  | ExitCtrDecr =>
      Some (set_room_ctr (room_ctr s - 1) s,
            goto (Print SiteExit AcquireLock) t)
  | ExitTest =>
      Some (s, goto (if room_ctr s =? 0 then Print SiteEmpty AcquireLock
                     else ExitRoomRelease) t)
  | ExitRoomRelease =>
      match lock_release (room_mutex s) with
      | Some b => Some (set_room_mutex b s,
                        drop_res RRoomMutex (goto UnlockMutexAcquire t))
      | None => Some (s, goto Crashed t)
      end
  | UnlockMutexAcquire =>
      match sem_acquire (mutex ls) with
      | Some v => Some (set_in_room_of c (set_mutex v ls) s,
                        take_res (RMutex c) (goto UnlockDecr t))
      | None => None
      end
  | UnlockDecr =>
      Some (set_in_room_of c (set_counter (counter ls - 1) ls) s,
            goto UnlockTest t)
  | UnlockTest =>
      Some (s, goto (if counter ls =? 0 then UnlockBgRelease
                     else UnlockMutexRelease) t)
  | UnlockBgRelease =>
      Some (set_blue_green_mutex (sem_release (blue_green_mutex s)) s,
            goto UnlockMutexRelease t)
  | UnlockMutexRelease =>
      Some (set_in_room_of c (set_mutex (sem_release (mutex ls)) ls) s,
            drop_res (RMutex c) (goto Done t))
  | Print site phase => safe_print_step site phase s t
  | Done => None
  | Crashed => None
  end.

Definition new_thread (c : Color) : Thread :=
  mkThread c TurnstileAcquire None [].

(** [blue_thread_func] and [green_thread_func] differ only in the colour
    constant, the lightswitch and the multiplexer they name: each is
    [thread_step] at its colour. *)
Definition blue_thread_func (s : Shared) (p : PC) (cur : option Z)
    (h : list Res) : option (Shared * Thread) :=
  thread_step s (mkThread Blue p cur h).

Definition green_thread_func (s : Shared) (p : PC) (cur : option Z)
    (h : list Res) : option (Shared * Thread) :=
  thread_step s (mkThread Green p cur h).

(** ** The whole program: shared state and the list of threads

    The main thread (lines 370-388) builds [num_blue] blue and [num_green]
    green threads and shuffles them; [colors] below is the shuffled list.
    A thread that has not been started yet is one that has not been
    scheduled yet. *)

Record State := mkState {
  shared : Shared;
  threads : list Thread
}.

Definition init (slots : Z) (colors : list Color) : State :=
  mkState (init_shared slots) (map new_thread colors).

Definition unshuffled (cfg : Config) : list Color :=
  replicate (Z.to_nat (num_blue cfg)) Blue
  ++ replicate (Z.to_nat (num_green cfg)) Green.

(** The program from its three inputs up to the point where the threads
    are started: an exception, or the initial state for a shuffle [sh]. *)
Definition main (slots blue green : Z) (sh : list Color -> list Color)
  : Exception + State :=
  match configure slots blue green with
  | inl e => inl e
  | inr cfg => inr (init (num_slots cfg) (sh (unshuffled cfg)))
  end.

(** Thread [i] executes one statement. *)
Definition step (i : nat) (s : State) : option State :=
  match threads s !! i with
  | Some t =>
      match thread_step (shared s) t with
      | Some (sh', t') => Some (mkState sh' (<[i := t']> (threads s)))
      | None => None
      end
  | None => None
  end.

(** A schedule is the list of the threads that move, in order. *)
Fixpoint run (sched : list nat) (s : State) : option State :=
  match sched with
  | [] => Some s
  | i :: rest =>
      match step i s with
      | Some s' => run rest s'
      | None => None
      end
  end.

Inductive reachable (slots : Z) (colors : list Color) : State -> Prop :=
| reach_init : reachable slots colors (init slots colors)
| reach_step s i s' :
    reachable slots colors s -> step i s = Some s' ->
    reachable slots colors s'.

(** ** Regions of the program text and how many threads are in each *)

Definition Region := Color -> PC -> bool.

Fixpoint cnt (f : Region) (l : list Thread) : Z :=
  match l with
  | [] => 0
  | t :: l' => Z.b2z (f (tcolor t) (pc t)) + cnt f l'
  end.

(** Between [turnstile.acquire()] and [turnstile.release()]. *)
Definition in_turnstile : Region := fun _ p =>
  match p with
  | LockMutexAcquire | LockIncr | LockTest | LockBgAcquire
  | LockMutexRelease | TurnstileRelease => true
  | _ => false
  end.

(** Between [self.mutex.acquire()] and [self.mutex.release()] of the
    lightswitch of colour [c]. *)
Definition in_mutex (c : Color) : Region := fun d p =>
  color_eqb c d &&
  match p with
  | LockIncr | LockTest | LockBgAcquire | LockMutexRelease
  | UnlockDecr | UnlockTest | UnlockBgRelease | UnlockMutexRelease => true
  | _ => false
  end.

(** After [self.counter += 1] and before [self.counter -= 1]. *)
Definition registered (c : Color) : Region := fun d p =>
  color_eqb c d &&
  match p with
  | LockTest | LockBgAcquire | LockMutexRelease | TurnstileRelease
  | AllowedAcquire | InitCurrentId | EnterRoomAcquire | EnterIdIncr
  | EnterCtrIncr | EnterTest | EnterAssign | EnterRoomRelease | FitClothes
  | ExitRoomAcquire | ExitAllowedRelease | ExitCtrDecr | ExitTest
  | ExitRoomRelease | UnlockMutexAcquire | UnlockDecr | Print _ _ => true
  | _ => false
  end.

(** The threads on whose behalf colour [c] has [blue_green_mutex]: past
    the test of [lock] (and its acquire, if taken), up to the release in
    [unlock]. *)
Definition owns_bg (c : Color) : Region := fun d p =>
  color_eqb c d &&
  match p with
  | LockMutexRelease | TurnstileRelease
  | AllowedAcquire | InitCurrentId | EnterRoomAcquire | EnterIdIncr
  | EnterCtrIncr | EnterTest | EnterAssign | EnterRoomRelease | FitClothes
  | ExitRoomAcquire | ExitAllowedRelease | ExitCtrDecr | ExitTest
  | ExitRoomRelease | UnlockMutexAcquire | UnlockDecr | Print _ _
  | UnlockTest | UnlockBgRelease => true
  | _ => false
  end.

(** Between [num_allowed_c.acquire()] and [num_allowed_c.release()]. *)
Definition has_permit (c : Color) : Region := fun d p =>
  color_eqb c d &&
  match p with
  | InitCurrentId | EnterRoomAcquire | EnterIdIncr | EnterCtrIncr
  | EnterTest | EnterAssign | EnterRoomRelease | FitClothes
  | ExitRoomAcquire | ExitAllowedRelease
  | Print SiteOnly _ | Print SiteEnter _ => true
  | _ => false
  end.

(** Inside one of the two [with room_mutex:] blocks. *)
Definition in_room_mutex : Region := fun _ p =>
  match p with
  | EnterIdIncr | EnterCtrIncr | EnterTest | EnterAssign | EnterRoomRelease
  | ExitAllowedRelease | ExitCtrDecr | ExitTest | ExitRoomRelease
  | Print _ _ => true
  | _ => false
  end.

(** Inside [with lock:] of [safe_print]. *)
Definition in_print_lock : Region := fun _ p =>
  match p with
  | Print _ DoPrint | Print _ ReleaseLock => true
  | _ => false
  end.

(** After [room_ctr += 1] and before [room_ctr -= 1]: in the room. *)
Definition occupying (p : PC) : bool :=
  match p with
  | EnterTest | EnterAssign | EnterRoomRelease | FitClothes
  | ExitRoomAcquire | ExitAllowedRelease | ExitCtrDecr
  | Print SiteOnly _ | Print SiteEnter _ => true
  | _ => false
  end.

Definition occupant : Region := fun _ p => occupying p.

(** After [thread_id += 1] and before [current_thread_id = thread_id]. *)
Definition id_pending : Region := fun _ p =>
  match p with
  | EnterCtrIncr | EnterTest | Print SiteOnly _ | EnterAssign => true
  | _ => false
  end.

Definition PC_eqb (p q : PC) : bool :=
  match p, q with
  | TurnstileAcquire, TurnstileAcquire | LockMutexAcquire, LockMutexAcquire
  | LockIncr, LockIncr | LockTest, LockTest | LockBgAcquire, LockBgAcquire
  | LockMutexRelease, LockMutexRelease | TurnstileRelease, TurnstileRelease
  | AllowedAcquire, AllowedAcquire | InitCurrentId, InitCurrentId
  | EnterRoomAcquire, EnterRoomAcquire | EnterIdIncr, EnterIdIncr
  | EnterCtrIncr, EnterCtrIncr | EnterTest, EnterTest
  | EnterAssign, EnterAssign | EnterRoomRelease, EnterRoomRelease
  | FitClothes, FitClothes | ExitRoomAcquire, ExitRoomAcquire
  | ExitAllowedRelease, ExitAllowedRelease | ExitCtrDecr, ExitCtrDecr
  | ExitTest, ExitTest | ExitRoomRelease, ExitRoomRelease
  | UnlockMutexAcquire, UnlockMutexAcquire | UnlockDecr, UnlockDecr
  | UnlockTest, UnlockTest | UnlockBgRelease, UnlockBgRelease
  | UnlockMutexRelease, UnlockMutexRelease | Done, Done
  | Crashed, Crashed => true
  | Print s1 h1, Print s2 h2 =>
      match s1, s2 with
      | SiteOnly, SiteOnly | SiteEnter, SiteEnter
      | SiteExit, SiteExit | SiteEmpty, SiteEmpty => true
      | _, _ => false
      end &&
      match h1, h2 with
      | AcquireLock, AcquireLock | DoPrint, DoPrint
      | ReleaseLock, ReleaseLock => true
      | _, _ => false
      end
  | _, _ => false
  end.

(** Threads of colour [c] about to execute exactly the statement [q]. *)
Definition at_pc (c : Color) (q : PC) : Region := fun d p =>
  color_eqb c d && PC_eqb q p.

Definition crashed : Region := fun _ p => PC_eqb Crashed p.

Definition not_done : Region := fun _ p => negb (PC_eqb Done p).

(** ** The invariant tying semaphore values to the positions of threads *)

Definition inv_color (slots : Z) (c : Color) (sh : Shared) (l : list Thread)
  : Prop :=
  mutex (in_room_of c sh) = 1 - cnt (in_mutex c) l
  /\ 0 <= mutex (in_room_of c sh)
  /\ counter (in_room_of c sh) = cnt (registered c) l
  /\ num_allowed_of c sh = slots - cnt (has_permit c) l
  /\ 0 <= num_allowed_of c sh
  /\ (cnt (at_pc c LockBgAcquire) l = 0 \/ counter (in_room_of c sh) = 1)
  /\ (cnt (at_pc c UnlockBgRelease) l = 0 \/ counter (in_room_of c sh) = 0).

Definition inv_common (slots : Z) (sh : Shared) (l : list Thread) : Prop :=
  Z.b2z (print_lock sh) = cnt in_print_lock l
  /\ turnstile sh = 1 - cnt in_turnstile l
  /\ 0 <= turnstile sh
  /\ Z.b2z (room_mutex sh) = cnt in_room_mutex l
  /\ room_ctr sh = cnt occupant l
  /\ room_ctr sh <= slots
  /\ cnt crashed l = 0
  /\ ((blue_green_mutex sh = 1
       /\ cnt (owns_bg Blue) l = 0 /\ cnt (owns_bg Green) l = 0)
      \/ (blue_green_mutex sh = 0
          /\ 0 < cnt (owns_bg Blue) l /\ cnt (owns_bg Green) l = 0)
      \/ (blue_green_mutex sh = 0
          /\ cnt (owns_bg Blue) l = 0 /\ 0 < cnt (owns_bg Green) l)).

Definition Inv (slots : Z) (s : State) : Prop :=
  inv_common slots (shared s) (threads s)
  /\ inv_color slots Blue (shared s) (threads s)
  /\ inv_color slots Green (shared s) (threads s).

(** Inclusions between regions, read off the program text. *)

Definition facts_color (c : Color) (r : list Thread) : Prop :=
  0 <= cnt (in_mutex c) r
  /\ 0 <= cnt (registered c) r
  /\ 0 <= cnt (owns_bg c) r
  /\ 0 <= cnt (has_permit c) r
  /\ 0 <= cnt (at_pc c LockBgAcquire) r
  /\ 0 <= cnt (at_pc c UnlockBgRelease) r
  /\ cnt (at_pc c LockBgAcquire) r <= cnt (in_mutex c) r
  /\ cnt (at_pc c UnlockBgRelease) r <= cnt (in_mutex c) r
  /\ cnt (registered c) r <= cnt (owns_bg c) r + cnt (in_mutex c) r
  /\ cnt (owns_bg c) r <= cnt (registered c) r + cnt (in_mutex c) r
  /\ cnt (has_permit c) r <= cnt (owns_bg c) r.

Definition facts_common (r : list Thread) : Prop :=
  0 <= cnt in_print_lock r
  /\ 0 <= cnt in_turnstile r
  /\ 0 <= cnt in_room_mutex r
  /\ 0 <= cnt occupant r
  /\ 0 <= cnt crashed r
  /\ cnt occupant r
     <= cnt (has_permit Blue) r + cnt (has_permit Green) r + cnt in_room_mutex r
  /\ cnt in_print_lock r <= cnt in_room_mutex r.

(** Sums of region counts, to compare several regions at once. *)
Definition ind_sum (fs : list Region) (c : Color) (p : PC) : Z :=
  foldr (fun f a => Z.b2z (f c p) + a) 0 fs.

Definition cnt_sum (fs : list Region) (l : list Thread) : Z :=
  foldr (fun f a => cnt f l + a) 0 fs.

(** Program points where a thread always moves: every statement that is
    not an [acquire]. *)
Definition running : Region := fun _ p =>
  match p with
  | TurnstileAcquire | LockMutexAcquire | LockBgAcquire | AllowedAcquire
  | EnterRoomAcquire | ExitRoomAcquire | UnlockMutexAcquire
  | Print _ AcquireLock | Done | Crashed => false
  | _ => true
  end.

Definition at_print_acquire : Region := fun _ p =>
  match p with Print _ AcquireLock => true | _ => false end.

Definition at_room_acquire : Region := fun _ p =>
  match p with EnterRoomAcquire | ExitRoomAcquire => true | _ => false end.

Definition at_turnstile_acquire : Region := fun _ p =>
  match p with TurnstileAcquire => true | _ => false end.

Definition can_move (s : State) : Prop := exists i s', step i s = Some s'.

(** ** Termination measure

    [rank p] bounds the number of statements left from program point [p];
    every statement executed lowers it. *)

Definition rank (p : PC) : nat :=
  match p with
  | TurnstileAcquire => 38
  | LockMutexAcquire => 37
  | LockIncr => 36
  | LockTest => 35
  | LockBgAcquire => 34
  | LockMutexRelease => 33
  | TurnstileRelease => 32
  | AllowedAcquire => 31
  | InitCurrentId => 30
  | EnterRoomAcquire => 29
  | EnterIdIncr => 28
  | EnterCtrIncr => 27
  | EnterTest => 26
  | Print SiteOnly AcquireLock => 25
  | Print SiteOnly DoPrint => 24
  | Print SiteOnly ReleaseLock => 23
  | EnterAssign => 22
  | Print SiteEnter AcquireLock => 21
  | Print SiteEnter DoPrint => 20
  | Print SiteEnter ReleaseLock => 19
  | EnterRoomRelease => 18
  | FitClothes => 17
  | ExitRoomAcquire => 16
  | ExitAllowedRelease => 15
  | ExitCtrDecr => 14
  | Print SiteExit AcquireLock => 13
  | Print SiteExit DoPrint => 12
  | Print SiteExit ReleaseLock => 11
  | ExitTest => 10
  | Print SiteEmpty AcquireLock => 9
  | Print SiteEmpty DoPrint => 8
  | Print SiteEmpty ReleaseLock => 7
  | ExitRoomRelease => 6
  | UnlockMutexAcquire => 5
  | UnlockDecr => 4
  | UnlockTest => 3
  | UnlockBgRelease => 2
  | UnlockMutexRelease => 1
  | Done => 0
  | Crashed => 0
  end.

Definition measure (s : State) : nat :=
  foldr (fun t a => (rank (pc t) + a)%nat) 0%nat (threads s).

Definition all_done (s : State) : Prop :=
  forall t, t ∈ threads s -> pc t = Done.

Definition stuck (s : State) : Prop := forall i, step i s = None.

(** ** What each thread holds, as a function of its program point *)

Definition held_at (c : Color) (p : PC) : list Res :=
  match p with
  | TurnstileAcquire => []
  | LockMutexAcquire => [RTurnstile]
  | LockIncr | LockTest | LockBgAcquire | LockMutexRelease =>
      [RMutex c; RTurnstile]
  | TurnstileRelease => [RTurnstile]
  | AllowedAcquire => []
  | InitCurrentId | EnterRoomAcquire => [RAllowed c]
  | EnterIdIncr | EnterCtrIncr | EnterTest | EnterAssign | EnterRoomRelease =>
      [RRoomMutex; RAllowed c]
  | Print SiteOnly AcquireLock | Print SiteEnter AcquireLock =>
      [RRoomMutex; RAllowed c]
  | Print SiteOnly _ | Print SiteEnter _ =>
      [RPrintLock; RRoomMutex; RAllowed c]
  | FitClothes | ExitRoomAcquire => [RAllowed c]
  | ExitAllowedRelease => [RRoomMutex; RAllowed c]
  | ExitCtrDecr | ExitTest | ExitRoomRelease => [RRoomMutex]
  | Print SiteExit AcquireLock | Print SiteEmpty AcquireLock => [RRoomMutex]
  | Print SiteExit _ | Print SiteEmpty _ => [RPrintLock; RRoomMutex]
  | UnlockMutexAcquire => []
  | UnlockDecr | UnlockTest | UnlockBgRelease | UnlockMutexRelease =>
      [RMutex c]
  | Done => []
  | Crashed => []
  end.

Definition held_ok (t : Thread) : Prop :=
  pc t = Crashed \/ held t = held_at (tcolor t) (pc t).

(** ** Sequence numbers

    Every number a thread has stored in [current_thread_id] is at most
    [thread_id], and strictly below it while some thread is between
    [thread_id += 1] and its own [current_thread_id = thread_id]. *)

Definition ids_bounded (s : State) : Prop :=
  forall t a, t ∈ threads s -> current_thread_id t = Some a ->
    a <= thread_id (shared s) - cnt id_pending (threads s).

Definition ids_distinct (s : State) : Prop :=
  forall i j ti tj a b,
    i <> j -> threads s !! i = Some ti -> threads s !! j = Some tj ->
    current_thread_id ti = Some a -> current_thread_id tj = Some b ->
    a <> b.

(** The state a schedule leads to (the initial state if some thread of
    the schedule cannot move when its turn comes). *)
Definition after (slots : Z) (colors : list Color) (sched : list nat) : State :=
  match run sched (init slots colors) with
  | Some s => s
  | None => init slots colors
  end.

(** A thread running alone for [n] statements. *)
Fixpoint solo (n : nat) (sh : Shared) (t : Thread) : option (Shared * Thread) :=
  match n with
  | O => Some (sh, t)
  | S n' =>
      match thread_step sh t with
      | Some (sh', t') => solo n' sh' t'
      | None => None
      end
  end.

(** ** Two statements of the specification that the program does not meet

    C8 as the specification words it: the release of the permit and the
    decrement of [room_ctr] are in separate critical sections, so that
    between them the worker is outside [room_mutex]. *)
Definition exit_in_separate_sections : Prop :=
  exists slots colors s i t,
    0 < slots /\ reachable slots colors s
    /\ threads s !! i = Some t /\ pc t = ExitCtrDecr
    /\ room_mutex (shared s) = false.

(** The three waits named by C9, and what counts as a guard: the mutex of
    a lightswitch, [room_mutex] and the lock of [safe_print]. *)
Definition blocking_wait (p : PC) : bool :=
  match p with
  | TurnstileAcquire | LockBgAcquire | AllowedAcquire => true
  | _ => false
  end.

Definition is_guard (r : Res) : bool :=
  match r with
  | RMutex _ | RRoomMutex | RPrintLock => true
  | RTurnstile | RAllowed _ => false
  end.

(** C9 as the specification words it: a thread at one of the three waits
    holds no guard. *)
Definition guards_released_before_waits (slots : Z) (colors : list Color)
  : Prop :=
  forall s i t r,
    reachable slots colors s -> threads s !! i = Some t ->
    blocking_wait (pc t) = true -> r ∈ held t -> is_guard r = false.

(** * Definitions for the further properties *)

(** After [thread_id += 1]. *)
Definition numbered : Region := fun _ p =>
  match p with
  | TurnstileAcquire | LockMutexAcquire | LockIncr | LockTest | LockBgAcquire
  | LockMutexRelease | TurnstileRelease | AllowedAcquire | InitCurrentId
  | EnterRoomAcquire | EnterIdIncr => false
  | _ => true
  end.

(** After [current_thread_id = thread_id]. *)
Definition assigned (p : PC) : bool :=
  match p with
  | Print SiteEnter _ | EnterRoomRelease | FitClothes | ExitRoomAcquire
  | ExitAllowedRelease | ExitCtrDecr | Print SiteExit _ | ExitTest
  | Print SiteEmpty _ | ExitRoomRelease | UnlockMutexAcquire | UnlockDecr
  | UnlockTest | UnlockBgRelease | UnlockMutexRelease | Done => true
  | _ => false
  end.

Definition id_state (t : Thread) : Prop :=
  pc t = Crashed
  \/ (if assigned (pc t)
      then exists a, current_thread_id t = Some a /\ 1 <= a
      else current_thread_id t = None).

Definition other (c : Color) : Color :=
  match c with Blue => Green | Green => Blue end.

(** [n] calls of a method in a row. *)
Fixpoint times (n : nat) (m : Method.M unit) : Method.M unit :=
  match n with
  | O => Method.ret tt
  | S k => Method.bind m (fun _ => times k m)
  end.

(** The semaphore operations of [k] calls that do not touch
    [blue_green_mutex]. *)
Definition quiet_ops (k : nat) : list Method.SemOp :=
  concat (replicate k [Method.AcquireMutex; Method.ReleaseMutex]).

(** ** What a reader of the output sees

    The room as the messages printed so far describe it. *)

Inductive Room :=
| Vacant                          (* nothing printed, or after ">> Empty Fitting Room" *)
| Announced (c : Color)           (* after "----- c Only -----" *)
| Occupied (c : Color) (n : Z)    (* n threads of colour c shown inside *)
| Leaving.                        (* the last thread shown inside has left *)

Record Reader := mkReader {
  room : Room;
  last_id : Z       (* the last "Thread ID" shown *)
}.

Definition Reader_init : Reader := mkReader Vacant 0.

(** The reader after one more message, [None] if the message does not fit
    what has been shown before. *)
Definition observe (slots : Z) (r : Reader) (m : Message) : option Reader :=
  match m, room r with
  | MsgOnly c, Vacant => Some (mkReader (Announced c) (last_id r))
  | MsgEnter (Some a) c, Announced d =>
      if color_eqb c d && (a =? last_id r + 1)
      then Some (mkReader (Occupied c 1) a) else None
  | MsgEnter (Some a) c, Occupied d n =>
      if color_eqb c d && (a =? last_id r + 1) && (n <? slots)
      then Some (mkReader (Occupied c (n + 1)) a) else None
  | MsgExit (Some a), Occupied d n =>
      if (1 <=? a) && (a <=? last_id r)
      then Some (mkReader (if n =? 1 then Leaving else Occupied d (n - 1))
                          (last_id r))
      else None
  | MsgEmpty, Leaving => Some (mkReader Vacant (last_id r))
  | _, _ => None
  end.

Fixpoint replay (slots : Z) (r : Reader) (log : list Message) : option Reader :=
  match log with
  | [] => Some r
  | m :: log' =>
      match observe slots r m with
      | Some r' => replay slots r' log'
      | None => None
      end
  end.

(** What the reader has seen when no thread is inside a
    [with room_mutex:] block. *)
Definition in_sync (c : Color) (rc tid : Z) (r : Reader) : Prop :=
  last_id r = tid
  /\ ((rc = 0 /\ room r = Vacant) \/ (0 < rc /\ room r = Occupied c rc)).

Definition idle_view (sh : Shared) (l : list Thread) (r : Reader) : Prop :=
  exists c, in_sync c (room_ctr sh) (thread_id sh) r
            /\ (0 < room_ctr sh -> 0 < cnt (owns_bg c) l).

(** What the reader has seen while thread [t] is inside a
    [with room_mutex:] block, by the statement [t] executes next. *)
Definition holder_view (sh : Shared) (t : Thread) (r : Reader) : Prop :=
  let c := tcolor t in
  let rc := room_ctr sh in
  let tid := thread_id sh in
  match pc t with
  | EnterIdIncr | ExitAllowedRelease | ExitCtrDecr | EnterRoomRelease
  | ExitRoomRelease | Print SiteEnter ReleaseLock
  | Print SiteEmpty ReleaseLock => in_sync c rc tid r
  | EnterCtrIncr => in_sync c rc (tid - 1) r
  | EnterTest =>
      last_id r = tid - 1
      /\ ((rc = 1 /\ room r = Vacant) \/ (1 < rc /\ room r = Occupied c (rc - 1)))
  | Print SiteOnly AcquireLock | Print SiteOnly DoPrint =>
      last_id r = tid - 1 /\ rc = 1 /\ room r = Vacant
  | Print SiteOnly ReleaseLock =>
      last_id r = tid - 1 /\ rc = 1 /\ room r = Announced c
  | EnterAssign =>
      last_id r = tid - 1
      /\ ((rc = 1 /\ room r = Announced c)
          \/ (1 < rc /\ room r = Occupied c (rc - 1)))
  | Print SiteEnter AcquireLock | Print SiteEnter DoPrint =>
      last_id r = tid - 1
      /\ current_thread_id t = Some tid
      /\ ((rc = 1 /\ room r = Announced c)
          \/ (1 < rc /\ room r = Occupied c (rc - 1)))
  | Print SiteExit AcquireLock | Print SiteExit DoPrint =>
      last_id r = tid /\ 0 <= rc /\ room r = Occupied c (rc + 1)
  | Print SiteExit ReleaseLock | ExitTest =>
      last_id r = tid
      /\ ((rc = 0 /\ room r = Leaving) \/ (0 < rc /\ room r = Occupied c rc))
  | Print SiteEmpty AcquireLock | Print SiteEmpty DoPrint =>
      last_id r = tid /\ rc = 0 /\ room r = Leaving
  | _ => True
  end.

(** The transcript invariant. *)
Definition reader_ok (slots : Z) (s : State) : Prop :=
  exists r,
    replay slots Reader_init (stdout (shared s)) = Some r
    /\ (room_mutex (shared s) = false -> idle_view (shared s) (threads s) r)
    /\ (forall i t, threads s !! i = Some t ->
          in_room_mutex (tcolor t) (pc t) = true -> holder_view (shared s) t r).

(** ** Facts about a transcript the reader accepts *)

Definition shown_inside (rm : Room) : Z :=
  match rm with Occupied _ n => n | _ => 0 end.

Definition shown_open (rm : Room) : Z :=
  match rm with Vacant => 0 | _ => 1 end.

Definition room_wf (slots : Z) (rm : Room) : Prop :=
  match rm with Occupied _ n => 1 <= n <= slots | _ => True end.

(** The "Thread ID" of each entry message, in the order printed. *)
Definition enter_id (m : Message) : option (option Z) :=
  match m with MsgEnter a _ => Some a | _ => None end.

Definition enter_ids (log : list Message) : list (option Z) :=
  omap enter_id log.

Definition is_enter (m : Message) : bool :=
  match m with MsgEnter _ _ => true | _ => false end.

Definition is_exit (m : Message) : bool :=
  match m with MsgExit _ => true | _ => false end.

Definition is_only (m : Message) : bool :=
  match m with MsgOnly _ => true | _ => false end.

Definition is_empty (m : Message) : bool :=
  match m with MsgEmpty => true | _ => false end.

Definition count_msgs (f : Message -> bool) (log : list Message) : Z :=
  Z.of_nat (length (List.filter f log)).

(** After the entry message of the thread has been printed. *)
Definition enter_printed (p : PC) : bool :=
  match p with
  | Print SiteEnter ReleaseLock | EnterRoomRelease | FitClothes
  | ExitRoomAcquire | ExitAllowedRelease | ExitCtrDecr | Print SiteExit _
  | ExitTest | Print SiteEmpty _ | ExitRoomRelease | UnlockMutexAcquire
  | UnlockDecr | UnlockTest | UnlockBgRelease | UnlockMutexRelease
  | Done => true
  | _ => false
  end.

(** After the exit message of the thread has been printed. *)
Definition exit_printed (p : PC) : bool :=
  match p with
  | Print SiteExit ReleaseLock | ExitTest | Print SiteEmpty _
  | ExitRoomRelease | UnlockMutexAcquire | UnlockDecr | UnlockTest
  | UnlockBgRelease | UnlockMutexRelease | Done => true
  | _ => false
  end.

Definition logged (out : list Message) (t : Thread) : Prop :=
  (enter_printed (pc t) = true ->
     MsgEnter (current_thread_id t) (tcolor t) ∈ out)
  /\ (exit_printed (pc t) = true -> MsgExit (current_thread_id t) ∈ out).

(** ** fit_clothes (lines 44-46 and 66-68) *)

Definition SLEEP_MIN : Z := 5.
Definition SLEEP_MAX : Z := 10.
Definition SLEEP_DIVISOR : Z := 100.

(** What the expression of line 68 can raise. *)
Inductive SleepError :=
| ZeroDivisionError      (* [/] with a divisor 0                        *)
| SleepValueError        (* [time.sleep] of a negative length or of NaN *)
| SleepOverflowError.    (* [time.sleep] of a length its clock cannot hold *)

(** An [int] as a [float].  The ints up to 2^53 in absolute value are
    floats exactly.  Beyond them a float only approximates an int and
    Python divides the ints themselves: the model does not follow the
    program there, and the answer is [None]. *)
Definition float_of_int (z : Z) : option PrimFloat.float :=
  if Z.abs z <=? 2 ^ 53 then
    Some match z with
         | Z0 => PrimFloat.zero
         | Zpos _ => PrimFloat.of_uint63 (Uint63.of_Z z)
         | Zneg p => PrimFloat.opp (PrimFloat.of_uint63 (Uint63.of_Z (Zpos p)))
         end
  else None.

(** [a / b] on two [int]s: the quotient or ZeroDivisionError; [None] where
    [float_of_int] gives no answer. *)
Definition true_div (a b : Z) : option (SleepError + PrimFloat.float) :=
  if b =? 0 then Some (inl ZeroDivisionError)
  else match float_of_int a, float_of_int b with
       | Some x, Some y => Some (inr (PrimFloat.div x y))
       | _, _ => None
       end.

(** The values [random.randrange(start, stop)] can return; it raises
    ValueError when there is none. *)
Definition randrange (start stop : Z) : list Z := seqZ start (stop - start).

(** [time.sleep] keeps its argument as a signed 64-bit count of
    nanoseconds (CPython 3.5 and later). *)
Definition NS_PER_SEC : PrimFloat.float :=
  PrimFloat.of_uint63 (Uint63.of_Z 1000000000).

Definition CLOCK_LIMIT : PrimFloat.float :=
  PrimFloat.mul PrimFloat.two (PrimFloat.of_uint63 (Uint63.of_Z (2 ^ 62))).

(** [time.sleep(secs)]: the time slept; ValueError for NaN, OverflowError
    for a length outside the clock, ValueError for a negative length. *)
Definition sleep (secs : PrimFloat.float) : SleepError + PrimFloat.float :=
  if PrimFloat.is_nan secs then inl SleepValueError
  else
    let ns := PrimFloat.mul secs NS_PER_SEC in
    if PrimFloat.leb (PrimFloat.opp CLOCK_LIMIT) ns
       && PrimFloat.ltb ns CLOCK_LIMIT
    then if PrimFloat.ltb secs PrimFloat.zero then inl SleepValueError
         else inr secs
    else inl SleepOverflowError.

(** [fit_clothes()] when [randrange] returns [r]: the time slept, or the
    exception raised. *)
Definition fit_clothes (r : Z) : option (SleepError + PrimFloat.float) :=
  match true_div r SLEEP_DIVISOR with
  | Some (inr secs) => Some (sleep secs)
  | Some (inl e) => Some (inl e)
  | None => None
  end.

(** ** The start of the program (lines 75-92) *)

Inductive Failure :=
| Uncaught (e : Exception)     (* raise Exception(...)                    *)
| ValueError (line : string)   (* int() of a line that is not an integer  *)
| EOFError.                    (* input() at the end of the input         *)

Inductive Output :=
| Printed (text : string)      (* safe_print(text): the text, then a line feed *)
| Prompted (text : string).    (* input(text) shows its prompt *)

Record Console := mkConsole {
  stdin : list string;         (* the lines not read yet *)
  shown : list Output          (* what has been written, oldest first *)
}.

(** The line feed, and the text of line 75. *)
Definition NL : string := String (Ascii.ascii_of_nat 10) EmptyString.

Definition HEADER : string :=
  String.append "### OS Process Synchronization ###" NL.
Definition ASK_SLOTS : string :=
  "Enter the number of slots inside the fitting room: ".
Definition ASK_BLUE : string := "Enter the number of blue threads: ".
Definition ASK_GREEN : string := "Enter the number of green threads: ".

Section Startup.

(** Python's [int()] on a line of input, [None] when it raises. *)
Variable int : string -> option Z.

(** [int(input(prompt))] *)
Definition read_int (prompt : string) (io : Console)
  : Console * (Failure + Z) :=
  let out := shown io ++ [Prompted prompt] in
  match stdin io with
  | [] => (mkConsole [] out, inl EOFError)
  | line :: rest =>
      (mkConsole rest out,
       match int line with
       | Some z => inr z
       | None => inl (ValueError line)
       end)
  end.

Definition startup (lines : list string) : Console * (Failure + Config) :=
  let io := mkConsole lines [Printed HEADER] in
  let '(io, r) := read_int ASK_SLOTS io in
  match r with
  | inl e => (io, inl e)
  | inr slots =>
      if slots <=? 0 then
        (io, inl (Uncaught (Raise "The number of slots should be positive.")))
      else
        let '(io, r) := read_int ASK_BLUE io in
        match r with
        | inl e => (io, inl e)
        | inr blue =>
            if blue <? 0 then
              (io, inl (Uncaught (Raise
                 "The number of blue threads should be nonnegative.")))
            else
              let '(io, r) := read_int ASK_GREEN io in
              match r with
              | inl e => (io, inl e)
              | inr green =>
                  if green <? 0 then
                    (io, inl (Uncaught (Raise
                       "The number of green threads should be nonnegative.")))
                  else if (blue =? 0) && (green =? 0) then
                    (io, inl (Uncaught (Raise "No threads to synchronize!")))
                  else
                    (mkConsole (stdin io) (shown io ++ [Printed EmptyString]),
                     inr (mkConfig slots blue green))
              end
        end
  end.

(** How many prompts the three numbers let the program show. *)
Definition prompts_for (slots blue : Z) : list Output :=
  Prompted ASK_SLOTS
  :: (if slots <=? 0 then []
      else Prompted ASK_BLUE
           :: (if blue <? 0 then [] else [Prompted ASK_GREEN])).

End Startup.

(** A small [int] for examples: the numerals 0 to 3, one character each. *)
Definition digit (s : string) : option Z :=
  if String.eqb s "0" then Some 0
  else if String.eqb s "1" then Some 1
  else if String.eqb s "2" then Some 2
  else if String.eqb s "3" then Some 3
  else None.

(** * Proofs

    ** Counting lemmas *)

Section Counting.

Variable f : Region.

Lemma cnt_nonneg (l : list Thread) : 0 <= cnt f l.
Proof.
  induction l as [|t l IH]; simpl; [lia|].
  destruct (f (tcolor t) (pc t)); simpl; lia.
Qed.

Lemma cnt_app (l1 l2 : list Thread) : cnt f (l1 ++ l2) = cnt f l1 + cnt f l2.
Proof. induction l1 as [|t l1 IH]; simpl; lia. Qed.

Lemma cnt_lookup (l : list Thread) (i : nat) (t : Thread) :
  l !! i = Some t ->
  cnt f l = Z.b2z (f (tcolor t) (pc t)) + cnt f (take i l ++ drop (S i) l).
Proof.
  intros H. rewrite <- (take_drop_middle l i t H) at 1.
  rewrite !cnt_app. simpl. lia.
Qed.

Lemma cnt_insert (l : list Thread) (i : nat) (t t' : Thread) :
  l !! i = Some t ->
  cnt f (<[i := t']> l)
  = Z.b2z (f (tcolor t') (pc t')) + cnt f (take i l ++ drop (S i) l).
Proof.
  intros H. rewrite insert_take_drop by (eapply lookup_lt_Some; eauto).
  rewrite !cnt_app. simpl. lia.
Qed.

Lemma cnt_zero_all (l : list Thread) :
  cnt f l = 0 -> forall t, t ∈ l -> f (tcolor t) (pc t) = false.
Proof.
  induction l as [|a l IH]; intros H t Ht.
  - inversion Ht.
  - simpl in H. pose proof (cnt_nonneg l).
    destruct (f (tcolor a) (pc a)) eqn:E; simpl in H; [lia|].
    inversion Ht; subst; auto.
Qed.

Lemma cnt_pos_ex (l : list Thread) :
  0 < cnt f l -> exists i t, l !! i = Some t /\ f (tcolor t) (pc t) = true.
Proof.
  induction l as [|a l IH]; simpl; intros H; [lia|].
  destruct (f (tcolor a) (pc a)) eqn:E.
  - exists 0%nat, a. auto.
  - simpl in H. destruct IH as (i & t & Hi & Ht); [lia|].
    exists (S i), t. auto.
Qed.

Lemma cnt_map_new (cs : list Color) :
  f Blue TurnstileAcquire = false -> f Green TurnstileAcquire = false ->
  cnt f (map new_thread cs) = 0.
Proof.
  intros Hb Hg. induction cs as [|c cs IH]; simpl; [reflexivity|].
  destruct c; simpl; rewrite ?Hb, ?Hg, IH; reflexivity.
Qed.

End Counting.

Lemma cnt_le1 (f g : Region) (l : list Thread) :
  (forall c p, Z.b2z (f c p) <= Z.b2z (g c p)) -> cnt f l <= cnt g l.
Proof.
  intros H. induction l as [|t l IH]; simpl; [lia|].
  specialize (H (tcolor t) (pc t)). lia.
Qed.

Lemma cnt_le2 (f g h : Region) (l : list Thread) :
  (forall c p, Z.b2z (f c p) <= Z.b2z (g c p) + Z.b2z (h c p)) ->
  cnt f l <= cnt g l + cnt h l.
Proof.
  intros H. induction l as [|t l IH]; simpl; [lia|].
  specialize (H (tcolor t) (pc t)). lia.
Qed.

Lemma cnt_le3 (f g h k : Region) (l : list Thread) :
  (forall c p, Z.b2z (f c p) <= Z.b2z (g c p) + Z.b2z (h c p) + Z.b2z (k c p)) ->
  cnt f l <= cnt g l + cnt h l + cnt k l.
Proof.
  intros H. induction l as [|t l IH]; simpl; [lia|].
  specialize (H (tcolor t) (pc t)). lia.
Qed.

Ltac pointwise :=
  let c := fresh "c" in let p := fresh "p" in
  intros c p; destruct c; destruct p as [| | | | | | | | | | | | | | | | | | | | | | | | | | [] [] | |];
  simpl; lia.

Lemma facts_color_holds (c : Color) (r : list Thread) : facts_color c r.
Proof.
  unfold facts_color. repeat split; try apply cnt_nonneg.
  - apply cnt_le1. destruct c; pointwise.
  - apply cnt_le1. destruct c; pointwise.
  - apply cnt_le2. destruct c; pointwise.
  - apply cnt_le2. destruct c; pointwise.
  - apply cnt_le1. destruct c; pointwise.
Qed.

Lemma facts_common_holds (r : list Thread) : facts_common r.
Proof.
  unfold facts_common. repeat split; try apply cnt_nonneg.
  - apply cnt_le3. pointwise.
  - apply cnt_le1. pointwise.
Qed.

Lemma b2z_range (b : bool) : 0 <= Z.b2z b <= 1.
Proof. destruct b; simpl; lia. Qed.

Ltac split_all :=
  repeat match goal with
         | |- _ /\ _ => split
         end.

Ltac destruct_ands :=
  repeat match goal with
         | H : _ /\ _ |- _ => destruct H
         end.

(** Case analysis on the statement a thread executes: one goal per
    program point, colour and outcome of the test or acquire there. *)
Ltac step_cases Hs c p :=
  destruct c;
  destruct p as [| | | | | | | | | | | | | | | | | | | | | | | | | | [] [] | |];
  unfold thread_step, safe_print_step, sem_acquire, sem_release,
         lock_acquire, lock_release in Hs;
  simpl in Hs;
  repeat match type of Hs with
         | context [if ?b then _ else _] => destruct b eqn:?
         end;
  try discriminate;
  injection Hs as <- <-.

(** ** The invariant is inductive *)

Lemma Inv_init (slots : Z) (colors : list Color) :
  0 <= slots -> Inv slots (init slots colors).
Proof.
  intros Hs. unfold Inv, inv_common, inv_color, init. simpl.
  rewrite !cnt_map_new by reflexivity. split_all; lia.
Qed.

Lemma Inv_step (slots : Z) (s : State) (i : nat) (s' : State) :
  Inv slots s -> step i s = Some s' -> Inv slots s'.
Proof.
  destruct s as [sh l]. unfold step. simpl.
  destruct (l !! i) as [t|] eqn:Hi; [|discriminate].
  destruct (thread_step sh t) as [[sh' t']|] eqn:Hs; [|discriminate].
  intros HI Heq. injection Heq as <-.
  unfold Inv, inv_common, inv_color in *. simpl in *.
  rewrite !(cnt_insert _ l i t t' Hi).
  rewrite !(cnt_lookup _ l i t Hi) in HI.
  pose proof (facts_common_holds (take i l ++ drop (S i) l)) as Fc.
  pose proof (facts_color_holds Blue (take i l ++ drop (S i) l)) as Fb.
  pose proof (facts_color_holds Green (take i l ++ drop (S i) l)) as Fg.
  unfold facts_common, facts_color in *.
  set (r := take i l ++ drop (S i) l) in *. clearbody r. clear Hi.
  pose proof (b2z_range (print_lock sh)) as Bp.
  pose proof (b2z_range (room_mutex sh)) as Br.
  destruct sh as [pl ts bg [bc bco bm] [gc gco gm] nb ng tid rc rm out].
  destruct t as [c p cur hd].
  destruct_ands.
  step_cases Hs c p; simpl in *; split_all; first [assumption | lia].
Qed.

Lemma Inv_reachable (slots : Z) (colors : list Color) (s : State) :
  0 <= slots -> reachable slots colors s -> Inv slots s.
Proof.
  intros Hs H. induction H as [|s i s' _ IH Hstep].
  - apply Inv_init, Hs.
  - eapply Inv_step; eauto.
Qed.

Lemma run_reachable (slots : Z) (colors : list Color)
    (sched : list nat) (s s' : State) :
  reachable slots colors s -> run sched s = Some s' ->
  reachable slots colors s'.
Proof.
  revert s. induction sched as [|i sched IH]; simpl; intros s Hr H.
  - injection H as <-. exact Hr.
  - destruct (step i s) as [s1|] eqn:E; [|discriminate].
    eapply IH; [|exact H]. eapply reach_step; eauto.
Qed.

(** ** Absence of deadlock *)

Lemma cnt_sum_cons (fs : list Region) (t : Thread) (l : list Thread) :
  cnt_sum fs (t :: l) = ind_sum fs (tcolor t) (pc t) + cnt_sum fs l.
Proof. induction fs as [|f fs IH]; simpl; [reflexivity|]. rewrite IH. lia. Qed.

Lemma cnt_sum_le (fs gs : list Region) (l : list Thread) :
  (forall c p, ind_sum fs c p <= ind_sum gs c p) ->
  cnt_sum fs l <= cnt_sum gs l.
Proof.
  intros H. induction l as [|t l IH].
  - assert (E : forall hs, cnt_sum hs [] = 0).
    { induction hs as [|h hs IHh]; simpl; [reflexivity|]. rewrite IHh. reflexivity. }
    rewrite !E. lia.
  - rewrite !cnt_sum_cons. specialize (H (tcolor t) (pc t)). lia.
Qed.

Lemma move_of (f : Region) (sh : Shared) (l : list Thread) :
  (forall t, f (tcolor t) (pc t) = true -> thread_step sh t <> None) ->
  0 < cnt f l -> can_move (mkState sh l).
Proof.
  intros Hf Hpos. destruct (cnt_pos_ex f l Hpos) as (i & t & Hi & Ht).
  specialize (Hf t Ht). exists i. unfold step. cbn [threads shared].
  rewrite Hi. destruct (thread_step sh t) as [[sh' t']|]; [eauto|congruence].
Qed.

Ltac pc_cases t :=
  let c := fresh "c" in let p := fresh "p" in
  destruct t as [c p ? ?]; destruct c;
  destruct p as [| | | | | | | | | | | | | | | | | | | | | | | | | | [] [] | |].

Ltac moves E :=
  let t := fresh "t" in let Ht := fresh "Ht" in
  intros t Ht; pc_cases t; simpl in Ht; try discriminate;
  unfold thread_step, safe_print_step, sem_acquire, lock_acquire, lock_release;
  simpl; rewrite ?E;
  repeat match goal with |- context [if ?b then _ else _] => destruct b end;
  discriminate.

Lemma progress (slots : Z) (s : State) :
  0 < slots -> Inv slots s -> 0 < cnt not_done (threads s) -> can_move s.
Proof.
  intros Hslots HI Hnd. destruct s as [sh l].
  unfold Inv, inv_common, inv_color in HI. simpl in *.
  destruct_ands.
  (* the classes of waiting threads *)
  assert (P0 : cnt_sum [not_done] l <=
               cnt_sum [running; at_print_acquire; at_room_acquire;
                        at_pc Blue AllowedAcquire; at_pc Green AllowedAcquire;
                        at_pc Blue UnlockMutexAcquire; at_pc Green UnlockMutexAcquire;
                        at_pc Blue LockBgAcquire; at_pc Green LockBgAcquire;
                        at_pc Blue LockMutexAcquire; at_pc Green LockMutexAcquire;
                        at_turnstile_acquire; crashed] l)
    by (apply cnt_sum_le; pointwise).
  assert (P1 : cnt_sum [in_print_lock] l <= cnt_sum [running] l)
    by (apply cnt_sum_le; pointwise).
  assert (P2 : cnt_sum [in_room_mutex] l <= cnt_sum [running; at_print_acquire] l)
    by (apply cnt_sum_le; pointwise).
  assert (P3 : cnt_sum [has_permit Blue] l <= cnt_sum [running; at_print_acquire; at_room_acquire] l)
    by (apply cnt_sum_le; pointwise).
  assert (P3' : cnt_sum [has_permit Green] l <= cnt_sum [running; at_print_acquire; at_room_acquire] l)
    by (apply cnt_sum_le; pointwise).
  assert (P4 : cnt_sum [in_mutex Blue] l <= cnt_sum [running; at_pc Blue LockBgAcquire] l)
    by (apply cnt_sum_le; pointwise).
  assert (P4' : cnt_sum [in_mutex Green] l <= cnt_sum [running; at_pc Green LockBgAcquire] l)
    by (apply cnt_sum_le; pointwise).
  assert (P5 : cnt_sum [at_pc Blue LockBgAcquire; at_pc Blue UnlockMutexAcquire] l <= cnt_sum [registered Blue] l)
    by (apply cnt_sum_le; pointwise).
  assert (P5' : cnt_sum [at_pc Green LockBgAcquire; at_pc Green UnlockMutexAcquire] l <= cnt_sum [registered Green] l)
    by (apply cnt_sum_le; pointwise).
  assert (P6 : cnt_sum [owns_bg Blue; owns_bg Green] l <=
               cnt_sum [running; at_print_acquire; at_room_acquire;
                        at_pc Blue AllowedAcquire; at_pc Green AllowedAcquire;
                        at_pc Blue UnlockMutexAcquire; at_pc Green UnlockMutexAcquire] l)
    by (apply cnt_sum_le; pointwise).
  assert (P7 : cnt_sum [in_turnstile] l <=
               cnt_sum [running; at_pc Blue LockBgAcquire; at_pc Green LockBgAcquire;
                        at_pc Blue LockMutexAcquire; at_pc Green LockMutexAcquire] l)
    by (apply cnt_sum_le; pointwise).
  unfold cnt_sum in *. simpl in *.
  pose proof (cnt_nonneg running l).
  pose proof (cnt_nonneg at_print_acquire l).
  pose proof (cnt_nonneg at_room_acquire l).
  pose proof (cnt_nonneg at_turnstile_acquire l).
  pose proof (cnt_nonneg (at_pc Blue AllowedAcquire) l).
  pose proof (cnt_nonneg (at_pc Green AllowedAcquire) l).
  pose proof (cnt_nonneg (at_pc Blue UnlockMutexAcquire) l).
  pose proof (cnt_nonneg (at_pc Green UnlockMutexAcquire) l).
  pose proof (cnt_nonneg (at_pc Blue LockBgAcquire) l).
  pose proof (cnt_nonneg (at_pc Green LockBgAcquire) l).
  pose proof (cnt_nonneg (at_pc Blue LockMutexAcquire) l).
  pose proof (cnt_nonneg (at_pc Green LockMutexAcquire) l).
  pose proof (cnt_nonneg (owns_bg Blue) l).
  pose proof (cnt_nonneg (owns_bg Green) l).
  pose proof (cnt_nonneg (in_mutex Blue) l).
  pose proof (cnt_nonneg (in_mutex Green) l).
  pose proof (cnt_nonneg (has_permit Blue) l).
  pose proof (cnt_nonneg (has_permit Green) l).
  pose proof (cnt_nonneg in_room_mutex l).
  pose proof (cnt_nonneg in_print_lock l).
  pose proof (cnt_nonneg in_turnstile l).
  destruct (Z_lt_dec 0 (cnt running l)) as [R|R].
  { apply (move_of running); [|exact R]. moves I. }
  destruct (Z_lt_dec 0 (cnt at_print_acquire l)) as [R1|R1].
  { apply (move_of at_print_acquire); [|exact R1].
    assert (print_lock sh = false) as E
        by (destruct (print_lock sh); simpl in *; [lia|reflexivity]).
    moves E. }
  destruct (Z_lt_dec 0 (cnt at_room_acquire l)) as [R2|R2].
  { apply (move_of at_room_acquire); [|exact R2].
    assert (room_mutex sh = false) as E
        by (destruct (room_mutex sh); simpl in *; [lia|reflexivity]).
    moves E. }
  destruct (Z_lt_dec 0 (cnt (at_pc Blue AllowedAcquire) l)) as [R3|R3].
  { apply (move_of (at_pc Blue AllowedAcquire)); [|exact R3].
    assert ((0 <? num_allowed_blue sh) = true) as E by (apply Z.ltb_lt; lia).
    moves E. }
  destruct (Z_lt_dec 0 (cnt (at_pc Green AllowedAcquire) l)) as [R4|R4].
  { apply (move_of (at_pc Green AllowedAcquire)); [|exact R4].
    assert ((0 <? num_allowed_green sh) = true) as E by (apply Z.ltb_lt; lia).
    moves E. }
  destruct (Z_lt_dec 0 (cnt (at_pc Blue UnlockMutexAcquire) l)) as [R5|R5].
  { apply (move_of (at_pc Blue UnlockMutexAcquire)); [|exact R5].
    assert ((0 <? mutex (blue_in_room sh)) = true) as E by (apply Z.ltb_lt; lia).
    moves E. }
  destruct (Z_lt_dec 0 (cnt (at_pc Green UnlockMutexAcquire) l)) as [R6|R6].
  { apply (move_of (at_pc Green UnlockMutexAcquire)); [|exact R6].
    assert ((0 <? mutex (green_in_room sh)) = true) as E by (apply Z.ltb_lt; lia).
    moves E. }
  destruct (Z_lt_dec 0 (cnt (at_pc Blue LockBgAcquire) l)) as [R7|R7].
  { apply (move_of (at_pc Blue LockBgAcquire)); [|exact R7].
    assert ((0 <? blue_green_mutex sh) = true) as E by (apply Z.ltb_lt; lia).
    moves E. }
  destruct (Z_lt_dec 0 (cnt (at_pc Green LockBgAcquire) l)) as [R8|R8].
  { apply (move_of (at_pc Green LockBgAcquire)); [|exact R8].
    assert ((0 <? blue_green_mutex sh) = true) as E by (apply Z.ltb_lt; lia).
    moves E. }
  destruct (Z_lt_dec 0 (cnt (at_pc Blue LockMutexAcquire) l)) as [R9|R9].
  { apply (move_of (at_pc Blue LockMutexAcquire)); [|exact R9].
    assert ((0 <? mutex (blue_in_room sh)) = true) as E by (apply Z.ltb_lt; lia).
    moves E. }
  destruct (Z_lt_dec 0 (cnt (at_pc Green LockMutexAcquire) l)) as [R10|R10].
  { apply (move_of (at_pc Green LockMutexAcquire)); [|exact R10].
    assert ((0 <? mutex (green_in_room sh)) = true) as E by (apply Z.ltb_lt; lia).
    moves E. }
  apply (move_of at_turnstile_acquire); [|lia].
  assert ((0 <? turnstile sh) = true) as E by (apply Z.ltb_lt; lia).
  moves E.
Qed.

(** ** Every run is finite *)

Lemma thread_step_rank (sh sh' : Shared) (t t' : Thread) :
  thread_step sh t = Some (sh', t') -> (rank (pc t') < rank (pc t))%nat.
Proof.
  intros Hs. destruct t as [c p cur hd].
  step_cases Hs c p; simpl; lia.
Qed.

Lemma foldr_rank_app (l1 l2 : list Thread) :
  foldr (fun t a => (rank (pc t) + a)%nat) 0%nat (l1 ++ l2)
  = (foldr (fun t a => (rank (pc t) + a)%nat) 0%nat l1
     + foldr (fun t a => (rank (pc t) + a)%nat) 0%nat l2)%nat.
Proof. induction l1 as [|t l1 IH]; simpl; lia. Qed.

Lemma step_measure (i : nat) (s s' : State) :
  step i s = Some s' -> (measure s' < measure s)%nat.
Proof.
  destruct s as [sh l]. unfold step, measure. cbn [threads shared].
  destruct (l !! i) as [t|] eqn:Hi; [|discriminate].
  destruct (thread_step sh t) as [[sh' t']|] eqn:Hs; [|discriminate].
  intros H. injection H as <-. cbn [threads].
  apply thread_step_rank in Hs.
  rewrite insert_take_drop by (eapply lookup_lt_Some; eauto).
  rewrite <- (take_drop_middle l i t Hi) at 3.
  rewrite !foldr_rank_app. simpl. lia.
Qed.

Lemma run_measure (sched : list nat) (s s' : State) :
  run sched s = Some s' -> (length sched + measure s' <= measure s)%nat.
Proof.
  revert s. induction sched as [|i sched IH]; simpl; intros s H.
  - injection H as <-. lia.
  - destruct (step i s) as [s1|] eqn:E; [|discriminate].
    apply step_measure in E. apply IH in H. lia.
Qed.

Lemma measure_init (slots : Z) (colors : list Color) :
  measure (init slots colors) = (38 * length colors)%nat.
Proof.
  unfold measure, init. cbn [threads].
  induction colors as [|c cs IH]; [reflexivity|].
  cbn [map foldr length]. rewrite IH. simpl rank. lia.
Qed.

Lemma not_done_zero (s : State) : cnt not_done (threads s) = 0 -> all_done s.
Proof.
  intros H t Ht. pose proof (cnt_zero_all _ _ H t Ht) as E.
  unfold not_done in E. destruct (pc t) as [| | | | | | | | | | | | | | | | | | | | | | | | | | [] [] | |];
    simpl in E; try discriminate. reflexivity.
Qed.

(** ** What each thread holds *)

Lemma thread_step_held (sh sh' : Shared) (t t' : Thread) :
  thread_step sh t = Some (sh', t') -> held_ok t -> held_ok t'.
Proof.
  intros Hs [Hc|Hh].
  - destruct t as [c p cur hd]. simpl in Hc. subst p. discriminate.
  - destruct t as [c p cur hd]. simpl in Hh. subst hd.
    step_cases Hs c p; unfold held_ok; simpl; auto.
Qed.

Lemma held_reachable (slots : Z) (colors : list Color) (s : State) :
  reachable slots colors s -> forall t, t ∈ threads s -> held_ok t.
Proof.
  intros H. induction H as [|s i s' _ IH Hstep].
  - intros t Ht. unfold init in Ht. cbn [threads] in Ht.
    apply list_elem_of_fmap in Ht as (c & -> & _). right. reflexivity.
  - intros t Ht. unfold step in Hstep.
    destruct (threads s !! i) as [t0|] eqn:Hi; [|discriminate].
    destruct (thread_step (shared s) t0) as [[sh' t']|] eqn:Hs; [|discriminate].
    injection Hstep as <-. cbn [threads] in Ht.
    apply list_elem_of_lookup in Ht as [j Hj].
    destruct (decide (i = j)) as [->|Hne].
    + rewrite list_lookup_insert_eq in Hj by (eapply lookup_lt_Some; eauto).
      injection Hj as <-. eapply thread_step_held; eauto.
      apply IH. eapply list_elem_of_lookup_2; eauto.
    + rewrite list_lookup_insert_ne in Hj by exact Hne.
      apply IH. eapply list_elem_of_lookup_2; eauto.
Qed.

(** ** Sequence numbers *)

Lemma thread_step_ids (sh sh' : Shared) (t t' : Thread) :
  thread_step sh t = Some (sh', t') ->
  thread_id sh - Z.b2z (id_pending (tcolor t) (pc t))
    <= thread_id sh' - Z.b2z (id_pending (tcolor t') (pc t'))
  /\ (current_thread_id t' = current_thread_id t
      \/ current_thread_id t' = None
      \/ (pc t = EnterAssign
          /\ current_thread_id t' = Some (thread_id sh)
          /\ thread_id sh' = thread_id sh
          /\ id_pending (tcolor t') (pc t') = false)).
Proof.
  intros Hs. destruct t as [c p cur hd].
  step_cases Hs c p; simpl; split; try lia; auto;
    right; right; auto.
Qed.

(** While a thread is inside a [with room_mutex:] block, no other thread
    is. *)
Lemma room_mutex_exclusive (slots : Z) (s : State) (i : nat) (t : Thread) :
  Inv slots s -> threads s !! i = Some t ->
  in_room_mutex (tcolor t) (pc t) = true ->
  room_mutex (shared s) = true
  /\ cnt in_room_mutex (take i (threads s) ++ drop (S i) (threads s)) = 0.
Proof.
  intros (HC & _) Hi Ht. unfold inv_common in HC.
  destruct HC as (_ & _ & _ & Hrm & _).
  rewrite (cnt_lookup _ _ i t Hi), Ht in Hrm.
  pose proof (cnt_nonneg in_room_mutex (take i (threads s) ++ drop (S i) (threads s))).
  destruct (room_mutex (shared s)); simpl in *; split; auto; lia.
Qed.

Lemma id_pending_in_room_mutex (r : list Thread) :
  cnt id_pending r <= cnt in_room_mutex r.
Proof. apply cnt_le1. pointwise. Qed.

Section IdsStep.

Variables (slots : Z) (s s' : State) (i : nat).
Hypothesis HI : Inv slots s.
Hypothesis Hb : ids_bounded s.
Hypothesis Hstep : step i s = Some s'.

Lemma step_inversion :
  exists t sh' t',
    threads s !! i = Some t
    /\ thread_step (shared s) t = Some (sh', t')
    /\ s' = mkState sh' (<[i := t']> (threads s)).
Proof.
  unfold step in Hstep.
  destruct (threads s !! i) as [t|] eqn:Hi; [|discriminate].
  destruct (thread_step (shared s) t) as [[sh' t']|] eqn:Hs; [|discriminate].
  injection Hstep as <-. eauto 6.
Qed.

(** The bound on stored numbers never decreases. *)
Lemma bound_monotone :
  thread_id (shared s) - cnt id_pending (threads s)
  <= thread_id (shared s') - cnt id_pending (threads s').
Proof.
  destruct step_inversion as (t & sh' & t' & Hi & Hs & ->).
  cbn [threads shared].
  rewrite (cnt_insert _ _ i t t' Hi), (cnt_lookup _ _ i t Hi).
  destruct (thread_step_ids _ _ _ _ Hs) as [Hle _]. lia.
Qed.

(** The number handed out by [current_thread_id = thread_id] exceeds
    every number stored so far. *)
Lemma assign_fresh (t : Thread) :
  threads s !! i = Some t -> pc t = EnterAssign ->
  forall j tj b, j <> i -> threads s !! j = Some tj ->
    current_thread_id tj = Some b -> b < thread_id (shared s).
Proof.
  intros Hi Hpc j tj b Hne Hj Hcur.
  assert (Hin : tj ∈ threads s) by (eapply list_elem_of_lookup_2; eauto).
  specialize (Hb tj b Hin Hcur).
  rewrite (cnt_lookup _ _ i t Hi) in Hb. rewrite Hpc in Hb. simpl in Hb.
  pose proof (cnt_nonneg id_pending (take i (threads s) ++ drop (S i) (threads s))).
  lia.
Qed.

Lemma ids_bounded_step : ids_bounded s'.
Proof.
  pose proof bound_monotone as Hmono.
  destruct step_inversion as (t & sh' & t' & Hi & Hs & ->).
  intros x a Hx Hcur. cbn [threads shared] in *.
  apply list_elem_of_lookup in Hx as [j Hj].
  destruct (decide (i = j)) as [<-|Hne].
  - rewrite list_lookup_insert_eq in Hj by (eapply lookup_lt_Some; eauto).
    injection Hj as <-.
    destruct (thread_step_ids _ _ _ _ Hs) as [_ [E|[E|(Hpc & E & Hid & Hp)]]].
    + rewrite E in Hcur.
      assert (Hin : t ∈ threads s) by (eapply list_elem_of_lookup_2; eauto).
      specialize (Hb t a Hin Hcur). lia.
    + congruence.
    + rewrite E in Hcur. injection Hcur as <-.
      rewrite (cnt_insert _ _ i t t' Hi), Hp, Hid. simpl.
      assert (Hrm : in_room_mutex (tcolor t) (pc t) = true)
        by (rewrite Hpc; reflexivity).
      destruct (room_mutex_exclusive _ _ _ _ HI Hi Hrm) as [_ Hz].
      pose proof (id_pending_in_room_mutex
                    (take i (threads s) ++ drop (S i) (threads s))).
      pose proof (cnt_nonneg id_pending
                    (take i (threads s) ++ drop (S i) (threads s))).
      lia.
  - rewrite list_lookup_insert_ne in Hj by exact Hne.
    assert (Hin : x ∈ threads s) by (eapply list_elem_of_lookup_2; eauto).
    specialize (Hb x a Hin Hcur). lia.
Qed.

Hypothesis Hd : ids_distinct s.

Lemma ids_distinct_step : ids_distinct s'.
Proof.
  destruct step_inversion as (t & sh' & t' & Hi & Hs & ->).
  assert (Hlt : (i < length (threads s))%nat) by (eapply lookup_lt_Some; eauto).
  assert (Hnew : forall k tk a b, k <> i -> threads s !! k = Some tk ->
             current_thread_id t' = Some a -> current_thread_id tk = Some b ->
             a <> b).
  { intros k tk a b Hne Hk Ha Hbk.
    destruct (thread_step_ids _ _ _ _ Hs) as [_ [E|[E|(Hpc & E & _)]]].
    - rewrite E in Ha.
      exact (Hd i k t tk a b (not_eq_sym Hne) Hi Hk Ha Hbk).
    - congruence.
    - rewrite E in Ha. injection Ha as <-.
      pose proof (assign_fresh t Hi Hpc k tk b Hne Hk Hbk). lia. }
  intros j k tj tk a b Hjk Hj Hk Ha Hbk. cbn [threads] in *.
  destruct (decide (i = j)) as [<-|Hij]; destruct (decide (i = k)) as [<-|Hik].
  - congruence.
  - rewrite list_lookup_insert_eq in Hj by exact Hlt. injection Hj as <-.
    rewrite list_lookup_insert_ne in Hk by exact Hik.
    exact (Hnew k tk a b (not_eq_sym Hik) Hk Ha Hbk).
  - rewrite list_lookup_insert_eq in Hk by exact Hlt. injection Hk as <-.
    rewrite list_lookup_insert_ne in Hj by exact Hij.
    apply not_eq_sym.
    exact (Hnew j tj b a (not_eq_sym Hij) Hj Hbk Ha).
  - rewrite list_lookup_insert_ne in Hj by exact Hij.
    rewrite list_lookup_insert_ne in Hk by exact Hik.
    exact (Hd j k tj tk a b Hjk Hj Hk Ha Hbk).
Qed.

End IdsStep.

Lemma ids_reachable (slots : Z) (colors : list Color) (s : State) :
  0 <= slots -> reachable slots colors s -> ids_bounded s /\ ids_distinct s.
Proof.
  intros Hs H. induction H as [|s i s' Hr [IHb IHd] Hstep].
  - split.
    + intros t a Ht Hcur. unfold init in Ht. cbn [threads] in Ht.
      apply list_elem_of_fmap in Ht as (c & -> & _). discriminate.
    + intros i j ti tj a b _ Hi _ Ha. unfold init in Hi. cbn [threads] in Hi.
      rewrite list_lookup_fmap in Hi.
      destruct (colors !! i); simpl in Hi; [|discriminate].
      injection Hi as <-. discriminate.
  - pose proof (Inv_reachable _ _ _ Hs Hr) as HI. split.
    + eapply ids_bounded_step; eauto.
    + eapply ids_distinct_step; eauto.
Qed.

(** ** Consequences for reachable states *)

Lemma cnt_member_pos (f : Region) (l : list Thread) (i : nat) (t : Thread) :
  l !! i = Some t -> f (tcolor t) (pc t) = true -> 0 < cnt f l.
Proof.
  intros Hi Ht. rewrite (cnt_lookup f l i t Hi), Ht.
  pose proof (cnt_nonneg f (take i l ++ drop (S i) l)). simpl. lia.
Qed.

Lemma reachable_measure (slots : Z) (colors : list Color) (s : State) :
  reachable slots colors s -> (measure s <= 38 * length colors)%nat.
Proof.
  intros H. induction H as [|s i s' _ IH Hstep].
  - rewrite measure_init. lia.
  - apply step_measure in Hstep. lia.
Qed.

Lemma stuck_not_can_move (s : State) : stuck s -> can_move s -> False.
Proof. intros Hs (i & s' & H). rewrite Hs in H. discriminate. Qed.

Lemma done_or_moves (slots : Z) (colors : list Color) (s : State) :
  0 < slots -> reachable slots colors s -> all_done s \/ can_move s.
Proof.
  intros Hs Hr. pose proof (Inv_reachable _ _ _ (Z.lt_le_incl _ _ Hs) Hr) as HI.
  pose proof (cnt_nonneg not_done (threads s)) as Hn.
  destruct (Z.eq_dec (cnt not_done (threads s)) 0) as [E|E].
  - left. apply not_done_zero, E.
  - right. apply (progress slots); [exact Hs|exact HI|lia].
Qed.

Lemma after_reachable (slots : Z) (colors : list Color) (sched : list nat) :
  reachable slots colors (after slots colors sched).
Proof.
  unfold after. destruct (run sched (init slots colors)) as [s|] eqn:E.
  - eapply run_reachable; [apply reach_init|exact E].
  - apply reach_init.
Qed.

(** ** The Lightswitch methods and the statements of a thread

    A thread running alone through the statements of [lock] (or [unlock])
    does to the shared state what the method does. *)

Ltac case_ifs H :=
  repeat (cbn in H;
          match type of H with
          | context [if ?b then _ else _] => destruct b eqn:?
          end);
  cbn in H; try discriminate.

Ltac walk :=
  repeat (cbn; unfold sem_acquire, sem_release;
          match goal with
          | E : ?b = _ |- context [if ?b then _ else _] => rewrite E
          end);
  cbn; eauto 6.

Lemma lock_refines (sh : Shared) (t : Thread) (w : Method.World) :
  pc t = LockMutexAcquire ->
  Method.call Method.lock (in_room_of (tcolor t) sh) (blue_green_mutex sh)
    = Some w ->
  exists n sh' t',
    solo n sh t = Some (sh', t')
    /\ pc t' = TurnstileRelease
    /\ in_room_of (tcolor t) sh' = Method.self w
    /\ blue_green_mutex sh' = Method.blue_green_mutex w.
Proof.
  destruct t as [c p cur hd]. cbn [pc tcolor]. intros -> H.
  destruct sh as [pl ts bg [bc bco bm] [gc gco gm] nb ng tid rc rm out].
  unfold Method.call, Method.lock, Method.bind, Method.self_mutex_acquire,
    Method.get_counter, Method.put_counter, Method.blue_green_acquire,
    Method.self_mutex_release, Method.ret, sem_acquire, sem_release in H.
  destruct c; case_ifs H; injection H as <-;
    first [solve [exists 5%nat; walk] | solve [exists 4%nat; walk]].
Qed.

Lemma unlock_refines (sh : Shared) (t : Thread) (w : Method.World) :
  pc t = UnlockMutexAcquire ->
  Method.call Method.unlock (in_room_of (tcolor t) sh) (blue_green_mutex sh)
    = Some w ->
  exists n sh' t',
    solo n sh t = Some (sh', t')
    /\ pc t' = Done
    /\ in_room_of (tcolor t) sh' = Method.self w
    /\ blue_green_mutex sh' = Method.blue_green_mutex w.
Proof.
  destruct t as [c p cur hd]. cbn [pc tcolor]. intros -> H.
  destruct sh as [pl ts bg [bc bco bm] [gc gco gm] nb ng tid rc rm out].
  unfold Method.call, Method.unlock, Method.bind, Method.self_mutex_acquire,
    Method.get_counter, Method.put_counter, Method.blue_green_release,
    Method.self_mutex_release, Method.ret, sem_acquire, sem_release in H.
  destruct c; case_ifs H; injection H as <-;
    first [solve [exists 5%nat; walk] | solve [exists 4%nat; walk]].
Qed.

(** At most one thread is inside the methods of one lightswitch. *)
Lemma mutex_exclusive (slots : Z) (colors : list Color) (s : State) (c : Color) :
  0 < slots -> reachable slots colors s ->
  cnt (in_mutex c) (threads s) <= 1.
Proof.
  intros Hs Hr. pose proof (Inv_reachable _ _ _ (Z.lt_le_incl _ _ Hs) Hr) as HI.
  destruct HI as (_ & HB & HG). unfold inv_color in *.
  destruct c; destruct_ands; lia.
Qed.

Ltac run_method :=
  unfold Method.call, Method.lock, Method.unlock, Method.bind,
    Method.self_mutex_acquire, Method.get_counter, Method.put_counter,
    Method.blue_green_acquire, Method.blue_green_release,
    Method.self_mutex_release, Method.ret, sem_acquire, sem_release,
    set_counter, set_mutex;
  cbn -[Z.ltb Z.eqb Z.add Z.sub].

Ltac to_arith :=
  rewrite ?Z.ltb_lt, ?Z.ltb_ge, ?Z.eqb_eq, ?Z.eqb_neq in *.

(** Run a method on a symbolic lightswitch, splitting on every test. *)
Ltac method_cases :=
  run_method;
  repeat (match goal with
          | |- context [if ?b then _ else _] => destruct b eqn:?
          end; cbn -[Z.ltb Z.eqb Z.add Z.sub]);
  to_arith.

Ltac same_world := repeat f_equal; lia.

(** ** Lemmas for the further properties *)

Lemma cnt_at_most_one (f : Region) (l : list Thread) (i j : nat)
    (ti tj : Thread) :
  cnt f l <= 1 -> l !! i = Some ti -> f (tcolor ti) (pc ti) = true ->
  j <> i -> l !! j = Some tj -> f (tcolor tj) (pc tj) = false.
Proof.
  intros Hle Hi Hfi Hne Hj.
  destruct (f (tcolor tj) (pc tj)) eqn:E; [|reflexivity]. exfalso.
  assert (Hlen : length (take i l) = i)
    by (rewrite length_take; apply lookup_lt_Some in Hi; lia).
  assert (Hj' : (take i l ++ drop (S i) l)
                  !! (if decide (j < i)%nat then j else pred j) = Some tj).
  { destruct (decide (j < i)%nat) as [Hlt|Hge].
    - rewrite lookup_app_l by lia. rewrite lookup_take_lt by exact Hlt. exact Hj.
    - rewrite lookup_app_r by lia. rewrite Hlen, lookup_drop.
      replace (S i + (pred j - i))%nat with j by lia. exact Hj. }
  pose proof (cnt_member_pos _ _ _ _ Hj' E) as Hpos.
  rewrite (cnt_lookup f l i ti Hi), Hfi in Hle. simpl in Hle. lia.
Qed.

Lemma cnt_all (f : Region) (l : list Thread) (p : PC) (b : bool) :
  (forall c, f c p = b) -> (forall t, t ∈ l -> pc t = p) ->
  cnt f l = if b then Z.of_nat (length l) else 0.
Proof.
  intros Hf. induction l as [|t l IH]; intros Hall.
  - destruct b; reflexivity.
  - cbn [cnt length]. rewrite (Hall t) by apply list_elem_of_here.
    rewrite Hf, IH by (intros x Hx; apply Hall, list_elem_of_further, Hx).
    destruct b; simpl Z.b2z; lia.
Qed.

Lemma cnt_le_length (f : Region) (l : list Thread) :
  cnt f l <= Z.of_nat (length l).
Proof.
  induction l as [|t l IH]; simpl; [lia|].
  pose proof (b2z_range (f (tcolor t) (pc t))). lia.
Qed.

Lemma step_length (i : nat) (s s' : State) :
  step i s = Some s' -> length (threads s') = length (threads s).
Proof.
  intros H. destruct (step_inversion s s' i H) as (t & sh' & t' & _ & _ & ->).
  cbn [threads]. apply length_insert.
Qed.

Lemma reachable_length (slots : Z) (colors : list Color) (s : State) :
  reachable slots colors s -> length (threads s) = length colors.
Proof.
  intros H. induction H as [|s i s' _ IH Hstep].
  - unfold init. cbn [threads]. apply length_map.
  - rewrite (step_length _ _ _ Hstep). exact IH.
Qed.

Lemma thread_step_numbered (sh sh' : Shared) (t t' : Thread) :
  thread_step sh t = Some (sh', t') ->
  thread_id sh' - Z.b2z (numbered (tcolor t') (pc t'))
  = thread_id sh - Z.b2z (numbered (tcolor t) (pc t)).
Proof.
  intros Hs. destruct t as [c p cur hd].
  destruct sh as [pl ts bg [bc bco bm] [gc gco gm] nb ng tid rc rm out].
  step_cases Hs c p; simpl; lia.
Qed.

Lemma numbered_reachable (slots : Z) (colors : list Color) (s : State) :
  reachable slots colors s -> thread_id (shared s) = cnt numbered (threads s).
Proof.
  intros H. induction H as [|s i s' _ IH Hstep].
  - unfold init. cbn [threads shared]. rewrite cnt_map_new by reflexivity.
    reflexivity.
  - destruct (step_inversion s s' i Hstep) as (t & sh' & t' & Hi & Hs & ->).
    cbn [threads shared].
    rewrite (cnt_insert _ _ i t t' Hi). rewrite (cnt_lookup _ _ i t Hi) in IH.
    pose proof (thread_step_numbered _ _ _ _ Hs). lia.
Qed.

Lemma thread_step_id_state (sh sh' : Shared) (t t' : Thread) :
  thread_step sh t = Some (sh', t') -> 1 <= thread_id sh \/ pc t <> EnterAssign ->
  id_state t -> id_state t'.
Proof.
  intros Hs Hid [Hc|Hst].
  - destruct t as [c p cur hd]. simpl in Hc. subst p. discriminate.
  - destruct t as [c p cur hd]. unfold id_state in *. cbn [pc current_thread_id] in *.
    step_cases Hs c p; cbn [pc current_thread_id assigned] in *;
      first [ left; reflexivity
            | right; exact Hst
            | right; reflexivity
            | right; eexists; split; [reflexivity|];
              destruct Hid as [Hid|Hid]; [exact Hid|congruence] ].
Qed.

Lemma id_state_reachable (slots : Z) (colors : list Color) (s : State) :
  reachable slots colors s -> forall t, t ∈ threads s -> id_state t.
Proof.
  intros H. induction H as [|s i s' Hr IH Hstep].
  - intros t Ht. unfold init in Ht. cbn [threads] in Ht.
    apply list_elem_of_fmap in Ht as (c & -> & _). right. reflexivity.
  - intros x Hx.
    destruct (step_inversion s s' i Hstep) as (t & sh' & t' & Hi & Hs & ->).
    cbn [threads] in Hx. apply list_elem_of_lookup in Hx as [j Hj].
    destruct (decide (i = j)) as [<-|Hne].
    + rewrite list_lookup_insert_eq in Hj by (eapply lookup_lt_Some; eauto).
      injection Hj as <-.
      eapply thread_step_id_state; [exact Hs| |].
      * destruct (pc t) eqn:E; try (right; discriminate). left.
        rewrite (numbered_reachable _ _ _ Hr).
        assert (0 < cnt numbered (threads s)); [|lia].
        eapply cnt_member_pos; [exact Hi|]. rewrite E. reflexivity.
      * apply IH. eapply list_elem_of_lookup_2; eauto.
    + rewrite list_lookup_insert_ne in Hj by exact Hne.
      apply IH. eapply list_elem_of_lookup_2; eauto.
Qed.

Lemma thread_step_color (sh sh' : Shared) (t t' : Thread) :
  thread_step sh t = Some (sh', t') ->
  color (blue_in_room sh') = color (blue_in_room sh)
  /\ color (green_in_room sh') = color (green_in_room sh)
  /\ tcolor t' = tcolor t.
Proof.
  intros Hs. destruct t as [c p cur hd].
  destruct sh as [pl ts bg [bc bco bm] [gc gco gm] nb ng tid rc rm out].
  step_cases Hs c p; simpl; auto.
Qed.

Lemma color_reachable (slots : Z) (colors : list Color) (s : State) :
  reachable slots colors s ->
  color (blue_in_room (shared s)) = Blue
  /\ color (green_in_room (shared s)) = Green.
Proof.
  intros H. induction H as [|s i s' _ IH Hstep].
  - split; reflexivity.
  - destruct (step_inversion s s' i Hstep) as (t & sh' & t' & Hi & Hs & ->).
    cbn [shared]. destruct (thread_step_color _ _ _ _ Hs) as (-> & -> & _).
    exact IH.
Qed.

(** Outside the turnstile no statement makes its thread an owner of
    [blue_green_mutex]. *)
Lemma thread_step_owner (sh sh' : Shared) (t t' : Thread) (d : Color) :
  thread_step sh t = Some (sh', t') ->
  in_turnstile (tcolor t) (pc t) = false ->
  Z.b2z (owns_bg d (tcolor t') (pc t')) <= Z.b2z (owns_bg d (tcolor t) (pc t))
  /\ Z.b2z (occupant (tcolor t') (pc t')) <= Z.b2z (occupant (tcolor t) (pc t))
     + Z.b2z (owns_bg (tcolor t) (tcolor t) (pc t)).
Proof.
  intros Hs Hout. destruct t as [c p cur hd].
  destruct sh as [pl ts bg [bc bco bm] [gc gco gm] nb ng tid rc rm out].
  step_cases Hs c p; destruct d; simpl in *; try discriminate; lia.
Qed.

Lemma crashed_iff (c : Color) (p : PC) : crashed c p = true <-> p = Crashed.
Proof.
  unfold crashed.
  destruct p as [| | | | | | | | | | | | | | | | | | | | | | | | | | [] [] | |];
    simpl; split; intros H; first [reflexivity | discriminate H].
Qed.

Lemma no_crash (slots : Z) (colors : list Color) (s : State) (t : Thread) :
  0 <= slots -> reachable slots colors s -> t ∈ threads s -> pc t <> Crashed.
Proof.
  intros Hs Hr Ht Hc. pose proof (Inv_reachable _ _ _ Hs Hr) as (HC & _).
  unfold inv_common in HC. destruct_ands.
  assert (E : crashed (tcolor t) (pc t) = false) by (eapply cnt_zero_all; eauto).
  apply (crashed_iff (tcolor t)) in Hc. congruence.
Qed.

(** The shared state when every thread has returned. *)
Lemma all_done_shared (slots : Z) (colors : list Color) (s : State) :
  0 < slots -> reachable slots colors s -> all_done s ->
  shared s = mkShared false 1 1 (Lightswitch_init Blue) (Lightswitch_init Green)
                      slots slots (Z.of_nat (length colors)) 0 false
                      (stdout (shared s)).
Proof.
  intros Hs Hr Hd.
  pose proof (Inv_reachable _ _ _ (Z.lt_le_incl _ _ Hs) Hr) as (HC & HB & HG).
  pose proof (color_reachable _ _ _ Hr) as [Cb Cg].
  pose proof (reachable_length _ _ _ Hr) as Hlen.
  pose proof (numbered_reachable _ _ _ Hr) as Hnum.
  assert (Z0 : forall f : Region, (forall c, f c Done = false) ->
                 cnt f (threads s) = 0).
  { intros f Hf. exact (cnt_all f (threads s) Done false Hf Hd). }
  rewrite (cnt_all numbered (threads s) Done true (fun _ => eq_refl) Hd), Hlen
    in Hnum.
  unfold inv_common, inv_color in *. cbn [in_room_of num_allowed_of] in *.
  rewrite !Z0 in HC, HB, HG by (intros []; reflexivity).
  pose proof (Z0 (owns_bg Blue) (fun c => match c with Blue | Green => eq_refl end)).
  pose proof (Z0 (owns_bg Green) (fun c => match c with Blue | Green => eq_refl end)).
  destruct_ands.
  destruct (shared s) as [pl ts bg [bc bco bm] [gc gco gm] nb ng tid rc rm out].
  cbn in *. unfold Lightswitch_init.
  assert (pl = false) by (destruct pl; [discriminate|reflexivity]).
  assert (rm = false) by (destruct rm; [discriminate|reflexivity]).
  assert (bg = 1) by lia.
  subst. repeat f_equal; lia.
Qed.

(** The number of a thread that has returned. *)
Lemma all_done_ids (slots : Z) (colors : list Color) (s : State) (t : Thread) :
  0 < slots -> reachable slots colors s -> all_done s -> t ∈ threads s ->
  exists a, current_thread_id t = Some a /\ 1 <= a <= Z.of_nat (length colors).
Proof.
  intros Hs Hr Hd Ht.
  pose proof (reachable_length _ _ _ Hr) as Hlen.
  pose proof (numbered_reachable _ _ _ Hr) as Hnum.
  pose proof (cnt_le_length numbered (threads s)).
  destruct (id_state_reachable _ _ _ Hr t Ht) as [Hc|Hst].
  - rewrite (Hd t Ht) in Hc. discriminate.
  - rewrite (Hd t Ht) in Hst. cbn in Hst. destruct Hst as (a & Ha & Hge).
    exists a. split; [exact Ha|].
    destruct (ids_reachable _ _ _ (Z.lt_le_incl _ _ Hs) Hr) as [Hbd _].
    specialize (Hbd t a Ht Ha).
    pose proof (cnt_nonneg id_pending (threads s)). lia.
Qed.

Lemma quiet_ops_S (k : nat) (o : list Method.SemOp) :
  (o ++ [Method.AcquireMutex; Method.ReleaseMutex]) ++ quiet_ops k
  = o ++ quiet_ops (S k).
Proof. unfold quiet_ops. cbn [replicate concat]. rewrite <- app_assoc. reflexivity. Qed.

Lemma times_lock_quiet (k : nat) (n : Z) (c : Color) (m bg : Z)
    (o : list Method.SemOp) :
  1 <= n -> 0 < m ->
  times k Method.lock (Method.mkWorld (mkLightswitch n c m) bg o)
  = Some (tt, Method.mkWorld (mkLightswitch (n + Z.of_nat k) c m) bg
                             (o ++ quiet_ops k)).
Proof.
  revert n o. induction k as [|k IH]; intros n o Hn Hm.
  - cbn [times]. unfold Method.ret, quiet_ops. cbn [replicate concat].
    rewrite app_nil_r. rewrite ?Z.add_0_r, ?Z.sub_0_r. reflexivity.
  - cbn [times]. unfold Method.bind at 1.
    assert (E : Method.lock (Method.mkWorld (mkLightswitch n c m) bg o)
                = Some (tt, Method.mkWorld (mkLightswitch (n + 1) c m) bg
                            (o ++ [Method.AcquireMutex; Method.ReleaseMutex]))).
    { method_cases; try lia. rewrite <- app_assoc. same_world. }
    rewrite E, IH by lia. rewrite quiet_ops_S.
    replace (n + 1 + Z.of_nat k) with (n + Z.of_nat (S k)) by lia. reflexivity.
Qed.

Lemma times_unlock_quiet (k : nat) (n : Z) (c : Color) (m bg : Z)
    (o : list Method.SemOp) :
  Z.of_nat k < n -> 0 < m ->
  times k Method.unlock (Method.mkWorld (mkLightswitch n c m) bg o)
  = Some (tt, Method.mkWorld (mkLightswitch (n - Z.of_nat k) c m) bg
                             (o ++ quiet_ops k)).
Proof.
  revert n o. induction k as [|k IH]; intros n o Hn Hm.
  - cbn [times]. unfold Method.ret, quiet_ops. cbn [replicate concat].
    rewrite app_nil_r. rewrite ?Z.add_0_r, ?Z.sub_0_r. reflexivity.
  - cbn [times]. unfold Method.bind at 1.
    assert (E : Method.unlock (Method.mkWorld (mkLightswitch n c m) bg o)
                = Some (tt, Method.mkWorld (mkLightswitch (n - 1) c m) bg
                            (o ++ [Method.AcquireMutex; Method.ReleaseMutex]))).
    { method_cases; try lia. rewrite <- app_assoc. same_world. }
    rewrite E, IH by lia. rewrite quiet_ops_S.
    replace (n - 1 - Z.of_nat k) with (n - Z.of_nat (S k)) by lia. reflexivity.
Qed.

Lemma times_app (j k : nat) (m : Method.M unit) (w : Method.World) :
  times (j + k) m w
  = match times j m w with
    | Some (_, w') => times k m w'
    | None => None
    end.
Proof.
  revert w. induction j as [|j IH]; intros w; [reflexivity|].
  cbn [Nat.add times]. unfold Method.bind.
  destruct (m w) as [[[] w1]|]; [apply IH|reflexivity].
Qed.

(** ** The main thread *)

Lemma cnt_perm (f : Region) (l1 l2 : list Thread) :
  l1 ≡ₚ l2 -> cnt f l1 = cnt f l2.
Proof. intros H. induction H; simpl; lia. Qed.

Lemma cnt_new_replicate (f : Region) (c : Color) (n : nat) :
  cnt f (map new_thread (replicate n c))
  = Z.b2z (f c TurnstileAcquire) * Z.of_nat n.
Proof.
  induction n as [|n IH]; [simpl; lia|].
  cbn [replicate map cnt]. rewrite IH. cbn [new_thread tcolor pc]. lia.
Qed.

(** What the main thread builds from valid inputs. *)
Lemma main_state (slots blue green : Z) (sh : list Color -> list Color) :
  0 < slots -> 0 <= blue -> 0 <= green -> 0 < blue + green ->
  main slots blue green sh
  = inr (init slots (sh (replicate (Z.to_nat blue) Blue
                         ++ replicate (Z.to_nat green) Green))).
Proof.
  intros Hs Hb Hg Hbg. unfold main, configure.
  assert (E1 : (slots <=? 0) = false) by (apply Z.leb_gt; lia).
  assert (E2 : (blue <? 0) = false) by (apply Z.ltb_ge; lia).
  assert (E3 : (green <? 0) = false) by (apply Z.ltb_ge; lia).
  assert (E4 : (blue =? 0) && (green =? 0) = false).
  { apply andb_false_iff.
    destruct (Z.eq_dec blue 0); [right|left]; apply Z.eqb_neq; lia. }
  rewrite E1, E2, E3, E4. reflexivity.
Qed.

(** Every reachable state can be run to completion. *)
Lemma can_finish (slots : Z) (colors : list Color) (n : nat) (s : State) :
  0 < slots -> reachable slots colors s -> (measure s <= n)%nat ->
  exists sched s', run sched s = Some s' /\ all_done s'.
Proof.
  intros Hs. revert s. induction n as [|n IH]; intros s Hr Hm.
  - destruct (done_or_moves _ _ _ Hs Hr) as [D|(i & s1 & Hstep)].
    + exists [], s. split; [reflexivity|exact D].
    + apply step_measure in Hstep. lia.
  - destruct (done_or_moves _ _ _ Hs Hr) as [D|(i & s1 & Hstep)].
    + exists [], s. split; [reflexivity|exact D].
    + destruct (IH s1) as (sched & s' & Hrun & D).
      * eapply reach_step; eauto.
      * apply step_measure in Hstep. lia.
      * exists (i :: sched), s'. split; [|exact D].
        cbn [run]. rewrite Hstep. exact Hrun.
Qed.

Lemma replay_snoc (slots : Z) (log : list Message) (r r1 r2 : Reader)
    (m : Message) :
  replay slots r log = Some r1 -> observe slots r1 m = Some r2 ->
  replay slots r (log ++ [m]) = Some r2.
Proof.
  revert r. induction log as [|x log IH]; intros r H1 H2.
  - cbn in *. injection H1 as ->. rewrite H2. reflexivity.
  - cbn in *. destruct (observe slots r x) as [r'|]; [|discriminate].
    apply IH; assumption.
Qed.

(** Deciding the tests of [observe] by arithmetic. *)
Ltac decide_tests :=
  repeat first
    [ match goal with
      | |- context [?x =? ?y] =>
          first [ rewrite (proj2 (Z.eqb_eq x y)) by lia
                | rewrite (proj2 (Z.eqb_neq x y)) by lia ]
      | |- context [?x <? ?y] =>
          first [ rewrite (proj2 (Z.ltb_lt x y)) by lia
                | rewrite (proj2 (Z.ltb_ge x y)) by lia ]
      | |- context [?x <=? ?y] =>
          first [ rewrite (proj2 (Z.leb_le x y)) by lia
                | rewrite (proj2 (Z.leb_gt x y)) by lia ]
      end
    | progress cbn [andb color_eqb] ].

Ltac view_cases H :=
  unfold holder_view, in_sync in H; cbn in H;
  repeat match type of H with
         | _ /\ _ => let A := fresh "V" in destruct H as [A H]
         | _ \/ _ => destruct H as [H|H]
         end.

Ltac solve_view :=
  unfold holder_view, in_sync; cbn;
  repeat match goal with
         | |- context [if ?x =? ?y then _ else _] =>
             destruct (Z.eqb_spec x y)
         end;
  repeat match goal with
         | |- _ /\ _ => split
         end;
  first [ lia
        | reflexivity
        | f_equal; lia
        | left; split; first [lia | reflexivity | f_equal; lia]
        | right; split; first [lia | reflexivity | f_equal; lia] ].

Lemma ex_and_comm (A : Type) (P Q : A -> Prop) :
  (exists x, Q x /\ P x) -> exists x, P x /\ Q x.
Proof. intros (x & H1 & H2). exists x. split; assumption. Qed.

Ltac holder_case :=
  apply ex_and_comm; eexists; split;
  [ first [ left; split; reflexivity
          | right; eexists; split;
            [reflexivity | cbn; decide_tests; reflexivity] ]
  | solve_view ].

(** A statement inside a [with room_mutex:] block keeps the reader's view,
    printing at most one message, which the reader accepts. *)
Lemma holder_step (slots : Z) (sh sh' : Shared) (t t' : Thread) (r : Reader) :
  thread_step sh t = Some (sh', t') ->
  in_room_mutex (tcolor t) (pc t) = true ->
  in_room_mutex (tcolor t') (pc t') = true ->
  Z.b2z (occupant (tcolor t) (pc t)) <= room_ctr sh <= slots ->
  id_state t ->
  (forall a, current_thread_id t = Some a -> a <= thread_id sh) ->
  holder_view sh t r ->
  exists r',
    holder_view sh' t' r'
    /\ ((stdout sh' = stdout sh /\ r' = r)
        \/ exists m, stdout sh' = stdout sh ++ [m]
                     /\ observe slots r m = Some r').
Proof.
  intros Hs Hin Hin' Hrc Hid Hle Hv.
  destruct Hid as [Hc|Hid];
    [destruct t as [c p cur hd]; cbn [pc] in Hc; subst p; discriminate|].
  destruct t as [c p cur hd]. destruct r as [rm lid].
  destruct sh as [pl ts bg [bc bco bm] [gc gco gm] nb ng tid rc rmx out].
  cbn [pc tcolor current_thread_id] in *.
  step_cases Hs c p; cbn in Hin, Hin'; try discriminate;
    cbn in Hrc, Hid, Hle; view_cases Hv; subst;
    try match type of Hid with
        | exists _, _ =>
            let a := fresh "a" in let Hge := fresh "Hge" in
            destruct Hid as (a & -> & Hge); specialize (Hle a eq_refl)
        end;
    holder_case.
Qed.

(** A statement outside the [with room_mutex:] blocks leaves what they
    protect alone. *)
Lemma outside_step (sh sh' : Shared) (t t' : Thread) :
  thread_step sh t = Some (sh', t') ->
  in_room_mutex (tcolor t) (pc t) = false ->
  in_room_mutex (tcolor t') (pc t') = false ->
  room_ctr sh' = room_ctr sh /\ thread_id sh' = thread_id sh
  /\ stdout sh' = stdout sh /\ room_mutex sh' = room_mutex sh.
Proof.
  intros Hs Hin Hin'. destruct t as [c p cur hd].
  destruct sh as [pl ts bg [bc bco bm] [gc gco gm] nb ng tid rc rmx out].
  step_cases Hs c p; cbn in Hin, Hin'; try discriminate; cbn; auto.
Qed.

(** Taking [room_mutex]. *)
Lemma acquire_step (sh sh' : Shared) (t t' : Thread) :
  thread_step sh t = Some (sh', t') ->
  in_room_mutex (tcolor t) (pc t) = false ->
  in_room_mutex (tcolor t') (pc t') = true ->
  room_ctr sh' = room_ctr sh /\ thread_id sh' = thread_id sh
  /\ stdout sh' = stdout sh /\ room_mutex sh = false
  /\ tcolor t' = tcolor t
  /\ owns_bg (tcolor t) (tcolor t) (pc t) = true
  /\ (pc t' = EnterIdIncr \/ pc t' = ExitAllowedRelease).
Proof.
  intros Hs Hin Hin'. destruct t as [c p cur hd].
  destruct sh as [pl ts bg [bc bco bm] [gc gco gm] nb ng tid rc rmx out].
  step_cases Hs c p; cbn in Hin, Hin'; try discriminate; cbn; auto 10.
Qed.

(** Giving [room_mutex] back. *)
Lemma release_step (sh sh' : Shared) (t t' : Thread) :
  thread_step sh t = Some (sh', t') ->
  in_room_mutex (tcolor t) (pc t) = true ->
  in_room_mutex (tcolor t') (pc t') = false ->
  pc t' <> Crashed ->
  room_ctr sh' = room_ctr sh /\ thread_id sh' = thread_id sh
  /\ stdout sh' = stdout sh /\ room_mutex sh' = false
  /\ tcolor t' = tcolor t
  /\ owns_bg (tcolor t') (tcolor t') (pc t') = true
  /\ (pc t = EnterRoomRelease \/ pc t = ExitRoomRelease).
Proof.
  intros Hs Hin Hin' Hnc. destruct t as [c p cur hd].
  destruct sh as [pl ts bg [bc bco bm] [gc gco gm] nb ng tid rc rmx out].
  step_cases Hs c p; cbn in Hin, Hin', Hnc; try discriminate;
    try contradiction; cbn; auto 10.
Qed.

Lemma holder_view_ext (sh sh' : Shared) (t : Thread) (r : Reader) :
  room_ctr sh' = room_ctr sh -> thread_id sh' = thread_id sh ->
  holder_view sh t r -> holder_view sh' t r.
Proof. unfold holder_view. intros -> ->. exact (fun H => H). Qed.

Lemma owner_colours (sh sh' : Shared) (t t' : Thread) :
  thread_step sh t = Some (sh', t') ->
  Z.b2z (owns_bg Blue (tcolor t) (pc t))
    + Z.b2z (owns_bg Green (tcolor t') (pc t')) <= 1
  /\ Z.b2z (owns_bg Green (tcolor t) (pc t))
       + Z.b2z (owns_bg Blue (tcolor t') (pc t')) <= 1.
Proof.
  intros Hs. destruct t as [c p cur hd].
  destruct sh as [pl ts bg [bc bco bm] [gc gco gm] nb ng tid rc rmx out].
  step_cases Hs c p; cbn; lia.
Qed.

Lemma owners_same_color (slots : Z) (s : State) (c d : Color) :
  Inv slots s -> 0 < cnt (owns_bg c) (threads s) ->
  0 < cnt (owns_bg d) (threads s) -> c = d.
Proof.
  intros (HC & _) Hc Hd. unfold inv_common in HC. destruct_ands.
  destruct c, d; first [reflexivity | exfalso; lia].
Qed.

Lemma room_mutex_count (slots : Z) (s : State) :
  Inv slots s ->
  cnt in_room_mutex (threads s) = Z.b2z (room_mutex (shared s))
  /\ cnt in_room_mutex (threads s) <= 1.
Proof.
  intros (HC & _). unfold inv_common in HC. destruct_ands.
  pose proof (b2z_range (room_mutex (shared s))). lia.
Qed.

Lemma reader_init (slots : Z) (colors : list Color) :
  reader_ok slots (init slots colors).
Proof.
  exists Reader_init. split; [reflexivity|]. split.
  - intros _. exists Blue. split; [|cbn; lia].
    split; [reflexivity|]. left. split; reflexivity.
  - intros i t Hi Hin. exfalso. unfold init in Hi. cbn [threads] in Hi.
    assert (Ht : t ∈ map new_thread colors)
      by (eapply list_elem_of_lookup_2; eauto).
    apply list_elem_of_fmap in Ht as (c & -> & _). discriminate Hin.
Qed.

Lemma reader_step (slots : Z) (s s' : State) (i : nat) :
  Inv slots s -> Inv slots s' -> ids_bounded s ->
  (forall t, t ∈ threads s -> id_state t) ->
  (forall t, t ∈ threads s' -> pc t <> Crashed) ->
  step i s = Some s' -> reader_ok slots s -> reader_ok slots s'.
Proof.
  intros HI HI' Hb Hid Hnc Hstep (r & Hrep & Hidle & Hhold).
  destruct (step_inversion s s' i Hstep) as (t & sh' & t' & Hi & Hs & ->).
  cbn [shared threads] in *.
  assert (Hlt : (i < length (threads s))%nat) by (eapply lookup_lt_Some; eauto).
  assert (Hi' : <[i := t']> (threads s) !! i = Some t')
    by (apply list_lookup_insert_eq, Hlt).
  destruct (room_mutex_count _ _ HI) as [Hc1 Hc2].
  destruct (room_mutex_count _ _ HI') as [Hc1' Hc2']. cbn [shared threads] in *.
  assert (Hin_t : t ∈ threads s) by (eapply list_elem_of_lookup_2; eauto).
  destruct (in_room_mutex (tcolor t) (pc t)) eqn:Ein;
    destruct (in_room_mutex (tcolor t') (pc t')) eqn:Ein'.
  - (* a statement inside a block *)
    destruct (holder_step slots _ _ _ _ r Hs Ein Ein') as (r' & Hv' & Hlog).
    + destruct HI as (HC & _). unfold inv_common in HC. destruct_ands.
      rewrite (cnt_lookup occupant _ i t Hi) in *.
      pose proof (cnt_nonneg occupant
                    (take i (threads s) ++ drop (S i) (threads s))). lia.
    + apply Hid, Hin_t.
    + intros a Ha. specialize (Hb t a Hin_t Ha).
      pose proof (cnt_nonneg id_pending (threads s)). lia.
    + apply (Hhold i t Hi Ein).
    + exists r'. cbn [shared threads]. split; [|split].
      * destruct Hlog as [[-> ->]|(m & -> & Hobs)]; [exact Hrep|].
        eapply replay_snoc; eauto.
      * intros Hfree. exfalso. rewrite Hfree in Hc1'.
        pose proof (cnt_member_pos _ _ _ _ Hi' Ein'). cbn in Hc1'. lia.
      * intros j tj Hj Hinj. destruct (decide (j = i)) as [->|Hne].
        -- rewrite Hi' in Hj. injection Hj as <-. exact Hv'.
        -- rewrite (cnt_at_most_one _ _ i j t' tj Hc2' Hi' Ein' Hne Hj) in Hinj.
           discriminate.
  - (* leaving a block *)
    destruct (release_step _ _ _ _ Hs Ein Ein')
      as (Erc & Etid & Eout & Efree & Ecol & Eown & Hpc).
    { apply Hnc. eapply list_elem_of_lookup_2; eauto. }
    pose proof (Hhold i t Hi Ein) as Hv.
    assert (Hsync : in_sync (tcolor t) (room_ctr (shared s))
                            (thread_id (shared s)) r).
    { unfold holder_view in Hv. destruct Hpc as [E|E]; rewrite E in Hv; exact Hv. }
    exists r. cbn [shared threads]. split; [rewrite Eout; exact Hrep|]. split.
    + intros _. exists (tcolor t). rewrite Erc, Etid. split; [exact Hsync|].
      intros _. rewrite <- Ecol. eapply cnt_member_pos; eauto.
    + intros j tj Hj Hinj. exfalso. rewrite Efree in Hc1'. cbn in Hc1'.
      assert (Hmem : tj ∈ <[i := t']> (threads s))
        by (eapply list_elem_of_lookup_2; eauto).
      rewrite (cnt_zero_all _ _ Hc1' tj Hmem) in Hinj. discriminate.
  - (* entering a block *)
    destruct (acquire_step _ _ _ _ Hs Ein Ein')
      as (Erc & Etid & Eout & Efree & Ecol & Eown & Hpc).
    destruct (Hidle Efree) as (c & Hsync & Hc).
    exists r. cbn [shared threads]. split; [rewrite Eout; exact Hrep|]. split.
    + intros Hfree. exfalso. rewrite Hfree in Hc1'.
      pose proof (cnt_member_pos _ _ _ _ Hi' Ein'). cbn in Hc1'. lia.
    + intros j tj Hj Hinj. destruct (decide (j = i)) as [->|Hne].
      * rewrite Hi' in Hj. injection Hj as <-.
        assert (Hsync' : in_sync (tcolor t) (room_ctr (shared s))
                                 (thread_id (shared s)) r).
        { destruct Hsync as [Hl [Hv|[Hpos Hv]]].
          - split; [exact Hl|left; exact Hv].
          - split; [exact Hl|right]. split; [exact Hpos|].
            rewrite (owners_same_color slots s (tcolor t) c HI); auto.
            eapply cnt_member_pos; eauto. }
        unfold holder_view. rewrite Erc, Etid, Ecol.
        destruct Hpc as [E|E]; rewrite E; exact Hsync'.
      * rewrite (cnt_at_most_one _ _ i j t' tj Hc2' Hi' Ein' Hne Hj) in Hinj.
        discriminate.
  - (* a statement outside the blocks *)
    destruct (outside_step _ _ _ _ Hs Ein Ein') as (Erc & Etid & Eout & Erm).
    exists r. cbn [shared threads]. split; [rewrite Eout; exact Hrep|]. split.
    + intros Hfree. rewrite Erm in Hfree.
      destruct (Hidle Hfree) as (c & Hsync & Hc).
      exists c. rewrite Erc, Etid. split; [exact Hsync|].
      intros Hpos. specialize (Hc Hpos).
      destruct (owner_colours _ _ _ _ Hs) as [O1 O2].
      destruct HI as (HC & _). destruct HI' as (HC' & _).
      unfold inv_common in *. cbn [shared threads] in *.
      rewrite Hfree in Hc1. rewrite Erm, Hfree in Hc1'. cbn in Hc1, Hc1'.
      rewrite !(cnt_insert _ _ i t t' Hi) in *.
      rewrite !(cnt_lookup _ _ i t Hi) in HC.
      rewrite (cnt_lookup (owns_bg c) _ i t Hi) in Hc.
      rewrite (cnt_lookup in_room_mutex _ i t Hi) in Hc1.
      pose proof (facts_common_holds
                    (take i (threads s) ++ drop (S i) (threads s))) as Fc.
      pose proof (facts_color_holds Blue
                    (take i (threads s) ++ drop (S i) (threads s))) as Fb.
      pose proof (facts_color_holds Green
                    (take i (threads s) ++ drop (S i) (threads s))) as Fg.
      unfold facts_common, facts_color in *.
      set (rest := take i (threads s) ++ drop (S i) (threads s)) in *.
      clearbody rest.
      assert (Hocc : Z.b2z (occupant (tcolor t') (pc t'))
                     <= Z.b2z (owns_bg Blue (tcolor t') (pc t'))
                        + Z.b2z (owns_bg Green (tcolor t') (pc t'))
                        + Z.b2z (in_room_mutex (tcolor t') (pc t'))).
      { clear. destruct (tcolor t');
          destruct (pc t') as [| | | | | | | | | | | | | | | | | | | | | | | | | | [] [] | |];
          cbn; lia. }
      rewrite Ein' in Hocc. rewrite Ein, Ein' in *. rewrite Erc in *.
      pose proof (b2z_range (owns_bg Blue (tcolor t) (pc t))).
      pose proof (b2z_range (owns_bg Green (tcolor t) (pc t))).
      pose proof (b2z_range (owns_bg Blue (tcolor t') (pc t'))).
      pose proof (b2z_range (owns_bg Green (tcolor t') (pc t'))).
      destruct_ands. clear Hrep Hsync Hidle Hhold Hb Hid Hnc.
      destruct c; cbn [Z.b2z] in *; lia.
    + intros j tj Hj Hinj. destruct (decide (j = i)) as [->|Hne].
      * rewrite Hi' in Hj. injection Hj as <-. congruence.
      * rewrite list_lookup_insert_ne in Hj by (apply not_eq_sym, Hne).
        eapply holder_view_ext; [exact Erc|exact Etid|].
        apply (Hhold j tj Hj Hinj).
Qed.

Lemma reader_reachable (slots : Z) (colors : list Color) (s : State) :
  0 < slots -> reachable slots colors s -> reader_ok slots s.
Proof.
  intros Hs H. induction H as [|s i s' Hr IH Hstep].
  - apply reader_init.
  - assert (Hr' : reachable slots colors s') by (eapply reach_step; eauto).
    eapply reader_step; [| | | | |exact Hstep|exact IH].
    + apply (Inv_reachable _ _ _ (Z.lt_le_incl _ _ Hs) Hr).
    + apply (Inv_reachable _ _ _ (Z.lt_le_incl _ _ Hs) Hr').
    + apply (ids_reachable _ _ _ (Z.lt_le_incl _ _ Hs) Hr).
    + apply (id_state_reachable _ _ _ Hr).
    + intros t Ht. exact (no_crash _ _ _ _ (Z.lt_le_incl _ _ Hs) Hr' Ht).
Qed.

Ltac observe_cases H :=
  unfold observe in H; cbn [room last_id] in H;
  repeat match type of H with
         | context [match ?x with _ => _ end] => destruct x eqn:?
         end;
  try discriminate H; injection H as <-; cbn [room last_id];
  rewrite ?andb_true_iff in *; destruct_ands;
  rewrite ?Z.eqb_eq, ?Z.ltb_lt, ?Z.leb_le, ?Z.eqb_neq in *.

Lemma observe_facts (slots : Z) (r r' : Reader) (m : Message) :
  0 < slots -> observe slots r m = Some r' -> room_wf slots (room r) ->
  room_wf slots (room r')
  /\ (if is_enter m
      then enter_id m = Some (Some (last_id r + 1))
           /\ last_id r' = last_id r + 1
      else enter_id m = None /\ last_id r' = last_id r)
  /\ shown_inside (room r')
     = shown_inside (room r) + Z.b2z (is_enter m) - Z.b2z (is_exit m)
  /\ shown_open (room r')
     = shown_open (room r) + Z.b2z (is_only m) - Z.b2z (is_empty m)
  /\ (forall a, m = MsgExit a -> exists z, a = Some z /\ 1 <= z <= last_id r).
Proof.
  intros Hs H Hwf. destruct r as [rm lid].
  observe_cases H; subst; cbn in *; split_all; try lia; try reflexivity;
    try (repeat f_equal; lia); try solve [intros ? [=]];
    try (intros ? [= <-]; eexists; split; [reflexivity|lia]).
Qed.

Lemma replay_facts (slots : Z) (log : list Message) (r0 r : Reader) :
  0 < slots -> replay slots r0 log = Some r -> room_wf slots (room r0) ->
  room_wf slots (room r)
  /\ last_id r0 <= last_id r
  /\ enter_ids log
     = map Some (seqZ (last_id r0 + 1) (last_id r - last_id r0))
  /\ count_msgs is_enter log = last_id r - last_id r0
  /\ shown_inside (room r)
     = shown_inside (room r0) + count_msgs is_enter log - count_msgs is_exit log
  /\ shown_open (room r)
     = shown_open (room r0) + count_msgs is_only log - count_msgs is_empty log
  /\ (forall a, MsgExit a ∈ log -> exists z, a = Some z /\ 1 <= z <= last_id r).
Proof.
  intros Hs. revert r0. induction log as [|m log IH]; intros r0 H Hwf.
  - cbn in H. injection H as <-. unfold count_msgs. cbn.
    rewrite Z.sub_diag. split_all; try lia; try reflexivity; try exact Hwf.
    intros a Ha. inversion Ha.
  - cbn [replay] in H. destruct (observe slots r0 m) as [r1|] eqn:Hobs;
      [|discriminate].
    destruct (observe_facts _ _ _ _ Hs Hobs Hwf) as (W1 & Hid & Hin & Hop & Hex).
    destruct (IH r1 H W1) as (W & Hle & Hids & Hcnt & Hin' & Hop' & Hex').
    unfold count_msgs, enter_ids in *. split; [exact W|].
    assert (Hmem : forall a, MsgExit a ∈ m :: log ->
                     exists z, a = Some z /\ 1 <= z <= last_id r).
    { intros a Ha. apply elem_of_cons in Ha as [Hm|Ha]; [|exact (Hex' a Ha)].
      destruct (Hex a (eq_sym Hm)) as (z & -> & Hz).
      rewrite <- Hm in Hid. cbn in Hid. destruct Hid as [_ Hl1].
      exists z. split; [reflexivity|lia]. }
    destruct m as [c|a c|a|];
      cbn [is_enter is_exit is_only is_empty enter_id Z.b2z omap
           List.filter length] in *;
      destruct Hid as [Hid Hl1]; try discriminate Hid.
    + split_all; first [lia | exact Hmem | rewrite Hl1 in Hids; exact Hids].
    + injection Hid as ->.
      assert (Hpos : 0 < last_id r - last_id r0) by lia.
      rewrite (seqZ_cons _ _ Hpos). cbn [map].
      replace (Z.succ (last_id r0 + 1)) with (last_id r1 + 1) by lia.
      replace (Z.pred (last_id r - last_id r0)) with (last_id r - last_id r1)
        by lia.
      rewrite <- Hids. split_all; first [lia | exact Hmem | reflexivity].
    + split_all; first [lia | exact Hmem | rewrite Hl1 in Hids; exact Hids].
    + split_all; first [lia | exact Hmem | rewrite Hl1 in Hids; exact Hids].
Qed.

Lemma logged_mono (out more : list Message) (t : Thread) :
  logged out t -> logged (out ++ more) t.
Proof.
  intros [H1 H2]. split; intros H; apply elem_of_app; left; auto.
Qed.

Lemma thread_step_logged (sh sh' : Shared) (t t' : Thread) :
  thread_step sh t = Some (sh', t') -> logged (stdout sh) t ->
  logged (stdout sh') t' /\ exists more, stdout sh' = stdout sh ++ more.
Proof.
  intros Hs Hl. destruct t as [c p cur hd].
  destruct sh as [pl ts bg [bc bco bm] [gc gco gm] nb ng tid rc rmx out].
  unfold logged in *. cbn [pc tcolor current_thread_id stdout] in Hl.
  destruct Hl as [H1 H2].
  step_cases Hs c p; cbn in H1, H2; cbn;
    (split;
     [ split; intros H; try discriminate H;
       first [ apply H1; reflexivity
             | apply H2; reflexivity
             | apply elem_of_app; left; apply H1; reflexivity
             | apply elem_of_app; left; apply H2; reflexivity
             | apply elem_of_app; right; apply list_elem_of_singleton;
               reflexivity ]
     | first [ exists []; symmetry; apply app_nil_r
             | eexists; reflexivity ] ]).
Qed.

Lemma logged_reachable (slots : Z) (colors : list Color) (s : State) :
  reachable slots colors s ->
  forall t, t ∈ threads s -> logged (stdout (shared s)) t.
Proof.
  intros H. induction H as [|s i s' Hr IH Hstep].
  - intros t Ht. unfold init in Ht. cbn [threads] in Ht.
    apply list_elem_of_fmap in Ht as (c & -> & _). split; discriminate.
  - intros x Hx.
    destruct (step_inversion s s' i Hstep) as (t & sh' & t' & Hi & Hs & ->).
    cbn [threads shared] in *.
    assert (Hin : t ∈ threads s) by (eapply list_elem_of_lookup_2; eauto).
    destruct (thread_step_logged _ _ _ _ Hs (IH t Hin)) as [Hl (more & Em)].
    rewrite Em in *.
    apply list_elem_of_lookup in Hx as [j Hj].
    destruct (decide (i = j)) as [<-|Hne].
    + rewrite list_lookup_insert_eq in Hj by (eapply lookup_lt_Some; eauto).
      injection Hj as <-. exact Hl.
    + rewrite list_lookup_insert_ne in Hj by exact Hne.
      apply logged_mono, IH. eapply list_elem_of_lookup_2; eauto.
Qed.

Lemma holder_view_last (sh : Shared) (t : Thread) (r : Reader) :
  in_room_mutex (tcolor t) (pc t) = true -> holder_view sh t r ->
  thread_id sh - 1 <= last_id r <= thread_id sh
  /\ 0 <= shown_inside (room r) + 1.
Proof.
  intros Hin Hv. destruct t as [c p cur hd]. destruct r as [rm lid].
  unfold holder_view, in_sync in Hv. cbn [pc tcolor current_thread_id] in *.
  destruct p as [| | | | | | | | | | | | | | | | | | | | | | | | | | [] [] | |];
    cbn in Hin; try discriminate Hin; cbn in Hv;
    repeat match type of Hv with
           | _ /\ _ => let A := fresh "V" in destruct Hv as [A Hv]
           | _ \/ _ => destruct Hv as [Hv|Hv]
           end; subst; cbn; lia.
Qed.

(** What the reader has seen, against the shared variables. *)
Lemma reader_synced (slots : Z) (colors : list Color) (s : State) :
  0 < slots -> reachable slots colors s ->
  exists r,
    replay slots Reader_init (stdout (shared s)) = Some r
    /\ thread_id (shared s) - 1 <= last_id r <= thread_id (shared s)
    /\ (room_mutex (shared s) = false ->
          last_id r = thread_id (shared s)
          /\ shown_inside (room r) = room_ctr (shared s)
          /\ (room_ctr (shared s) = 0 <-> room r = Vacant)).
Proof.
  intros Hs Hr.
  destruct (reader_reachable _ _ _ Hs Hr) as (r & Hrep & Hidle & Hhold).
  pose proof (Inv_reachable _ _ _ (Z.lt_le_incl _ _ Hs) Hr) as HI.
  destruct (room_mutex_count _ _ HI) as [Hc1 Hc2].
  assert (Hsync : room_mutex (shared s) = false ->
            last_id r = thread_id (shared s)
            /\ shown_inside (room r) = room_ctr (shared s)
            /\ (room_ctr (shared s) = 0 <-> room r = Vacant)).
  { intros Hfree. destruct (Hidle Hfree) as (c & [Hl [[E1 E2]|[E1 E2]]] & _);
      rewrite E2; cbn; split_all; try lia; try reflexivity;
      split; intros; first [reflexivity | lia | discriminate]. }
  exists r. split; [exact Hrep|]. split; [|exact Hsync].
  destruct (room_mutex (shared s)) eqn:E.
  - destruct (cnt_pos_ex in_room_mutex (threads s)) as (i & t & Hi & Hin);
      [cbn in Hc1; lia|].
    apply (holder_view_last _ _ _ Hin (Hhold i t Hi Hin)).
  - destruct (Hsync eq_refl) as (-> & _). lia.
Qed.

(** While the mutex of the lightswitch of colour [c] is taken, a statement
    of a thread that is not inside its methods leaves that lightswitch as
    it is. *)
Lemma thread_step_lightswitch (sh sh' : Shared) (t t' : Thread) (c : Color) :
  thread_step sh t = Some (sh', t') ->
  in_mutex c (tcolor t) (pc t) = false ->
  mutex (in_room_of c sh) <= 0 ->
  in_room_of c sh' = in_room_of c sh.
Proof.
  intros Hs Hout Hm. destruct t as [d p cur hd].
  destruct sh as [pl ts bg [bc bco bm] [gc gco gm] nb ng tid rc rm out].
  step_cases Hs d p; destruct c; simpl in *; try discriminate;
    try reflexivity; to_arith; exfalso; lia.
Qed.

(** The lightswitch of a thread that is between the acquire and the
    release of its mutex: the mutex is taken, no other thread is inside
    the methods of that lightswitch, and no statement of another thread
    changes it. *)
Lemma inside_mutex (slots : Z) (colors : list Color) (s : State)
    (i : nat) (t : Thread) :
  0 < slots -> reachable slots colors s -> threads s !! i = Some t ->
  in_mutex (tcolor t) (tcolor t) (pc t) = true ->
  mutex (in_room_of (tcolor t) (shared s)) = 0
  /\ (forall j tj, j <> i -> threads s !! j = Some tj ->
        in_mutex (tcolor t) (tcolor tj) (pc tj) = false)
  /\ (forall j s', j <> i -> step j s = Some s' ->
        in_room_of (tcolor t) (shared s') = in_room_of (tcolor t) (shared s)
        /\ threads s' !! i = Some t).
Proof.
  intros Hs Hr Hi Hin.
  pose proof (Inv_reachable _ _ _ (Z.lt_le_incl _ _ Hs) Hr) as HI.
  pose proof (cnt_member_pos _ _ _ _ Hi Hin) as Hpos.
  pose proof (mutex_exclusive _ _ _ (tcolor t) Hs Hr) as Hle.
  assert (Hm : mutex (in_room_of (tcolor t) (shared s)) = 0).
  { destruct HI as (_ & HB & HG). unfold inv_color in *.
    destruct (tcolor t); destruct_ands; lia. }
  assert (Hothers : forall j tj, j <> i -> threads s !! j = Some tj ->
            in_mutex (tcolor t) (tcolor tj) (pc tj) = false).
  { intros j tj Hne Hj.
    exact (cnt_at_most_one _ _ i j t tj Hle Hi Hin Hne Hj). }
  split; [exact Hm|]. split; [exact Hothers|].
  intros j s' Hne Hstep.
  destruct (step_inversion s s' j Hstep) as (tj & sh' & tj' & Hj & Hts & ->).
  cbn [shared threads]. split.
  - apply (thread_step_lightswitch _ _ _ _ _ Hts (Hothers j tj Hne Hj)). lia.
  - rewrite list_lookup_insert_ne by exact Hne. exact Hi.
Qed.

(** * The properties of the specification, C1 to C10 *)

(** C1. In every reachable state of a run with a positive number of slots,
    [room_ctr] is the number of threads between their [room_ctr += 1] and
    their [room_ctr -= 1], and it is at most [num_slots], whatever the
    interleaving. *)
Theorem occupancy_le_capacity (slots : Z) (colors : list Color) (s : State) :
  0 < slots -> reachable slots colors s ->
  room_ctr (shared s) = cnt occupant (threads s)
  /\ 0 <= room_ctr (shared s) <= slots.
Proof.
  intros Hs Hr. pose proof (Inv_reachable _ _ _ (Z.lt_le_incl _ _ Hs) Hr) as HI.
  destruct HI as (HC & _). unfold inv_common in HC.
  destruct HC as (_ & _ & _ & _ & Hctr & Hcap & _).
  pose proof (cnt_nonneg occupant (threads s)). lia.
Qed.

Lemma occupancy_le_capacity_witness :
  let s := after 1 [Blue; Blue] (replicate 21 0%nat) in
  0 < 1 /\ reachable 1 [Blue; Blue] s
  /\ room_ctr (shared s) = cnt occupant (threads s)
  /\ 0 <= room_ctr (shared s) <= 1.
Proof.
  intros s. split; [lia|]. split; [apply after_reachable|].
  apply (occupancy_le_capacity 1 [Blue; Blue] s); [lia|apply after_reachable].
Defined.

(** C2. In every reachable state, any two threads that are between their
    [room_ctr += 1] and their [room_ctr -= 1] have the same colour. *)
Theorem occupants_same_color (slots : Z) (colors : list Color) (s : State)
    (i j : nat) (ti tj : Thread) :
  0 < slots -> reachable slots colors s ->
  threads s !! i = Some ti -> threads s !! j = Some tj ->
  occupying (pc ti) = true -> occupying (pc tj) = true ->
  tcolor ti = tcolor tj.
Proof.
  intros Hs Hr Hi Hj Oi Oj.
  pose proof (Inv_reachable _ _ _ (Z.lt_le_incl _ _ Hs) Hr) as HI.
  destruct HI as (HC & _). unfold inv_common in HC.
  destruct HC as (_ & _ & _ & _ & _ & _ & _ & Hbg).
  assert (Hown : forall k t, threads s !! k = Some t -> occupying (pc t) = true ->
                   0 < cnt (owns_bg (tcolor t)) (threads s)).
  { intros k t Hk Ho. apply (cnt_member_pos _ _ k t Hk).
    destruct t as [c p cur hd]. cbn [tcolor pc] in *.
    destruct c; destruct p as [| | | | | | | | | | | | | | | | | | | | | | | | | | [] [] | |];
      first [reflexivity | discriminate Ho]. }
  pose proof (Hown i ti Hi Oi) as Pi. pose proof (Hown j tj Hj Oj) as Pj.
  destruct (tcolor ti), (tcolor tj); try reflexivity; lia.
Qed.

Lemma occupants_same_color_witness :
  let s := after 2 [Blue; Blue] (replicate 21 0%nat ++ replicate 17 1%nat) in
  let ti := mkThread Blue FitClothes (Some 1) [RAllowed Blue] in
  let tj := mkThread Blue FitClothes (Some 2) [RAllowed Blue] in
  0 < 2 /\ reachable 2 [Blue; Blue] s
  /\ threads s !! 0%nat = Some ti /\ threads s !! 1%nat = Some tj
  /\ occupying (pc ti) = true /\ occupying (pc tj) = true
  /\ tcolor ti = tcolor tj.
Proof.
  intros s ti tj.
  assert (Hi : threads s !! 0%nat = Some ti) by (vm_compute; reflexivity).
  assert (Hj : threads s !! 1%nat = Some tj) by (vm_compute; reflexivity).
  split; [lia|]. split; [apply after_reachable|].
  split; [exact Hi|]. split; [exact Hj|].
  split; [reflexivity|]. split; [reflexivity|].
  apply (occupants_same_color 2 [Blue; Blue] s 0%nat 1%nat ti tj);
    [lia|apply after_reachable|exact Hi|exact Hj|reflexivity|reflexivity].
Defined.

(** C3. With at least one slot, a reachable state is never a deadlock:
    either every thread has returned or some thread can execute its next
    statement.  Every run from it has at most [measure s] statements (at
    most 38 per thread from the start), and a run that cannot be continued
    ends with every thread, of either colour, returned. *)
Theorem no_deadlock_no_starvation (slots : Z) (colors : list Color) (s : State) :
  0 < slots -> reachable slots colors s ->
  (all_done s \/ can_move s)
  /\ (measure s <= 38 * length colors)%nat
  /\ (forall sched s', run sched s = Some s' ->
        (length sched <= measure s)%nat
        /\ (stuck s' -> all_done s')).
Proof.
  intros Hs Hr. split; [|split].
  - eapply done_or_moves; eauto.
  - eapply reachable_measure; eauto.
  - intros sched s' Hrun. split.
    + apply run_measure in Hrun. lia.
    + intros Hstuck.
      pose proof (run_reachable _ _ _ _ _ Hr Hrun) as Hr'.
      destruct (done_or_moves _ _ _ Hs Hr') as [D|M]; [exact D|].
      destruct (stuck_not_can_move _ Hstuck M).
Qed.

Lemma no_deadlock_no_starvation_witness :
  let s := after 1 [Blue; Green] (replicate 36 0%nat ++ replicate 4 1%nat) in
  0 < 1 /\ reachable 1 [Blue; Green] s
  /\ step 1%nat s = None
  /\ (all_done s \/ can_move s)
  /\ (measure s <= 38 * 2)%nat
  /\ (forall sched s', run sched s = Some s' ->
        (length sched <= measure s)%nat /\ (stuck s' -> all_done s')).
Proof.
  intros s. split; [lia|]. split; [apply after_reachable|].
  split; [vm_compute; reflexivity|].
  apply (no_deadlock_no_starvation 1 [Blue; Green] s);
    [lia|apply after_reachable].
Defined.



(** C5. [Lightswitch.unlock], called with its mutex free: it subtracts one
    from [counter]; it releases [blue_green_mutex] exactly when [counter]
    has become 0, and performs no operation on it otherwise.  It never
    blocks on anything but the mutex of the lightswitch, and it blocks on
    that one exactly when it is taken.

    The decrement is atomic.  The method is the statements of lines
    136-147 of a thread, and while a thread is between its
    [self.mutex.acquire()] and its [self.mutex.release()] in [unlock], the
    mutex of its lightswitch is taken, no other thread is inside [lock] or
    [unlock] of that lightswitch, and no statement of another thread
    changes its counter: the value tested in line 143 is the one written
    in line 139. *)
Theorem unlock_spec (l : Lightswitch) (bg : Z) :
  0 < mutex l ->
  (counter l = 1 ->
     Method.call Method.unlock l bg
     = Some (Method.mkWorld (mkLightswitch 0 (color l) (mutex l)) (bg + 1)
               [Method.AcquireMutex; Method.ReleaseBG; Method.ReleaseMutex]))
  /\ (counter l <> 1 ->
        Method.call Method.unlock l bg
        = Some (Method.mkWorld
                  (mkLightswitch (counter l - 1) (color l) (mutex l)) bg
                  [Method.AcquireMutex; Method.ReleaseMutex]))
  /\ (exists w, Method.call Method.unlock l bg = Some w
        /\ counter (Method.self w) = counter l - 1
        /\ (Method.touches_bg w = true <-> counter (Method.self w) = 0)
        /\ (Method.touches_bg w = false ->
              Method.blue_green_mutex w = bg))
  /\ (forall l' bg',
        Method.call Method.unlock l' bg' = None <-> mutex l' <= 0)
  /\ (forall sh t w,
        pc t = UnlockMutexAcquire ->
        Method.call Method.unlock (in_room_of (tcolor t) sh)
                    (blue_green_mutex sh) = Some w ->
        exists n sh' t',
          solo n sh t = Some (sh', t')
          /\ pc t' = Done
          /\ in_room_of (tcolor t) sh' = Method.self w
          /\ blue_green_mutex sh' = Method.blue_green_mutex w)
  /\ (forall slots colors s i t,
        0 < slots -> reachable slots colors s -> threads s !! i = Some t ->
        pc t = UnlockDecr \/ pc t = UnlockTest
        \/ pc t = UnlockBgRelease \/ pc t = UnlockMutexRelease ->
        mutex (in_room_of (tcolor t) (shared s)) = 0
        /\ (forall j tj, j <> i -> threads s !! j = Some tj ->
              in_mutex (tcolor t) (tcolor tj) (pc tj) = false)
        /\ (forall j s', j <> i -> step j s = Some s' ->
              in_room_of (tcolor t) (shared s')
              = in_room_of (tcolor t) (shared s)
              /\ threads s' !! i = Some t)).
Proof.
  intros Hm. split_all.
  - destruct l as [n c m]. cbn [counter color mutex] in *.
    intros ->. method_cases; try lia. same_world.
  - destruct l as [n c m]. cbn [counter color mutex] in *.
    intros Hn. method_cases; try lia. same_world.
  - destruct l as [n c m]. cbn [counter color mutex] in *.
    method_cases; try lia; eexists; (split; [reflexivity|]); cbn;
      (split; [reflexivity|]);
      (split; [split; intros; first [lia | reflexivity | discriminate]|]);
      intros; first [discriminate | reflexivity].
  - intros [n c m] bg'. cbn [mutex].
    method_cases; split; intros H;
      first [reflexivity | discriminate | lia | exfalso; lia].
  - intros sh t w. apply unlock_refines.
  - intros slots colors s i t Hs Hr Hi Hpc.
    apply (inside_mutex slots colors s i t Hs Hr Hi).
    unfold in_mutex. destruct (tcolor t);
      destruct Hpc as [-> | [-> | [-> | ->]]]; reflexivity.
Qed.

Lemma unlock_spec_witness :
  0 < mutex (mkLightswitch 1 Blue 1)
  /\ Method.call Method.unlock (mkLightswitch 1 Blue 1) 0
     = Some (Method.mkWorld (mkLightswitch 0 Blue 1) 1
               [Method.AcquireMutex; Method.ReleaseBG; Method.ReleaseMutex]).
Proof.
  split; [reflexivity|].
  apply (proj1 (unlock_spec (mkLightswitch 1 Blue 1) 0 eq_refl)). reflexivity.
Defined.

(** C10. From a lightswitch with [counter >= 0], its mutex free and
    [blue_green_mutex] free whenever [counter] is 0, [lock] followed by
    [unlock] returns and leaves the lightswitch and [blue_green_mutex] as
    they were: [blue_green_mutex] is acquired by [lock] exactly when
    [unlock] releases it, which is exactly when [counter] was 0. *)
Theorem lock_unlock_identity (l : Lightswitch) (bg : Z) :
  0 <= counter l -> 0 < mutex l -> (counter l = 0 -> 0 < bg) ->
  exists w1 w2,
    Method.call Method.lock l bg = Some w1
    /\ Method.call Method.unlock (Method.self w1) (Method.blue_green_mutex w1)
       = Some w2
    /\ Method.self w2 = l
    /\ Method.blue_green_mutex w2 = bg
    /\ Method.touches_bg w1 = Method.touches_bg w2
    /\ (Method.touches_bg w1 = true <-> counter l = 0).
Proof.
  intros Hc Hm Hbg. destruct l as [n c m]. cbn [counter color mutex] in *.
  destruct (Z.eq_dec n 0) as [->|Hn].
  - specialize (Hbg eq_refl).
    eexists. eexists. split; [method_cases; try lia; reflexivity|].
    cbn. split; [method_cases; try lia; reflexivity|]. cbn.
    split; [same_world|]. split; [lia|]. split; [reflexivity|].
    split; intros; reflexivity.
  - eexists. eexists. split; [method_cases; try lia; reflexivity|].
    cbn. split; [method_cases; try lia; reflexivity|]. cbn.
    split; [same_world|]. split; [reflexivity|]. split; [reflexivity|].
    split; intros; [discriminate|lia].
Qed.

Lemma lock_unlock_identity_witness :
  0 <= counter (Lightswitch_init Green) /\ 0 < mutex (Lightswitch_init Green)
  /\ (counter (Lightswitch_init Green) = 0 -> 0 < 1)
  /\ exists w1 w2,
       Method.call Method.lock (Lightswitch_init Green) 1 = Some w1
       /\ Method.call Method.unlock (Method.self w1) (Method.blue_green_mutex w1)
          = Some w2
       /\ Method.self w2 = Lightswitch_init Green
       /\ Method.blue_green_mutex w2 = 1
       /\ Method.touches_bg w1 = Method.touches_bg w2
       /\ (Method.touches_bg w1 = true <-> counter (Lightswitch_init Green) = 0).
Proof.
  split; [simpl; lia|]. split; [reflexivity|]. split; [lia|].
  apply (lock_unlock_identity (Lightswitch_init Green) 1);
    [simpl; lia|reflexivity|lia].
Defined.

(** C6. The input validation raises exactly when the number of slots is
    not positive, or a number of threads is negative, or both numbers of
    threads are 0; the program then has no state and no thread.  Otherwise
    nothing is raised and the threads are created. *)
Theorem configure_spec (slots blue green : Z) (sh : list Color -> list Color) :
  ((exists e, configure slots blue green = inl e)
   <-> (slots <= 0 \/ blue < 0 \/ green < 0 \/ (blue = 0 /\ green = 0)))
  /\ ((exists e, main slots blue green sh = inl e)
      <-> (exists e, configure slots blue green = inl e))
  /\ ((exists e, configure slots blue green = inl e)
      \/ (configure slots blue green = inr (mkConfig slots blue green)
          /\ main slots blue green sh
             = inr (init slots (sh (replicate (Z.to_nat blue) Blue
                                    ++ replicate (Z.to_nat green) Green))))).
Proof.
  unfold main, configure.
  destruct (slots <=? 0) eqn:E1; [apply Z.leb_le in E1|apply Z.leb_gt in E1].
  { split; [split; [intros _; lia|eauto]|split; [split; eauto|eauto]]. }
  destruct (blue <? 0) eqn:E2; [apply Z.ltb_lt in E2|apply Z.ltb_ge in E2].
  { split; [split; [intros _; lia|eauto]|split; [split; eauto|eauto]]. }
  destruct (green <? 0) eqn:E3; [apply Z.ltb_lt in E3|apply Z.ltb_ge in E3].
  { split; [split; [intros _; lia|eauto]|split; [split; eauto|eauto]]. }
  destruct (blue =? 0) eqn:E4; [apply Z.eqb_eq in E4|apply Z.eqb_neq in E4];
    (destruct (green =? 0) eqn:E5; [apply Z.eqb_eq in E5|apply Z.eqb_neq in E5]);
    cbn [andb].
  { split; [split; [intros _; lia|eauto]|split; [split; eauto|eauto]]. }
  all: split; [split; [intros [e He]; discriminate|lia]|];
    (split; [split; intros [e He]; discriminate|right; split; reflexivity]).
Qed.

(** C7. The numbers stored by [current_thread_id = thread_id] are pairwise
    distinct over all threads of both colours, and each one is larger than
    every number stored before it. *)
Theorem ids_unique_increasing (slots : Z) (colors : list Color) (s : State) :
  0 < slots -> reachable slots colors s ->
  (forall i j ti tj a b,
      i <> j -> threads s !! i = Some ti -> threads s !! j = Some tj ->
      current_thread_id ti = Some a -> current_thread_id tj = Some b ->
      a <> b)
  /\ (forall i t s',
        threads s !! i = Some t -> pc t = EnterAssign ->
        step i s = Some s' ->
        exists t', threads s' !! i = Some t'
          /\ current_thread_id t' = Some (thread_id (shared s))
          /\ forall j tj b, j <> i -> threads s !! j = Some tj ->
               current_thread_id tj = Some b -> b < thread_id (shared s)).
Proof.
  intros Hs Hr.
  pose proof (Inv_reachable _ _ _ (Z.lt_le_incl _ _ Hs) Hr) as HI.
  destruct (ids_reachable _ _ _ (Z.lt_le_incl _ _ Hs) Hr) as [Hb Hd].
  split; [exact Hd|].
  intros i t s' Hi Hpc Hstep.
  destruct (step_inversion s s' i Hstep) as (t0 & sh' & t' & Hi0 & Hts & ->).
  rewrite Hi in Hi0. injection Hi0 as <-.
  exists t'. cbn [threads]. split; [|split].
  - apply list_lookup_insert_eq. eapply lookup_lt_Some; eauto.
  - destruct t as [c p cur hd]. cbn [pc] in Hpc. subst p.
    destruct c; cbn in Hts; injection Hts as <- <-; reflexivity.
  - eapply assign_fresh; eauto.
Qed.

Lemma ids_unique_increasing_witness :
  let s := after 2 [Blue; Blue] (replicate 21 0%nat ++ replicate 12 1%nat) in
  0 < 2 /\ reachable 2 [Blue; Blue] s
  /\ (exists t, threads s !! 1%nat = Some t /\ pc t = EnterAssign)
  /\ (exists t0, threads s !! 0%nat = Some t0
                 /\ current_thread_id t0 = Some 1)
  /\ thread_id (shared s) = 2
  /\ (forall i j ti tj a b,
        i <> j -> threads s !! i = Some ti -> threads s !! j = Some tj ->
        current_thread_id ti = Some a -> current_thread_id tj = Some b ->
        a <> b).
Proof.
  intros s. split; [lia|]. split; [apply after_reachable|].
  split; [eexists; split; vm_compute; reflexivity|].
  split; [eexists; split; vm_compute; reflexivity|].
  split; [vm_compute; reflexivity|].
  apply (ids_unique_increasing 2 [Blue; Blue] s); [lia|apply after_reachable].
Defined.

(** C8, amended. A thread that has released its permit and not yet
    decremented [room_ctr] is still inside the same [with room_mutex:]
    block: the lock is taken, the thread holds it and no longer holds the
    permit, no other thread is inside a [with room_mutex:] block, and
    [room_ctr] is still within the capacity.  The released permit itself
    can be taken at once: there is such a state in which another thread
    executes [num_allowed_blue.acquire()]. *)
Theorem exit_in_one_section (slots : Z) (colors : list Color) (s : State)
    (i : nat) (t : Thread) :
  0 < slots -> reachable slots colors s ->
  threads s !! i = Some t -> pc t = ExitCtrDecr ->
  (room_mutex (shared s) = true
   /\ held t = [RRoomMutex]
   /\ (forall j tj, j <> i -> threads s !! j = Some tj ->
         in_room_mutex (tcolor tj) (pc tj) = false)
   /\ room_ctr (shared s) <= slots)
  /\ (exists s0 s1 t0 t1 t1',
        reachable 1 [Blue; Blue] s0
        /\ threads s0 !! 0%nat = Some t0 /\ pc t0 = ExitCtrDecr
        /\ threads s0 !! 1%nat = Some t1 /\ pc t1 = AllowedAcquire
        /\ room_ctr (shared s0) = 1
        /\ step 1%nat s0 = Some s1
        /\ threads s1 !! 1%nat = Some t1' /\ pc t1' = InitCurrentId
        /\ num_allowed_blue (shared s1) = 0
        /\ room_ctr (shared s1) = 1).
Proof.
  intros Hs Hr Hi Hpc. split.
  - pose proof (Inv_reachable _ _ _ (Z.lt_le_incl _ _ Hs) Hr) as HI.
    assert (Hrm : in_room_mutex (tcolor t) (pc t) = true)
      by (rewrite Hpc; reflexivity).
    destruct (room_mutex_exclusive _ _ _ _ HI Hi Hrm) as [Hlocked Hz].
    split; [exact Hlocked|]. split; [|split].
    + assert (Hin : t ∈ threads s) by (eapply list_elem_of_lookup_2; eauto).
      destruct (held_reachable _ _ _ Hr t Hin) as [Hc|Hh]; [congruence|].
      rewrite Hh, Hpc. reflexivity.
    + intros j tj Hne Hj.
      destruct (in_room_mutex (tcolor tj) (pc tj)) eqn:E; [|reflexivity].
      exfalso.
      assert (Hj' : (take i (threads s) ++ drop (S i) (threads s))
                      !! (if decide (j < i)%nat then j else pred j) = Some tj).
      { destruct (decide (j < i)%nat) as [Hlt|Hge].
        - rewrite lookup_app_l by (rewrite length_take; apply lookup_lt_Some in Hi; lia).
          rewrite lookup_take_lt by exact Hlt. exact Hj.
        - assert (Hlen : length (take i (threads s)) = i)
            by (rewrite length_take; apply lookup_lt_Some in Hi; lia).
          rewrite lookup_app_r by (rewrite Hlen; lia).
          rewrite Hlen, lookup_drop.
          replace (S i + (pred j - i))%nat with j by lia. exact Hj. }
      pose proof (cnt_member_pos _ _ _ _ Hj' E). lia.
    + destruct HI as (HC & _). unfold inv_common in HC. destruct_ands. lia.
  - exists (after 1 [Blue; Blue] (replicate 7 0%nat ++ replicate 6 1%nat
                                  ++ replicate 17 0%nat)).
    eexists. eexists. eexists. eexists.
    split; [apply after_reachable|].
    split; [vm_compute; reflexivity|]. split; [reflexivity|].
    split; [vm_compute; reflexivity|]. split; [reflexivity|].
    split; [vm_compute; reflexivity|].
    split; [vm_compute; reflexivity|].
    split; [vm_compute; reflexivity|]. split; [reflexivity|].
    split; reflexivity.
Qed.

Lemma exit_in_one_section_witness :
  let s := after 1 [Blue; Blue] (replicate 24 0%nat) in
  let t := mkThread Blue ExitCtrDecr (Some 1) [RRoomMutex] in
  0 < 1 /\ reachable 1 [Blue; Blue] s
  /\ threads s !! 0%nat = Some t /\ pc t = ExitCtrDecr
  /\ room_mutex (shared s) = true
  /\ held t = [RRoomMutex].
Proof.
  intros s t.
  assert (Hi : threads s !! 0%nat = Some t) by (vm_compute; reflexivity).
  split; [lia|]. split; [apply after_reachable|].
  split; [exact Hi|]. split; [reflexivity|].
  destruct (exit_in_one_section 1 [Blue; Blue] s 0%nat t) as [(H1 & H2 & _) _];
    [lia|apply after_reachable|exact Hi|reflexivity|].
  split; [exact H1|exact H2].
Defined.

(** C8 as worded fails: no reachable state has a thread between the
    release and the decrement with [room_mutex] free. *)
Lemma exit_in_separate_sections_false : ~ exit_in_separate_sections.
Proof.
  intros (slots & colors & s & i & t & Hs & Hr & Hi & Hpc & Hfree).
  pose proof (Inv_reachable _ _ _ (Z.lt_le_incl _ _ Hs) Hr) as HI.
  assert (Hrm : in_room_mutex (tcolor t) (pc t) = true)
    by (rewrite Hpc; reflexivity).
  destruct (room_mutex_exclusive _ _ _ _ HI Hi Hrm) as [Hlocked _].
  congruence.
Qed.

(** C9, amended. At [turnstile.acquire()], its first statement, a thread
    has acquired nothing: it is as it was created.  At [num_allowed.acquire()] it has released the
    turnstile and the mutex of its lightswitch and holds no guard and no
    permit; [blue_green_mutex], which is not a guard, is taken for its
    colour at that point, by this thread or by an earlier one of its
    colour, and stays taken while the thread waits.  At
    [blue_green_mutex.acquire()] inside [Lightswitch.lock] a thread holds
    the mutex of its lightswitch and the turnstile, and no other guard.
    [room_mutex] and the lock of [safe_print] are never held across one of
    the three waits. *)
Theorem guards_at_waits (slots : Z) (colors : list Color) (s : State)
    (i : nat) (t : Thread) :
  reachable slots colors s -> threads s !! i = Some t ->
  (pc t = TurnstileAcquire -> held t = [] /\ t = new_thread (tcolor t))
  /\ (pc t = AllowedAcquire -> held t = [])
  /\ (pc t = LockBgAcquire -> held t = [RMutex (tcolor t); RTurnstile])
  /\ (blocking_wait (pc t) = true ->
        (RRoomMutex ∉ held t) /\ (RPrintLock ∉ held t))
  /\ (0 < slots -> pc t = AllowedAcquire ->
        blue_green_mutex (shared s) = 0
        /\ 0 < counter (in_room_of (tcolor t) (shared s))
        /\ 0 < cnt (owns_bg (tcolor t)) (threads s)
        /\ cnt (owns_bg (other (tcolor t))) (threads s) = 0
        /\ (forall j s', j <> i -> step j s = Some s' ->
              blue_green_mutex (shared s') = 0)).
Proof.
  intros Hr Hi.
  assert (Hin : t ∈ threads s) by (eapply list_elem_of_lookup_2; eauto).
  assert (Hheld : pc t <> Crashed -> held t = held_at (tcolor t) (pc t)).
  { intros Hn. destruct (held_reachable _ _ _ Hr t Hin) as [Hc|Hh];
      [contradiction|exact Hh]. }
  split; [|split; [|split; [|split]]].
  - intros Hpc.
    assert (Hh : held t = []).
    { rewrite Hheld by (rewrite Hpc; discriminate). rewrite Hpc. reflexivity. }
    split; [exact Hh|].
    destruct (id_state_reachable _ _ _ Hr t Hin) as [Hc|Hid]; [congruence|].
    rewrite Hpc in Hid. cbn in Hid.
    destruct t as [c p cur hd]. cbn in *. subst. reflexivity.
  - intros Hpc.
    rewrite Hheld by (rewrite Hpc; discriminate). rewrite Hpc. reflexivity.
  - intros Hpc.
    rewrite Hheld by (rewrite Hpc; discriminate). rewrite Hpc. reflexivity.
  - intros Hw.
    assert (Hn : pc t <> Crashed) by (intros E; rewrite E in Hw; discriminate).
    rewrite (Hheld Hn).
    destruct (pc t) as [| | | | | | | | | | | | | | | | | | | | | | | | | | [] [] | |];
      try discriminate Hw; cbn; rewrite ?not_elem_of_cons; split_all;
      first [discriminate | apply not_elem_of_nil].
  - intros Hs Hpc.
    assert (Hown : owns_bg (tcolor t) (tcolor t) (pc t) = true)
      by (rewrite Hpc; destruct (tcolor t); reflexivity).
    assert (Hreg : registered (tcolor t) (tcolor t) (pc t) = true)
      by (rewrite Hpc; destruct (tcolor t); reflexivity).
    assert (Hfacts : forall s0, reachable slots colors s0 ->
              threads s0 !! i = Some t ->
              blue_green_mutex (shared s0) = 0
              /\ 0 < counter (in_room_of (tcolor t) (shared s0))
              /\ 0 < cnt (owns_bg (tcolor t)) (threads s0)
              /\ cnt (owns_bg (other (tcolor t))) (threads s0) = 0).
    { intros s0 Hr0 Hi0.
      pose proof (Inv_reachable _ _ _ (Z.lt_le_incl _ _ Hs) Hr0) as HI.
      pose proof (cnt_member_pos _ _ _ _ Hi0 Hown) as Hpos.
      pose proof (cnt_member_pos _ _ _ _ Hi0 Hreg) as Hpos'.
      destruct HI as (HC & HB & HG). unfold inv_common, inv_color in *.
      destruct (tcolor t); cbn [other in_room_of] in *; destruct_ands;
        split_all; lia. }
    destruct (Hfacts s Hr Hi) as (H1 & H2 & H3 & H4).
    split_all; try assumption.
    intros j s' Hne Hstep.
    assert (Hi' : threads s' !! i = Some t).
    { destruct (step_inversion s s' j Hstep)
        as (tj & sh' & tj' & Hj & Hts & ->).
      cbn [threads]. rewrite list_lookup_insert_ne by exact Hne. exact Hi. }
    apply (Hfacts s' (reach_step _ _ _ _ _ Hr Hstep) Hi').
Qed.

Lemma guards_at_waits_witness :
  let s := after 1 [Blue; Green] (replicate 7 0%nat ++ replicate 4 1%nat) in
  let t := mkThread Green LockBgAcquire None [RMutex Green; RTurnstile] in
  let s2 := after 1 [Blue; Blue] (replicate 7 0%nat ++ replicate 7 1%nat) in
  let t2 := mkThread Blue AllowedAcquire None [] in
  (reachable 1 [Blue; Green] s /\ threads s !! 1%nat = Some t
   /\ step 1%nat s = None
   /\ held t = [RMutex (tcolor t); RTurnstile])
  /\ (reachable 1 [Blue; Blue] s2 /\ threads s2 !! 0%nat = Some t2
      /\ step 0%nat s2 = None
      /\ held t2 = []
      /\ blue_green_mutex (shared s2) = 0).
Proof.
  intros s t s2 t2.
  assert (Hi : threads s !! 1%nat = Some t) by (vm_compute; reflexivity).
  assert (Hi2 : threads s2 !! 0%nat = Some t2) by (vm_compute; reflexivity).
  assert (Hpos : 0 < 1) by lia.
  split.
  - split; [apply after_reachable|]. split; [exact Hi|].
    split; [vm_compute; reflexivity|].
    destruct (guards_at_waits 1 [Blue; Green] s 1%nat t
                (after_reachable _ _ _) Hi) as (_ & _ & Hh & _).
    exact (Hh eq_refl).
  - split; [apply after_reachable|]. split; [exact Hi2|].
    split; [vm_compute; reflexivity|].
    destruct (guards_at_waits 1 [Blue; Blue] s2 0%nat t2
                (after_reachable _ _ _) Hi2) as (_ & Hh & _ & _ & Hbg).
    split; [exact (Hh eq_refl)|].
    exact (proj1 (Hbg Hpos eq_refl)).
Defined.

(** C9 as worded fails: with one slot, a blue thread past its [lock] and
    a green thread arriving, the green thread waits for [blue_green_mutex]
    while holding the mutex of [green_in_room]. *)
Lemma guards_released_before_waits_false :
  ~ guards_released_before_waits 1 [Blue; Green].
Proof.
  intros H.
  specialize (H (after 1 [Blue; Green] (replicate 7 0%nat ++ replicate 4 1%nat))
                1%nat
                (mkThread Green LockBgAcquire None [RMutex Green; RTurnstile])
                (RMutex Green)).
  assert (E : is_guard (RMutex Green) = false).
  { apply H.
    - apply after_reachable.
    - vm_compute. reflexivity.
    - reflexivity.
    - apply list_elem_of_here. }
  discriminate E.
Qed.

(** * Further properties of the program, X1 to X18 *)

(** X1. No thread ever dies of [RuntimeError]: every exit of a
    [with room_mutex:] block and of the [with lock:] block of [safe_print]
    finds its lock locked. *)
Theorem no_runtime_error (slots : Z) (colors : list Color) (s : State)
    (i : nat) (t : Thread) :
  0 < slots -> reachable slots colors s -> threads s !! i = Some t ->
  pc t <> Crashed
  /\ (pc t = EnterRoomRelease \/ pc t = ExitRoomRelease ->
        room_mutex (shared s) = true)
  /\ (forall site, pc t = Print site ReleaseLock ->
        print_lock (shared s) = true)
  /\ (forall s' t', step i s = Some s' -> threads s' !! i = Some t' ->
        pc t' <> Crashed).
Proof.
  intros Hs Hr Hi.
  pose proof (Inv_reachable _ _ _ (Z.lt_le_incl _ _ Hs) Hr) as HI.
  assert (Hin : t ∈ threads s) by (eapply list_elem_of_lookup_2; eauto).
  split_all.
  - exact (no_crash slots colors s t (Z.lt_le_incl _ _ Hs) Hr Hin).
  - intros Hpc.
    assert (Hrm : in_room_mutex (tcolor t) (pc t) = true)
      by (destruct Hpc as [-> | ->]; reflexivity).
    apply (room_mutex_exclusive _ _ _ _ HI Hi Hrm).
  - intros site Hpc. destruct HI as (HC & _). unfold inv_common in HC.
    destruct HC as (Hpl & _).
    assert (0 < cnt in_print_lock (threads s)).
    { eapply cnt_member_pos; [exact Hi|]. rewrite Hpc. destruct site; reflexivity. }
    destruct (print_lock (shared s)); [reflexivity|simpl in Hpl; lia].
  - intros s' t' Hstep Hi'.
    eapply (no_crash slots colors s'); [lia| |].
    + eapply reach_step; eauto.
    + eapply list_elem_of_lookup_2; eauto.
Qed.

Lemma no_runtime_error_witness :
  let s := after 1 [Blue; Blue] (replicate 20 0%nat) in
  let t := mkThread Blue EnterRoomRelease (Some 1) [RRoomMutex; RAllowed Blue] in
  0 < 1 /\ reachable 1 [Blue; Blue] s /\ threads s !! 0%nat = Some t
  /\ pc t <> Crashed /\ room_mutex (shared s) = true.
Proof.
  intros s t.
  assert (Hi : threads s !! 0%nat = Some t) by (vm_compute; reflexivity).
  split; [lia|]. split; [apply after_reachable|]. split; [exact Hi|].
  destruct (no_runtime_error 1 [Blue; Blue] s 0%nat t) as (H1 & H2 & _);
    [lia|apply after_reachable|exact Hi|].
  split; [exact H1|]. apply H2. left. reflexivity.
Defined.

(** X2. Critical sections are exclusive: no two threads are at the same
    time inside [with room_mutex:] blocks, inside [with lock:] of
    [safe_print], between [turnstile.acquire()] and [turnstile.release()],
    or inside the methods of the same lightswitch. *)
Theorem critical_sections_exclusive (slots : Z) (colors : list Color)
    (s : State) (f : Region) (i j : nat) (ti tj : Thread) :
  0 < slots -> reachable slots colors s ->
  f ∈ [in_room_mutex; in_print_lock; in_turnstile;
       in_mutex Blue; in_mutex Green] ->
  i <> j -> threads s !! i = Some ti -> threads s !! j = Some tj ->
  f (tcolor ti) (pc ti) = true -> f (tcolor tj) (pc tj) = false.
Proof.
  intros Hs Hr Hf Hne Hi Hj Hin.
  pose proof (Inv_reachable _ _ _ (Z.lt_le_incl _ _ Hs) Hr) as (HC & HB & HG).
  assert (Hone : cnt f (threads s) <= 1).
  { unfold inv_common, inv_color in *. destruct_ands.
    pose proof (b2z_range (print_lock (shared s))).
    pose proof (b2z_range (room_mutex (shared s))).
    repeat (apply elem_of_cons in Hf as [->|Hf]; [lia|]).
    inversion Hf. }
  exact (cnt_at_most_one f (threads s) i j ti tj Hone Hi Hin
           (not_eq_sym Hne) Hj).
Qed.

Lemma critical_sections_exclusive_witness :
  let s := after 1 [Blue; Blue] (replicate 12 0%nat ++ replicate 5 1%nat) in
  let ti := mkThread Blue EnterTest None [RRoomMutex; RAllowed Blue] in
  let tj := mkThread Blue TurnstileRelease None [RTurnstile] in
  0 < 1 /\ reachable 1 [Blue; Blue] s
  /\ threads s !! 0%nat = Some ti /\ threads s !! 1%nat = Some tj
  /\ in_room_mutex (tcolor ti) (pc ti) = true
  /\ in_room_mutex (tcolor tj) (pc tj) = false.
Proof.
  intros s ti tj.
  assert (Hi : threads s !! 0%nat = Some ti) by (vm_compute; reflexivity).
  assert (Hj : threads s !! 1%nat = Some tj) by (vm_compute; reflexivity).
  split; [lia|]. split; [apply after_reachable|].
  split; [exact Hi|]. split; [exact Hj|]. split; [reflexivity|].
  apply (critical_sections_exclusive 1 [Blue; Blue] s in_room_mutex
           0%nat 1%nat ti tj);
    [lia|apply after_reachable|apply list_elem_of_here|lia|exact Hi|exact Hj
    |reflexivity].
Defined.

(** X3. Every semaphore stays between 0 and its initial value: the
    turnstile, [blue_green_mutex] and the mutex of each lightswitch are 0
    or 1, and each multiplexer is between 0 and [num_slots]. *)
Theorem semaphores_stay_bounded (slots : Z) (colors : list Color) (s : State) :
  0 < slots -> reachable slots colors s ->
  0 <= turnstile (shared s) <= 1
  /\ 0 <= blue_green_mutex (shared s) <= 1
  /\ (forall c, 0 <= mutex (in_room_of c (shared s)) <= 1)
  /\ (forall c, 0 <= num_allowed_of c (shared s) <= slots).
Proof.
  intros Hs Hr.
  pose proof (Inv_reachable _ _ _ (Z.lt_le_incl _ _ Hs) Hr) as (HC & HB & HG).
  unfold inv_common, inv_color in *. destruct_ands.
  pose proof (cnt_nonneg in_turnstile (threads s)).
  pose proof (cnt_nonneg (in_mutex Blue) (threads s)).
  pose proof (cnt_nonneg (in_mutex Green) (threads s)).
  pose proof (cnt_nonneg (has_permit Blue) (threads s)).
  pose proof (cnt_nonneg (has_permit Green) (threads s)).
  cbn [in_room_of num_allowed_of] in *.
  split_all;
    try match goal with
        | |- forall c : Color, _ => intros []; cbn [in_room_of num_allowed_of]
        end;
    lia.
Qed.

Lemma semaphores_stay_bounded_witness :
  let s := after 2 [Blue; Green] (replicate 38 0%nat ++ replicate 9 1%nat) in
  0 < 2 /\ reachable 2 [Blue; Green] s
  /\ blue_green_mutex (shared s) = 0
  /\ num_allowed_green (shared s) = 1
  /\ 0 <= turnstile (shared s) <= 1
  /\ (forall c, 0 <= num_allowed_of c (shared s) <= 2).
Proof.
  intros s. split; [lia|]. split; [apply after_reachable|].
  split; [vm_compute; reflexivity|]. split; [vm_compute; reflexivity|].
  destruct (semaphores_stay_bounded 2 [Blue; Green] s) as (H1 & _ & _ & H4);
    [lia|apply after_reachable|].
  split; [exact H1|exact H4].
Defined.

(** X4. Permits are conserved: the value of a multiplexer plus the number
    of threads of its colour between [num_allowed.acquire()] and
    [num_allowed.release()] is [num_slots].  While one colour owns
    [blue_green_mutex], the multiplexer of the other colour is full. *)
Theorem permits_are_conserved (slots : Z) (colors : list Color) (s : State)
    (c : Color) :
  0 < slots -> reachable slots colors s ->
  num_allowed_of c (shared s) + cnt (has_permit c) (threads s) = slots
  /\ cnt (has_permit c) (threads s) <= cnt (owns_bg c) (threads s)
  /\ (0 < cnt (owns_bg c) (threads s) ->
        num_allowed_of (other c) (shared s) = slots
        /\ cnt (has_permit (other c)) (threads s) = 0).
Proof.
  intros Hs Hr.
  pose proof (Inv_reachable _ _ _ (Z.lt_le_incl _ _ Hs) Hr) as (HC & HB & HG).
  pose proof (facts_color_holds Blue (threads s)) as Fb.
  pose proof (facts_color_holds Green (threads s)) as Fg.
  unfold inv_common, inv_color, facts_color in *. destruct_ands.
  destruct c; cbn [other num_allowed_of] in *; split_all; intros; lia.
Qed.

Lemma permits_are_conserved_witness :
  let s := after 3 [Blue; Blue; Green]
                 (replicate 21 0%nat ++ replicate 17 1%nat) in
  0 < 3 /\ reachable 3 [Blue; Blue; Green] s
  /\ num_allowed_blue (shared s) = 1
  /\ cnt (has_permit Blue) (threads s) = 2
  /\ num_allowed_of Blue (shared s) + cnt (has_permit Blue) (threads s) = 3.
Proof.
  intros s. split; [lia|]. split; [apply after_reachable|].
  split; [vm_compute; reflexivity|]. split; [vm_compute; reflexivity|].
  destruct (permits_are_conserved 3 [Blue; Blue; Green] s Blue) as [H _];
    [lia|apply after_reachable|exact H].
Defined.

(** X5. The counter of a lightswitch is the number of threads of its
    colour between their [self.counter += 1] and their
    [self.counter -= 1]; it is never negative and its colour never
    changes.  While no thread is inside a lightswitch method,
    [blue_green_mutex] is free exactly when both counters are 0, and the
    two counters are never both positive. *)
Theorem lightswitch_counter_counts (slots : Z) (colors : list Color) (s : State) :
  0 < slots -> reachable slots colors s ->
  (forall c, counter (in_room_of c (shared s)) = cnt (registered c) (threads s)
             /\ 0 <= counter (in_room_of c (shared s)) <= Z.of_nat (length colors)
             /\ color (in_room_of c (shared s)) = c)
  /\ (mutex (blue_in_room (shared s)) = 1 ->
      mutex (green_in_room (shared s)) = 1 ->
      (blue_green_mutex (shared s) = 1
       <-> counter (blue_in_room (shared s)) = 0
           /\ counter (green_in_room (shared s)) = 0)
      /\ (counter (blue_in_room (shared s)) = 0
          \/ counter (green_in_room (shared s)) = 0)).
Proof.
  intros Hs Hr.
  pose proof (Inv_reachable _ _ _ (Z.lt_le_incl _ _ Hs) Hr) as (HC & HB & HG).
  pose proof (color_reachable _ _ _ Hr) as [Cb Cg].
  pose proof (reachable_length _ _ _ Hr) as Hlen.
  pose proof (facts_color_holds Blue (threads s)) as Fb.
  pose proof (facts_color_holds Green (threads s)) as Fg.
  pose proof (cnt_le_length (registered Blue) (threads s)).
  pose proof (cnt_le_length (registered Green) (threads s)).
  unfold inv_common, inv_color, facts_color in *. cbn [in_room_of] in *.
  destruct_ands. split.
  - intros []; cbn [in_room_of]; split_all; first [assumption | lia].
  - intros Mb Mg. split; [split|]; [intros; split| intros []|]; lia.
Qed.

Lemma lightswitch_counter_counts_witness :
  let s := after 2 [Blue; Blue; Green]
                 (replicate 21 0%nat ++ replicate 17 1%nat) in
  0 < 2 /\ reachable 2 [Blue; Blue; Green] s
  /\ counter (blue_in_room (shared s)) = 2
  /\ mutex (blue_in_room (shared s)) = 1
  /\ blue_green_mutex (shared s) = 0
  /\ (forall c, counter (in_room_of c (shared s)) = cnt (registered c) (threads s)
                /\ 0 <= counter (in_room_of c (shared s)) <= 3
                /\ color (in_room_of c (shared s)) = c).
Proof.
  intros s. split; [lia|]. split; [apply after_reachable|].
  split; [vm_compute; reflexivity|]. split; [vm_compute; reflexivity|].
  split; [vm_compute; reflexivity|].
  apply (lightswitch_counter_counts 2 [Blue; Blue; Green] s);
    [lia|apply after_reachable].
Defined.

(** X6. The turnstile stops overtaking.  While a thread waits inside
    [lock] for [blue_green_mutex], it holds the turnstile: no thread at
    [turnstile.acquire()] can move, no thread of its own colour owns
    [blue_green_mutex], and no statement of another thread adds an owner
    of [blue_green_mutex] of either colour. *)
Theorem turnstile_blocks_overtaking (slots : Z) (colors : list Color)
    (s : State) (g : nat) (tg : Thread) :
  0 < slots -> reachable slots colors s ->
  threads s !! g = Some tg -> pc tg = LockBgAcquire ->
  turnstile (shared s) = 0
  /\ (forall k tk, threads s !! k = Some tk -> pc tk = TurnstileAcquire ->
        step k s = None)
  /\ cnt (owns_bg (tcolor tg)) (threads s) = 0
  /\ (blue_green_mutex (shared s) = 0 ->
        step g s = None /\ 0 < cnt (owns_bg (other (tcolor tg))) (threads s))
  /\ (forall j s', j <> g -> step j s = Some s' ->
        threads s' !! g = Some tg
        /\ forall d, cnt (owns_bg d) (threads s') <= cnt (owns_bg d) (threads s)).
Proof.
  intros Hs Hr Hg Hpc.
  pose proof (Inv_reachable _ _ _ (Z.lt_le_incl _ _ Hs) Hr) as (HC & HB & HG).
  assert (Hin : in_turnstile (tcolor tg) (pc tg) = true)
    by (rewrite Hpc; reflexivity).
  pose proof (cnt_member_pos _ _ _ _ Hg Hin) as Hpos.
  assert (Hts : turnstile (shared s) = 0)
    by (unfold inv_common in HC; destruct_ands; lia).
  assert (Hone : cnt in_turnstile (threads s) <= 1)
    by (unfold inv_common in HC; destruct_ands; lia).
  assert (Hown : cnt (owns_bg (tcolor tg)) (threads s) = 0).
  { pose proof (facts_color_holds (tcolor tg)
                  (take g (threads s) ++ drop (S g) (threads s))) as F.
    unfold inv_color, facts_color in *.
    destruct (tcolor tg) eqn:Ec;
      [clear HG; rewrite !(cnt_lookup _ _ g tg Hg) in HB
      |clear HB; rewrite !(cnt_lookup _ _ g tg Hg) in HG];
      rewrite (cnt_lookup _ _ g tg Hg); rewrite Hpc, Ec in *;
      simpl in *; destruct_ands; lia. }
  split; [exact Hts|]. split; [|split; [exact Hown|split]].
  - intros k tk Hk Hpk. unfold step. rewrite Hk.
    destruct tk as [c p cur hd]. cbn [pc] in Hpk. subst p.
    unfold thread_step. cbn [pc]. unfold sem_acquire. rewrite Hts. reflexivity.
  - intros Hbg. split.
    + unfold step. rewrite Hg. destruct tg as [c p cur hd]. cbn [pc] in Hpc.
      subst p. unfold thread_step. cbn [pc]. unfold sem_acquire.
      rewrite Hbg. reflexivity.
    + unfold inv_common in HC. destruct (tcolor tg); cbn [other];
        destruct_ands; lia.
  - intros j s' Hne Hstep.
    destruct (step_inversion s s' j Hstep) as (t & sh' & t' & Hj & Hst & ->).
    cbn [threads]. split.
    + rewrite list_lookup_insert_ne by exact Hne. exact Hg.
    + intros d. rewrite (cnt_insert _ _ j t t' Hj), (cnt_lookup _ _ j t Hj).
      assert (Hout : in_turnstile (tcolor t) (pc t) = false)
        by exact (cnt_at_most_one in_turnstile (threads s) g j tg t
                    Hone Hg Hin Hne Hj).
      destruct (thread_step_owner _ _ _ _ d Hst Hout) as [Hle _]. lia.
Qed.

Lemma turnstile_blocks_overtaking_witness :
  let s := after 1 [Blue; Green; Blue] (replicate 21 0%nat ++ replicate 4 1%nat) in
  let tg := mkThread Green LockBgAcquire None [RMutex Green; RTurnstile] in
  0 < 1 /\ reachable 1 [Blue; Green; Blue] s /\ threads s !! 1%nat = Some tg
  /\ pc tg = LockBgAcquire
  /\ turnstile (shared s) = 0
  /\ step 2%nat s = None.
Proof.
  intros s tg.
  assert (Hg : threads s !! 1%nat = Some tg) by (vm_compute; reflexivity).
  split; [lia|]. split; [apply after_reachable|]. split; [exact Hg|].
  split; [reflexivity|].
  destruct (turnstile_blocks_overtaking 1 [Blue; Green; Blue] s 1%nat tg)
    as (H1 & H2 & _); [lia|apply after_reachable|exact Hg|reflexivity|].
  split; [exact H1|].
  apply (H2 2%nat (new_thread Blue)); [vm_compute; reflexivity|reflexivity].
Defined.

(** X7. [safe_print] never waits in the thread functions: every call is
    made inside a [with room_mutex:] block, so a thread that reaches
    [with lock:] finds the lock free and enters at once, and at most one
    thread is inside [with lock:]. *)
Theorem safe_print_never_waits (slots : Z) (colors : list Color) (s : State)
    (i : nat) (t : Thread) (site : PrintSite) :
  0 < slots -> reachable slots colors s ->
  threads s !! i = Some t -> pc t = Print site AcquireLock ->
  print_lock (shared s) = false
  /\ RRoomMutex ∈ held t
  /\ cnt in_print_lock (threads s) = 0
  /\ exists s' t', step i s = Some s' /\ threads s' !! i = Some t'
       /\ pc t' = Print site DoPrint /\ print_lock (shared s') = true.
Proof.
  intros Hs Hr Hi Hpc.
  pose proof (Inv_reachable _ _ _ (Z.lt_le_incl _ _ Hs) Hr) as HI.
  assert (Hrm : in_room_mutex (tcolor t) (pc t) = true)
    by (rewrite Hpc; reflexivity).
  destruct (room_mutex_exclusive _ _ _ _ HI Hi Hrm) as [_ Hz].
  destruct HI as (HC & _). unfold inv_common in HC. destruct HC as (Hpl & _).
  assert (Hzero : cnt in_print_lock (threads s) = 0).
  { rewrite (cnt_lookup _ _ i t Hi), Hpc.
    pose proof (facts_common_holds (take i (threads s) ++ drop (S i) (threads s))) as F.
    unfold facts_common in F. destruct_ands. simpl. lia. }
  assert (Hfree : print_lock (shared s) = false).
  { rewrite Hzero in Hpl. destruct (print_lock (shared s)); [discriminate|reflexivity]. }
  split; [exact Hfree|]. split; [|split; [exact Hzero|]].
  - assert (Hin : t ∈ threads s) by (eapply list_elem_of_lookup_2; eauto).
    destruct (held_reachable _ _ _ Hr t Hin) as [Hc|Hh]; [congruence|].
    rewrite Hh, Hpc. destruct site; cbn; apply list_elem_of_here.
  - unfold step. rewrite Hi. destruct t as [c p cur hd]. cbn [pc] in Hpc. subst p.
    unfold thread_step. cbn [pc]. unfold safe_print_step, lock_acquire.
    rewrite Hfree. eexists. eexists. split; [reflexivity|]. cbn [threads shared].
    split; [apply list_lookup_insert_eq; eapply lookup_lt_Some; eauto|].
    split; reflexivity.
Qed.

Lemma safe_print_never_waits_witness :
  let s := after 1 [Green; Blue] (replicate 17 0%nat ++ [1%nat]) in
  let t := mkThread Green (Print SiteEnter AcquireLock) (Some 1)
                    [RRoomMutex; RAllowed Green] in
  0 < 1 /\ reachable 1 [Green; Blue] s /\ threads s !! 0%nat = Some t
  /\ pc t = Print SiteEnter AcquireLock
  /\ print_lock (shared s) = false.
Proof.
  intros s t.
  assert (Hi : threads s !! 0%nat = Some t) by (vm_compute; reflexivity).
  split; [lia|]. split; [apply after_reachable|]. split; [exact Hi|].
  split; [reflexivity|].
  apply (safe_print_never_waits 1 [Green; Blue] s 0%nat t SiteEnter);
    [lia|apply after_reachable|exact Hi|reflexivity].
Defined.

(** X8. [thread_id] is the number of threads that have executed
    [thread_id += 1]; it never exceeds the number of threads.  A thread
    has a number, between 1 and [thread_id], exactly when it has executed
    [current_thread_id = thread_id]; before that its
    [current_thread_id] is [None]. *)
Theorem thread_id_counts_entries (slots : Z) (colors : list Color) (s : State) :
  0 < slots -> reachable slots colors s ->
  thread_id (shared s) = cnt numbered (threads s)
  /\ 0 <= thread_id (shared s) <= Z.of_nat (length colors)
  /\ forall t, t ∈ threads s ->
       (assigned (pc t) = true ->
          exists a, current_thread_id t = Some a
                    /\ 1 <= a <= thread_id (shared s))
       /\ (assigned (pc t) = false -> current_thread_id t = None).
Proof.
  intros Hs Hr.
  pose proof (numbered_reachable _ _ _ Hr) as Hnum.
  pose proof (reachable_length _ _ _ Hr) as Hlen.
  pose proof (cnt_nonneg numbered (threads s)).
  pose proof (cnt_le_length numbered (threads s)).
  split; [exact Hnum|]. split; [lia|].
  intros t Ht.
  assert (Hnc : pc t <> Crashed)
    by exact (no_crash slots colors s t (Z.lt_le_incl _ _ Hs) Hr Ht).
  destruct (id_state_reachable _ _ _ Hr t Ht) as [Hc|Hst]; [contradiction|].
  split; intros Ha; rewrite Ha in Hst; [|exact Hst].
  destruct Hst as (a & Hcur & Hge). exists a. split; [exact Hcur|].
  destruct (ids_reachable _ _ _ (Z.lt_le_incl _ _ Hs) Hr) as [Hbd _].
  specialize (Hbd t a Ht Hcur).
  pose proof (cnt_nonneg id_pending (threads s)). lia.
Qed.

Lemma thread_id_counts_entries_witness :
  let s := after 2 [Blue; Blue] (replicate 21 0%nat ++ replicate 11 1%nat) in
  0 < 2 /\ reachable 2 [Blue; Blue] s
  /\ thread_id (shared s) = 2
  /\ thread_id (shared s) = cnt numbered (threads s).
Proof.
  intros s. split; [lia|]. split; [apply after_reachable|].
  split; [vm_compute; reflexivity|].
  destruct (thread_id_counts_entries 2 [Blue; Blue] s) as [H _];
    [lia|apply after_reachable|exact H].
Defined.

(** X9. When every thread has returned, every synchronisation object is
    back at its initial value, the room is empty, [thread_id] is the
    number of threads, no thread holds anything, and every thread has been
    given a number between 1 and the number of threads. *)
Theorem finished_run_restores_state (slots : Z) (colors : list Color)
    (s : State) :
  0 < slots -> reachable slots colors s -> all_done s ->
  shared s = mkShared false 1 1 (Lightswitch_init Blue) (Lightswitch_init Green)
                      slots slots (Z.of_nat (length colors)) 0 false
                      (stdout (shared s))
  /\ forall t, t ∈ threads s ->
       held t = []
       /\ exists a, current_thread_id t = Some a
                    /\ 1 <= a <= Z.of_nat (length colors).
Proof.
  intros Hs Hr Hd. split.
  - apply all_done_shared; assumption.
  - intros t Ht. split.
    + destruct (held_reachable _ _ _ Hr t Ht) as [Hc|Hh].
      * rewrite (Hd t Ht) in Hc. discriminate.
      * rewrite Hh, (Hd t Ht). reflexivity.
    + exact (all_done_ids slots colors s t Hs Hr Hd Ht).
Qed.

Lemma finished_run_restores_state_witness :
  let s := after 1 [Blue; Green] (replicate 38 0%nat ++ replicate 38 1%nat) in
  0 < 1 /\ reachable 1 [Blue; Green] s /\ all_done s
  /\ shared s = mkShared false 1 1 (Lightswitch_init Blue)
                         (Lightswitch_init Green) 1 1 2 0 false
                         (stdout (shared s)).
Proof.
  intros s.
  assert (Hd : all_done s).
  { intros t Ht. apply list_elem_of_lookup in Ht as [j Hj].
    destruct j as [|[|j]]; vm_compute in Hj;
      [injection Hj as <-; reflexivity|injection Hj as <-; reflexivity
      |discriminate]. }
  split; [lia|]. split; [apply after_reachable|]. split; [exact Hd|].
  apply (finished_run_restores_state 1 [Blue; Green] s);
    [lia|apply after_reachable|exact Hd].
Defined.

(** X10. The program runs to completion.  For valid inputs and any
    shuffle, from the state the main thread creates some schedule makes
    every thread return, no run has more than 38 statements per thread,
    and a run that cannot be continued has every thread returned, the
    room empty and [thread_id] equal to the number of threads. *)
Theorem program_runs_to_completion (slots blue green : Z)
    (sh : list Color -> list Color) :
  0 < slots -> 0 <= blue -> 0 <= green -> 0 < blue + green ->
  (forall l, sh l ≡ₚ l) ->
  exists s0,
    main slots blue green sh = inr s0
    /\ (exists sched s', run sched s0 = Some s' /\ all_done s')
    /\ (forall sched s', run sched s0 = Some s' ->
          (Z.of_nat (length sched) <= 38 * (blue + green))
          /\ (stuck s' ->
                all_done s'
                /\ room_ctr (shared s') = 0
                /\ thread_id (shared s') = blue + green
                /\ blue_green_mutex (shared s') = 1
                /\ turnstile (shared s') = 1)).
Proof.
  intros Hs Hb Hg Hbg Hperm.
  set (colors := sh (replicate (Z.to_nat blue) Blue
                     ++ replicate (Z.to_nat green) Green)).
  pose proof (reach_init slots colors) as Hr.
  assert (Hlen : Z.of_nat (length colors) = blue + green).
  { unfold colors. rewrite (Permutation_length (Hperm _)).
    rewrite length_app, !length_replicate. lia. }
  exists (init slots colors). split; [apply main_state; assumption|]. split.
  - exact (can_finish slots colors (measure (init slots colors)) _ Hs Hr
             (le_n _)).
  - intros sched s' Hrun.
    pose proof (run_reachable _ _ _ _ _ Hr Hrun) as Hr'.
    split.
    + pose proof (run_measure _ _ _ Hrun).
      pose proof (reachable_measure _ _ _ Hr). lia.
    + intros Hstuck.
      assert (D : all_done s').
      { destruct (done_or_moves _ _ _ Hs Hr') as [D|M]; [exact D|].
        destruct (stuck_not_can_move _ Hstuck M). }
      rewrite (all_done_shared _ _ _ Hs Hr' D). cbn.
      split_all; try reflexivity; try exact D. lia.
Qed.

Lemma program_runs_to_completion_witness :
  0 < 1 /\ 0 <= 1 /\ 0 <= 1 /\ 0 < 1 + 1
  /\ (forall l : list Color, reverse l ≡ₚ l)
  /\ exists s0,
       main 1 1 1 reverse = inr s0
       /\ exists sched s', run sched s0 = Some s' /\ all_done s'.
Proof.
  split; [lia|]. split; [lia|]. split; [lia|]. split; [lia|].
  split; [intros l; apply reverse_Permutation|].
  destruct (program_runs_to_completion 1 1 1 reverse) as (s0 & Hm & Hf & _);
    [lia|lia|lia|lia|intros l; apply reverse_Permutation|].
  exists s0. split; [exact Hm|exact Hf].
Defined.

(** X11. For valid inputs the main thread creates one thread per
    requested blue and green thread, in some order: the shuffle only
    permutes them.  No thread has started, and the shared variables have
    their initial values. *)
Theorem main_creates_threads (slots blue green : Z)
    (sh : list Color -> list Color) :
  0 < slots -> 0 <= blue -> 0 <= green -> 0 < blue + green ->
  (forall l, sh l ≡ₚ l) ->
  exists s,
    main slots blue green sh = inr s
    /\ shared s = init_shared slots
    /\ Z.of_nat (length (threads s)) = blue + green
    /\ cnt (at_pc Blue TurnstileAcquire) (threads s) = blue
    /\ cnt (at_pc Green TurnstileAcquire) (threads s) = green
    /\ (forall t, t ∈ threads s -> t = new_thread (tcolor t))
    /\ reachable slots (sh (replicate (Z.to_nat blue) Blue
                            ++ replicate (Z.to_nat green) Green)) s.
Proof.
  intros Hs Hb Hg Hbg Hperm. eexists.
  split; [apply main_state; assumption|].
  set (l0 := replicate (Z.to_nat blue) Blue ++ replicate (Z.to_nat green) Green).
  assert (Hp : map new_thread (sh l0) ≡ₚ map new_thread l0)
    by (apply Permutation_map, Hperm).
  unfold init. cbn [shared threads]. split_all.
  - reflexivity.
  - rewrite (Permutation_length Hp), length_map. unfold l0.
    rewrite length_app, !length_replicate. lia.
  - rewrite (cnt_perm _ _ _ Hp). unfold l0.
    rewrite map_app, cnt_app, !cnt_new_replicate. simpl Z.b2z. lia.
  - rewrite (cnt_perm _ _ _ Hp). unfold l0.
    rewrite map_app, cnt_app, !cnt_new_replicate. simpl Z.b2z. lia.
  - intros t Ht. apply list_elem_of_fmap in Ht as (c & -> & _). reflexivity.
  - apply reach_init.
Qed.

Lemma main_creates_threads_witness :
  0 < 2 /\ 0 <= 2 /\ 0 <= 1 /\ 0 < 2 + 1
  /\ (forall l : list Color, reverse l ≡ₚ l)
  /\ exists s,
       main 2 2 1 reverse = inr s
       /\ threads s = [new_thread Green; new_thread Blue; new_thread Blue]
       /\ cnt (at_pc Blue TurnstileAcquire) (threads s) = 2.
Proof.
  split; [lia|]. split; [lia|]. split; [lia|]. split; [lia|].
  split; [intros l; apply reverse_Permutation|].
  destruct (main_creates_threads 2 2 1 reverse) as (s & Hm & _ & _ & Hb & _);
    [lia|lia|lia|lia|intros l; apply reverse_Permutation|].
  exists s. split; [exact Hm|]. split; [|exact Hb].
  vm_compute in Hm. injection Hm as <-. reflexivity.
Defined.

(** X12. When a lightswitch method blocks.  [lock] blocks exactly when the
    mutex of the lightswitch is taken, or the counter is 0 and
    [blue_green_mutex] is taken; [unlock] blocks exactly when the mutex of
    the lightswitch is taken.  A call that returns leaves the mutex and
    the colour of the lightswitch as they were, and its first and last
    semaphore operations are the acquire and the release of that mutex. *)
Theorem lightswitch_blocking (l : Lightswitch) (bg : Z) :
  (Method.call Method.lock l bg = None
   <-> mutex l <= 0 \/ (counter l = 0 /\ bg <= 0))
  /\ (Method.call Method.unlock l bg = None <-> mutex l <= 0)
  /\ (forall m w,
        m = Method.lock \/ m = Method.unlock ->
        Method.call m l bg = Some w ->
        mutex (Method.self w) = mutex l
        /\ color (Method.self w) = color l
        /\ head (Method.ops w) = Some Method.AcquireMutex
        /\ last (Method.ops w) = Some Method.ReleaseMutex).
Proof.
  destruct l as [n c m]. cbn [counter color mutex]. split_all.
  - method_cases; split; intros H;
      first [reflexivity | discriminate | lia | exfalso; lia].
  - method_cases; split; intros H;
      first [reflexivity | discriminate | lia | exfalso; lia].
  - intros m0 w [-> | ->]; method_cases; intros H; try discriminate;
      injection H as <-; cbn; split_all; first [reflexivity | lia].
Qed.

(** X13. Entering and leaving in a row.  From a fresh lightswitch and a
    free [blue_green_mutex], [k + 1] calls of [lock] leave the counter at
    [k + 1] and acquire [blue_green_mutex] once, in the first call;
    [k + 1] calls of [unlock] after them bring the lightswitch and
    [blue_green_mutex] back, releasing it once, in the last call. *)
Theorem lock_n_unlock_n (l : Lightswitch) (bg : Z) (k : nat) :
  counter l = 0 -> 0 < mutex l -> 0 < bg ->
  Method.call (times (S k) Method.lock) l bg
  = Some (Method.mkWorld
            (mkLightswitch (Z.of_nat (S k)) (color l) (mutex l)) (bg - 1)
            ([Method.AcquireMutex; Method.AcquireBG; Method.ReleaseMutex]
             ++ quiet_ops k))
  /\ Method.call (times (S k) Method.unlock)
       (mkLightswitch (Z.of_nat (S k)) (color l) (mutex l)) (bg - 1)
     = Some (Method.mkWorld l bg
               (quiet_ops k
                ++ [Method.AcquireMutex; Method.ReleaseBG; Method.ReleaseMutex]))
  /\ Method.call
       (Method.bind (times (S k) Method.lock)
                    (fun _ => times (S k) Method.unlock)) l bg
     = Some (Method.mkWorld l bg
               ([Method.AcquireMutex; Method.AcquireBG; Method.ReleaseMutex]
                ++ quiet_ops k ++ quiet_ops k
                ++ [Method.AcquireMutex; Method.ReleaseBG; Method.ReleaseMutex])).
Proof.
  destruct l as [n c m]. cbn [counter color mutex]. intros -> Hm Hbg.
  assert (L1 : forall o,
             Method.lock (Method.mkWorld (mkLightswitch 0 c m) bg o)
             = Some (tt, Method.mkWorld (mkLightswitch 1 c m) (bg - 1)
                      (o ++ [Method.AcquireMutex; Method.AcquireBG;
                             Method.ReleaseMutex]))).
  { intros o. method_cases; try lia. rewrite <- !app_assoc. same_world. }
  assert (U1 : forall b o,
             Method.unlock (Method.mkWorld (mkLightswitch 1 c m) b o)
             = Some (tt, Method.mkWorld (mkLightswitch 0 c m) (b + 1)
                      (o ++ [Method.AcquireMutex; Method.ReleaseBG;
                             Method.ReleaseMutex]))).
  { intros b o. method_cases; try lia. rewrite <- !app_assoc. same_world. }
  assert (LK : forall o,
             times (S k) Method.lock (Method.mkWorld (mkLightswitch 0 c m) bg o)
             = Some (tt, Method.mkWorld (mkLightswitch (Z.of_nat (S k)) c m)
                      (bg - 1)
                      ((o ++ [Method.AcquireMutex; Method.AcquireBG;
                              Method.ReleaseMutex]) ++ quiet_ops k))).
  { intros o. cbn [times]. unfold Method.bind at 1.
    rewrite L1, times_lock_quiet by lia.
    replace (1 + Z.of_nat k) with (Z.of_nat (S k)) by lia. reflexivity. }
  assert (UK : forall o,
             times (S k) Method.unlock
               (Method.mkWorld (mkLightswitch (Z.of_nat (S k)) c m) (bg - 1) o)
             = Some (tt, Method.mkWorld (mkLightswitch 0 c m) bg
                      ((o ++ quiet_ops k)
                       ++ [Method.AcquireMutex; Method.ReleaseBG;
                           Method.ReleaseMutex]))).
  { intros o. replace (S k) with (k + 1)%nat at 1 by lia.
    rewrite times_app, times_unlock_quiet by lia.
    replace (Z.of_nat (S k) - Z.of_nat k) with 1 by lia.
    cbn [times]. unfold Method.bind, Method.ret. rewrite U1.
    replace (bg - 1 + 1) with bg by lia. reflexivity. }
  split_all.
  - unfold Method.call. rewrite LK. reflexivity.
  - unfold Method.call. rewrite UK. reflexivity.
  - unfold Method.call, Method.bind. rewrite LK, UK.
    rewrite <- !app_assoc. reflexivity.
Qed.

Lemma lock_n_unlock_n_witness :
  counter (Lightswitch_init Blue) = 0 /\ 0 < mutex (Lightswitch_init Blue)
  /\ 0 < 1
  /\ Method.call (times 3 Method.lock) (Lightswitch_init Blue) 1
     = Some (Method.mkWorld (mkLightswitch 3 Blue 1) 0
               [Method.AcquireMutex; Method.AcquireBG; Method.ReleaseMutex;
                Method.AcquireMutex; Method.ReleaseMutex;
                Method.AcquireMutex; Method.ReleaseMutex]).
Proof.
  split; [reflexivity|]. split; [reflexivity|]. split; [lia|].
  apply (lock_n_unlock_n (Lightswitch_init Blue) 1 2 eq_refl);
    [reflexivity|lia].
Defined.

(** X14. The output always reads as a consistent story.  Read from the
    start, every message fits what was printed before it: "Only" appears
    exactly when a thread enters the empty room, entries carry the
    announced colour and the next number, the number of threads shown
    inside never exceeds [num_slots], exits name a number already shown,
    and "Empty" appears exactly when the last thread shown inside has
    left.  Whenever no thread is inside a [with room_mutex:] block, the
    number of threads shown inside is [room_ctr] and the last number
    shown is [thread_id]. *)
Theorem transcript_consistent (slots : Z) (colors : list Color) (s : State) :
  0 < slots -> reachable slots colors s ->
  exists r,
    replay slots Reader_init (stdout (shared s)) = Some r
    /\ 0 <= shown_inside (room r) <= slots
    /\ thread_id (shared s) - 1 <= last_id r <= thread_id (shared s)
    /\ (room_mutex (shared s) = false ->
          last_id r = thread_id (shared s)
          /\ shown_inside (room r) = room_ctr (shared s)
          /\ (room_ctr (shared s) = 0 <-> room r = Vacant)).
Proof.
  intros Hs Hr.
  destruct (reader_synced _ _ _ Hs Hr) as (r & Hrep & Hl & Hsync).
  destruct (replay_facts _ _ _ _ Hs Hrep I) as (Hwf & _).
  exists r. split; [exact Hrep|]. split; [|split; [exact Hl|exact Hsync]].
  destruct (room r); cbn in *; lia.
Qed.

Lemma transcript_consistent_witness :
  let s := after 2 [Blue; Blue; Green]
                 (replicate 21 0%nat ++ replicate 17 1%nat
                  ++ replicate 6 0%nat) in
  0 < 2 /\ reachable 2 [Blue; Blue; Green] s
  /\ stdout (shared s)
     = [MsgOnly Blue; MsgEnter (Some 1) Blue; MsgEnter (Some 2) Blue;
        MsgExit (Some 1)]
  /\ exists r, replay 2 Reader_init (stdout (shared s)) = Some r
               /\ 0 <= shown_inside (room r) <= 2.
Proof.
  intros s. split; [lia|]. split; [apply after_reachable|].
  split; [vm_compute; reflexivity|].
  destruct (transcript_consistent 2 [Blue; Blue; Green] s)
    as (r & H1 & H2 & _); [lia|apply after_reachable|].
  exists r. split; [exact H1|exact H2].
Defined.

(** X15. The numbers on the entry messages of the output are 1, 2, 3, ...
    in the order printed, without gap or repetition and never [None]; the
    last of them is [thread_id], or [thread_id - 1] while a thread is
    between [thread_id += 1] and its entry message.  Every exit message
    names a number that an earlier entry message has shown. *)
Theorem transcript_ids_in_order (slots : Z) (colors : list Color) (s : State) :
  0 < slots -> reachable slots colors s ->
  exists k,
    thread_id (shared s) - 1 <= k <= thread_id (shared s)
    /\ 0 <= k
    /\ enter_ids (stdout (shared s)) = map Some (seqZ 1 k)
    /\ count_msgs is_enter (stdout (shared s)) = k
    /\ (room_mutex (shared s) = false -> k = thread_id (shared s))
    /\ (forall a, MsgExit a ∈ stdout (shared s) ->
          exists z, a = Some z /\ 1 <= z <= k).
Proof.
  intros Hs Hr.
  destruct (reader_synced _ _ _ Hs Hr) as (r & Hrep & Hl & Hsync).
  destruct (replay_facts _ _ _ _ Hs Hrep I)
    as (_ & Hle & Hids & Hcnt & _ & _ & Hex).
  cbn [Reader_init last_id] in *. rewrite Z.sub_0_r in *.
  exists (last_id r). split; [exact Hl|]. split; [exact Hle|].
  split; [exact Hids|]. split; [exact Hcnt|]. split; [|exact Hex].
  intros Hfree. apply (Hsync Hfree).
Qed.

Lemma transcript_ids_in_order_witness :
  let s := after 2 [Green; Green; Blue]
                 (replicate 21 1%nat ++ replicate 17 0%nat) in
  0 < 2 /\ reachable 2 [Green; Green; Blue] s
  /\ thread_id (shared s) = 2
  /\ exists k, thread_id (shared s) - 1 <= k <= thread_id (shared s)
               /\ 0 <= k
               /\ enter_ids (stdout (shared s)) = map Some (seqZ 1 k).
Proof.
  intros s. split; [lia|]. split; [apply after_reachable|].
  split; [vm_compute; reflexivity|].
  destruct (transcript_ids_in_order 2 [Green; Green; Blue] s)
    as (k & H1 & H2 & H3 & _); [lia|apply after_reachable|].
  exists k. split; [exact H1|]. split; [exact H2|exact H3].
Defined.

(** X16. The complete output.  When every thread has returned, the output
    shows the room vacant, it has one entry and one exit message per
    thread and as many "Only" as "Empty" messages, the entry messages are
    numbered 1 to the number of threads, and every thread finds its own
    number and colour on an entry message and its number on an exit
    message. *)
Theorem complete_transcript (slots : Z) (colors : list Color) (s : State) :
  0 < slots -> reachable slots colors s -> all_done s ->
  replay slots Reader_init (stdout (shared s))
  = Some (mkReader Vacant (Z.of_nat (length colors)))
  /\ count_msgs is_enter (stdout (shared s)) = Z.of_nat (length colors)
  /\ count_msgs is_exit (stdout (shared s)) = Z.of_nat (length colors)
  /\ count_msgs is_only (stdout (shared s)) = count_msgs is_empty (stdout (shared s))
  /\ enter_ids (stdout (shared s))
     = map Some (seqZ 1 (Z.of_nat (length colors)))
  /\ (forall t, t ∈ threads s ->
        exists a, current_thread_id t = Some a
                  /\ MsgEnter (Some a) (tcolor t) ∈ stdout (shared s)
                  /\ MsgExit (Some a) ∈ stdout (shared s)).
Proof.
  intros Hs Hr Hd.
  pose proof (all_done_shared _ _ _ Hs Hr Hd) as Esh.
  destruct (reader_synced _ _ _ Hs Hr) as (r & Hrep & _ & Hsync).
  destruct Hsync as (Hl & _ & Hv); [rewrite Esh; reflexivity|].
  assert (Er : r = mkReader Vacant (Z.of_nat (length colors))).
  { destruct r as [rm lid]. cbn in *. rewrite Esh in Hl, Hv. cbn in Hl, Hv.
    f_equal; [apply Hv; reflexivity|exact Hl]. }
  subst r.
  destruct (replay_facts _ _ _ _ Hs Hrep I)
    as (_ & _ & Hids & Hcnt & Hin & Hop & _).
  cbn [Reader_init room last_id shown_inside shown_open] in *.
  rewrite Z.sub_0_r in *. split_all; try assumption; try lia.
  intros t Ht. destruct (all_done_ids slots colors s t Hs Hr Hd Ht) as (a & Ha & _).
  destruct (logged_reachable _ _ _ Hr t Ht) as [L1 L2].
  rewrite (Hd t Ht), Ha in *. exists a. split; [reflexivity|].
  split; [apply L1|apply L2]; reflexivity.
Qed.

Lemma complete_transcript_witness :
  let s := after 1 [Blue; Green] (replicate 38 0%nat ++ replicate 38 1%nat) in
  0 < 1 /\ reachable 1 [Blue; Green] s /\ all_done s
  /\ stdout (shared s)
     = [MsgOnly Blue; MsgEnter (Some 1) Blue; MsgExit (Some 1); MsgEmpty;
        MsgOnly Green; MsgEnter (Some 2) Green; MsgExit (Some 2); MsgEmpty]
  /\ replay 1 Reader_init (stdout (shared s)) = Some (mkReader Vacant 2).
Proof.
  intros s.
  assert (Hd : all_done s).
  { intros t Ht. apply list_elem_of_lookup in Ht as [j Hj].
    destruct j as [|[|j]]; vm_compute in Hj;
      [injection Hj as <-; reflexivity|injection Hj as <-; reflexivity
      |discriminate]. }
  split; [lia|]. split; [apply after_reachable|]. split; [exact Hd|].
  split; [vm_compute; reflexivity|].
  apply (complete_transcript 1 [Blue; Green] s);
    [lia|apply after_reachable|exact Hd].
Defined.

(** X17. [fit_clothes] never fails and sleeps between
    [SLEEP_MIN / SLEEP_DIVISOR] (included) and [SLEEP_MAX / SLEEP_DIVISOR]
    (excluded) seconds: [randrange] has a value to return, the division is
    not by zero, and for every value [randrange] can return [time.sleep]
    gets a positive number of seconds and does not raise. *)
Theorem fit_clothes_sleeps (r : Z) :
  r ∈ randrange SLEEP_MIN SLEEP_MAX ->
  exists secs lo hi,
    fit_clothes r = Some (inr secs)
    /\ true_div SLEEP_MIN SLEEP_DIVISOR = Some (inr lo)
    /\ true_div SLEEP_MAX SLEEP_DIVISOR = Some (inr hi)
    /\ PrimFloat.leb lo secs = true
    /\ PrimFloat.ltb secs hi = true
    /\ PrimFloat.ltb PrimFloat.zero secs = true
    /\ randrange SLEEP_MIN SLEEP_MAX <> [].
Proof.
  intros H. apply elem_of_seqZ in H. unfold SLEEP_MIN, SLEEP_MAX in H.
  assert (E : r = 5 \/ r = 6 \/ r = 7 \/ r = 8 \/ r = 9) by lia.
  destruct E as [->|[->|[->|[->| ->]]]];
    (eexists; eexists; eexists;
     split; [vm_compute; reflexivity|];
     split; [vm_compute; reflexivity|];
     split; [vm_compute; reflexivity|];
     split; [vm_compute; reflexivity|];
     split; [vm_compute; reflexivity|];
     split; [vm_compute; reflexivity|];
     vm_compute; discriminate).
Qed.

Lemma fit_clothes_sleeps_witness :
  7 ∈ randrange SLEEP_MIN SLEEP_MAX
  /\ exists secs lo hi,
       fit_clothes 7 = Some (inr secs)
       /\ true_div SLEEP_MIN SLEEP_DIVISOR = Some (inr lo)
       /\ true_div SLEEP_MAX SLEEP_DIVISOR = Some (inr hi)
       /\ PrimFloat.leb lo secs = true
       /\ PrimFloat.ltb secs hi = true
       /\ PrimFloat.ltb PrimFloat.zero secs = true
       /\ randrange SLEEP_MIN SLEEP_MAX <> [].
Proof.
  assert (H : 7 ∈ randrange SLEEP_MIN SLEEP_MAX).
  { apply elem_of_seqZ. unfold SLEEP_MIN, SLEEP_MAX. lia. }
  split; [exact H|]. apply (fit_clothes_sleeps 7 H).
Defined.

(** X18. The start of the program asks for the three numbers in order and
    stops at the first one that is not acceptable: with three lines that
    are integers it ends as the validation of the three numbers says, it
    has shown the header, then one prompt if the number of slots is not
    positive, two if the number of blue threads is negative, three
    otherwise, and the empty line only when nothing is raised; it has read
    exactly as many lines as it has shown prompts. *)
Theorem startup_spec (int : string -> option Z) (l1 l2 l3 : string)
    (rest : list string) (slots blue green : Z) :
  int l1 = Some slots -> int l2 = Some blue -> int l3 = Some green ->
  snd (startup int (l1 :: l2 :: l3 :: rest))
  = match configure slots blue green with
    | inl e => inl (Uncaught e)
    | inr cfg => inr cfg
    end
  /\ shown (fst (startup int (l1 :: l2 :: l3 :: rest)))
     = Printed HEADER :: prompts_for slots blue
       ++ (match configure slots blue green with
           | inl _ => []
           | inr _ => [Printed EmptyString]
           end)
  /\ stdin (fst (startup int (l1 :: l2 :: l3 :: rest)))
     = drop (length (prompts_for slots blue)) (l1 :: l2 :: l3 :: rest).
Proof.
  intros H1 H2 H3. unfold startup, read_int, configure, prompts_for.
  cbn [stdin shown]. rewrite H1.
  destruct (slots <=? 0); [cbn; auto|].
  cbn [stdin shown]. rewrite H2.
  destruct (blue <? 0); [cbn; auto|].
  cbn [stdin shown]. rewrite H3.
  destruct (green <? 0); [cbn; auto|].
  destruct ((blue =? 0) && (green =? 0)); cbn; auto.
Qed.

Lemma startup_spec_witness :
  digit "2" = Some 2 /\ digit "0" = Some 0 /\ digit "0" = Some 0
  /\ snd (startup digit ["2"; "0"; "0"; "7"]%string)
     = inl (Uncaught (Raise "No threads to synchronize!"))
  /\ shown (fst (startup digit ["2"; "0"; "0"; "7"]%string))
     = [Printed HEADER; Prompted ASK_SLOTS; Prompted ASK_BLUE;
        Prompted ASK_GREEN]
  /\ stdin (fst (startup digit ["2"; "0"; "0"; "7"]%string)) = ["7"%string].
Proof.
  split; [reflexivity|]. split; [reflexivity|]. split; [reflexivity|].
  apply (startup_spec digit "2" "0" "0" ["7"%string] 2 0 0);
    reflexivity.
Defined.
